(** * Canonicalisation of post-translational modifications (PTMs)

    A shallow embedding of [martinize2/processors/canonize_PTMs.py] and of
    the matcher contract exercised by [vermouth/tests/test_ismags.py].

    Python dictionaries are finite maps ([gmap]), Python sets are finite
    sets ([gset]), exceptions are an explicit [result] type, and the
    recursion of [identify_ptms] and the [while] loop of [find_PTM_atoms]
    are driven by a fuel argument whose exhaustion is a third outcome. *)

From stdpp Require Import gmap strings list fin_maps sorting.

#[local] Set Warnings "-clear-no-such-hyp".

(** ** Exceptions *)

Inductive exn :=
  | KeyError (key : string).

Inductive result (A : Type) :=
  | Ok (a : A)
  | Raise (e : exn)
  | OutOfFuel.

Arguments Ok {A} a.
Arguments Raise {A} e.
Arguments OutOfFuel {A}.

#[global] Instance result_ret : MRet result := λ A a, Ok a.
#[global] Instance result_bind : MBind result := λ A B k r,
  match r with
  | Ok a => k a
  | Raise e => Raise e
  | OutOfFuel => OutOfFuel
  end.

(** [d[key]] on a dictionary entry that may be absent. *)
Definition getitem {A} (key : string) (o : option A) : result A :=
  match o with
  | Some a => Ok a
  | None => Raise (KeyError key)
  end.

(** ** Attributed graphs

    A node carries a dictionary of attributes; every attribute the
    processor reads or writes is a field that may be absent.  The
    [modifications] list is a mutable object: the attribute holds a
    reference into a store of lists, so that a copied attribute dictionary
    shares the list with the original.  The [graph] attribute holds the
    provenance copy made by [fix_ptm]. *)

Abbreviation loc := nat (only parsing).

Inductive NodeAttrs := MkAttrs {
  resid : option Z;
  atomname : option string;
  element : option string;
  PTM_atom : option bool;
  rename : option string;
  modifications : option loc;
  graph : option Graph
}
with Graph := MkGraph {
  g_name : option string;
  g_nodes : gmap nat NodeAttrs;
  g_edges : list (nat * nat)
}.

Definition no_attrs : NodeAttrs := MkAttrs None None None None None None None.

(** [node.get('PTM_atom', False)] *)
Definition flagged (a : NodeAttrs) : bool := default false (PTM_atom a).

Definition node_flagged (g : Graph) (n : nat) : bool :=
  match g_nodes g !! n with
  | Some a => flagged a
  | None => false
  end.

(** [len(G)] *)
Definition graph_len (g : Graph) : nat := size (g_nodes g).

(** The first occurrence of every element, in order: the key order of a
    dictionary filled by successive insertions. *)
Fixpoint dedup (l : list nat) : list nat :=
  match l with
  | [] => []
  | x :: l' => x :: filter (λ y, y ≠ x) (dedup l')
  end.

Definition other_end (n : nat) (e : nat * nat) : option nat :=
  if decide (e.1 = n) then Some e.2
  else if decide (e.2 = n) then Some e.1
  else None.

(** [G[n]]: the neighbours of [n] in the order in which the edges were
    added; a subgraph view hides the neighbours that are not its nodes. *)
Definition neighbors (g : Graph) (n : nat) : list nat :=
  filter (λ v, v ∈ dom (g_nodes g)) (dedup (omap (other_end n) (g_edges g))).

Definition has_edge (g : Graph) (u v : nat) : bool :=
  bool_decide (u ∈ dom (g_nodes g)) && bool_decide (v ∈ neighbors g u).

(** [G.subgraph(nbunch)] *)
Definition subgraph (g : Graph) (nbunch : gset nat) : Graph :=
  MkGraph (g_name g) (filter (λ kv, kv.1 ∈ nbunch) (g_nodes g)) (g_edges g).

(** [G.copy()]: the edges a view hides are not copied. *)
Definition copy (g : Graph) : Graph :=
  MkGraph (g_name g) (g_nodes g)
    (filter (λ e, e.1 ∈ dom (g_nodes g) ∧ e.2 ∈ dom (g_nodes g)) (g_edges g)).

(** ** The matcher of [canonize_PTMs.py] *)

(** [G1] is the found residue, [G2] the PTM reference. *)
Record PTMGraphMatcher := MkMatcher {
  G1 : Graph;
  G2 : Graph
}.

Definition semantic_feasibility (self : PTMGraphMatcher) (node1 node2 : nat)
    : result bool :=
  node1 ← getitem "node" (g_nodes (G1 self) !! node1);
  node2 ← getitem "node" (g_nodes (G2 self) !! node2);
  flag2 ← getitem "PTM_atom" (PTM_atom node2);
  if bool_decide (flagged node1 = flag2) then
    if flag2 then
      e1 ← getitem "element" (element node1);
      e2 ← getitem "element" (element node2);
      Ok (bool_decide (e1 = e2))
    else
      a1 ← getitem "atomname" (atomname node1);
      a2 ← getitem "atomname" (atomname node2);
      Ok (bool_decide (a1 = a2))
  else Ok false.

(** Whether [semantic_feasibility] returns [True], as a function of the
    attributes of the two nodes: the shape of a [node_match] of
    [networkx]. *)
Definition feasible (node1 node2 : NodeAttrs) : bool :=
  match PTM_atom node2 with
  | Some flag2 =>
      bool_decide (flagged node1 = flag2) &&
      (if flag2 then
         match element node1, element node2 with
         | Some e1, Some e2 => bool_decide (e1 = e2)
         | _, _ => false
         end
       else
         match atomname node1, atomname node2 with
         | Some a1, Some a2 => bool_decide (a1 = a2)
         | _, _ => false
         end)
  | None => false
  end.

(** The reference patterns of [KNOWN_PTMS]. *)
Definition ptm_node (name elem : string) (flag : bool) (ren : option string)
    : NodeAttrs :=
  MkAttrs None (Some name) (Some elem) (Some flag) ren None None.

Definition n_term : Graph :=
  MkGraph (Some "N-terminus"%string)
    (<[0 := ptm_node "N" "N" false None]>
     (<[1 := ptm_node "HN" "H" false (Some "HN1"%string)]>
      (<[2 := ptm_node "HN2" "H" true None]>
       (<[3 := ptm_node "HN3" "H" true None]> ∅))))
    [(0, 1); (0, 2); (0, 3)].

Definition c_term : Graph :=
  MkGraph (Some "C-terminus"%string)
    (<[0 := ptm_node "C" "C" false None]>
     (<[1 := ptm_node "O" "O" false (Some "OC1"%string)]>
      (<[2 := ptm_node "OC2" "O" true None]> ∅)))
    [(0, 1); (0, 2)].

Definition KNOWN_PTMS : list Graph := [n_term; c_term].

(** A molecule node as the upstream stages deliver it. *)
Definition atom (res : Z) (name elem : string) (flag : option bool) : NodeAttrs :=
  MkAttrs (Some res) (Some name) (Some elem) flag None None None.

(** Scenario A: an N-terminal residue, [HN2] and [HN3] unrecognised. *)
Definition mol_nterm : Graph :=
  MkGraph None
    (<[0 := atom 1 "N" "N" None]>
     (<[1 := atom 1 "HN" "H" None]>
      (<[2 := atom 1 "HN2" "H" (Some true)]>
       (<[3 := atom 1 "HN3" "H" (Some true)]> ∅))))
    [(0, 1); (0, 2); (0, 3)].

(** ** Breadth-first traversal as [networkx] performs it

    [generic_bfs_edges] keeps a set of visited nodes and a queue; the head
    of the queue is the current parent, its neighbours are scanned in
    adjacency order, and every neighbour not yet visited is reported as an
    edge [(parent, child)], marked and queued. *)

Fixpoint scan_children (children : list nat) (visited : gset nat)
    : list nat * gset nat :=
  match children with
  | [] => ([], visited)
  | child :: rest =>
      if decide (child ∈ visited) then scan_children rest visited
      else
        let '(new, visited') := scan_children rest ({[child]} ∪ visited) in
        (child :: new, visited')
  end.

Fixpoint bfs_loop (fuel : nat) (g : Graph) (visited : gset nat)
    (queue : list nat) : option (list (nat * nat)) :=
  match queue with
  | [] => Some []
  | parent :: queue' =>
      match fuel with
      | 0 => None
      | S fuel' =>
          let '(new, visited') := scan_children (neighbors g parent) visited in
          rest ← bfs_loop fuel' g visited' (queue' ++ new);
          Some (map (pair parent) new ++ rest)
      end
  end.

Definition bfs_edges (g : Graph) (source : nat) : option (list (nat * nat)) :=
  bfs_loop (S (size (g_nodes g))) g {[source]} [source].

(** [bfs_successors] groups consecutive edges by parent; a node without
    children in the traversal tree is never reported, except that the last
    group is always emitted, so an isolated source yields [(source, [])]. *)
Fixpoint group_successors (parent : nat) (children : list nat)
    (edges : list (nat * nat)) : list (nat * list nat) :=
  match edges with
  | [] => [(parent, children)]
  | (p, c) :: edges' =>
      if decide (p = parent) then group_successors parent (children ++ [c]) edges'
      else (parent, children) :: group_successors p [c] edges'
  end.

Definition bfs_successors (g : Graph) (source : nat)
    : option (list (nat * list nat)) :=
  group_successors source [] <$> bfs_edges g source.

(** ** [find_PTM_atoms] *)

Definition Island : Type := gset nat * gset nat.

(** The body of the [for orig, succ in nx.bfs_successors(...)] loop;
    [to_see.remove(orig)] raises [KeyError] when [orig] is not in the set. *)
Fixpoint traverse (extra_atoms : gset nat) (succs : list (nat * list nat))
    (to_see atoms anchors : gset nat) : result Island :=
  match succs with
  | [] => Ok (atoms, anchors)
  | (orig, succ) :: succs' =>
      if decide (orig ∈ to_see) then
        let to_see := to_see ∖ {[orig]} in
        if decide (orig ∈ extra_atoms) then
          let to_see := to_see ∪ list_to_set succ in
          let atoms := {[orig]} ∪ atoms in
          if decide (to_see = ∅) then Ok (atoms, anchors)
          else traverse extra_atoms succs' to_see atoms anchors
        else
          let anchors := {[orig]} ∪ anchors in
          if decide (to_see = ∅) then Ok (atoms, anchors)
          else traverse extra_atoms succs' to_see atoms anchors
      else Raise (KeyError "to_see")
  end.

(** The nodes with a true [PTM_atom] attribute. *)
Definition flagged_nodes (g : Graph) : gset nat :=
  dom (filter (λ kv, flagged kv.2 = true) (g_nodes g)).

Section Islands.
(** [next(iter(s))]: the iteration order of a set is not specified, so
    the choice of the seed is a parameter. *)
Variable next_iter : gset nat → nat.

(** One turn of the [while extra_atoms] loop, from the seed [first]. *)
Definition island_from (molecule : Graph) (extra_atoms : gset nat)
    (first : nat) : result Island :=
  match bfs_successors molecule first with
  | None => OutOfFuel
  | Some succs => traverse extra_atoms succs {[first]} ∅ ∅
  end.

Fixpoint find_PTM_loop (fuel : nat) (molecule : Graph)
    (extra_atoms : gset nat) (PTMs : list Island) : result (list Island) :=
  if decide (extra_atoms = ∅) then Ok PTMs
  else
    match fuel with
    | 0 => OutOfFuel
    | S fuel' =>
        let first := next_iter extra_atoms in
        '(atoms, anchors) ← island_from molecule extra_atoms first;
        find_PTM_loop fuel' molecule (extra_atoms ∖ atoms)
          (PTMs ++ [(atoms, anchors)])
    end.

Definition find_PTM_atoms (molecule : Graph) : result (list Island) :=
  let extra_atoms := flagged_nodes molecule in
  find_PTM_loop (size extra_atoms) molecule extra_atoms [].
End Islands.

(** The seed that CPython picks on the molecules below.  A set of at
    most four integers smaller than 8 is kept in a table of 8 slots, each
    integer in the slot of its own value, and is iterated in ascending
    order.  This is not the order of larger sets or larger integers (the
    set of 1 and 8 is iterated from 8), which is why the theorems on
    [find_PTM_atoms] take the choice of the seed as a parameter. *)
Definition ascending_first (s : gset nat) : nat :=
  match elements s with
  | [] => 0
  | x :: l => foldr Nat.min x l
  end.

(** A serine-like side chain: [CB] (0, recognised) carries an unrecognised
    group whose centre [P] (1) binds two unrecognised leaves (2 and 3). *)
Definition mol_branch : Graph :=
  MkGraph None
    (<[0 := atom 1 "CB" "C" None]>
     (<[1 := atom 1 "P" "P" (Some true)]>
      (<[2 := atom 1 "O1" "O" (Some true)]>
       (<[3 := atom 1 "O2" "O" (Some true)]> ∅))))
    [(0, 1); (1, 2); (1, 3)].

(** A backbone [CB] (1), [CA] (4), [C] (5) whose [CB] carries a chain of
    three unrecognised atoms (0, 2, 3). *)
Definition mol_long_chain : Graph :=
  MkGraph None
    (<[0 := atom 1 "X1" "C" (Some true)]>
     (<[1 := atom 1 "CB" "C" None]>
      (<[2 := atom 1 "X2" "C" (Some true)]>
       (<[3 := atom 1 "X3" "C" (Some true)]>
        (<[4 := atom 1 "CA" "C" None]>
         (<[5 := atom 1 "C" "C" None]> ∅))))))
    [(0, 1); (0, 2); (1, 4); (2, 3); (4, 5)].

(** ** [identify_ptms] *)

(** A match is the dictionary [{res_idx: ptm_idx}] of the matcher. *)
Abbreviation Match := (gmap nat nat).

(** [enumerate(options)] *)
Fixpoint enumerate_from {A} (i : nat) (l : list A) : list (nat * A) :=
  match l with
  | [] => []
  | x :: l' => (i, x) :: enumerate_from (S i) l'
  end.

(** The atoms not yet consumed: the union of the islands' first parts. *)
Definition remaining (residue_ptms : list Island) : gset nat :=
  ⋃ (fst <$> residue_ptms).

(** The non-PTM atoms of the residue. *)
Definition plain_nodes (residue : Graph) : gset nat :=
  dom (filter (λ kv, flagged kv.2 = false) (g_nodes residue)).

Definition available_atoms (residue : Graph) (residue_ptms : list Island)
    : gset nat :=
  plain_nodes residue ∪ remaining residue_ptms.

Definition remove_matching (matching : gset nat) (residue_ptms : list Island)
    : list Island :=
  (λ res_ptm, (res_ptm.1 ∖ matching, res_ptm.2)) <$> residue_ptms.

(** [not any(res_ptm[0] for res_ptm in residue_ptms)] *)
Definition nothing_left (residue_ptms : list Island) : bool :=
  forallb (λ res_ptm, bool_decide (res_ptm.1 = ∅)) residue_ptms.

Section Resolver.
(** [matcher.subgraph_isomorphisms_iter()]: the matcher of [networkx] is
    an external library, its enumeration (and the order of it) is a
    parameter. *)
Variable subgraph_isomorphisms_iter : PTMGraphMatcher → list Match.

Definition subgraph_is_isomorphic (matcher : PTMGraphMatcher) : bool :=
  match subgraph_isomorphisms_iter matcher with
  | [] => false
  | _ :: _ => true
  end.

(** The [for idx, option in enumerate(options)] loop; [recurse] is the
    recursive call of [identify_ptms]. *)
Fixpoint try_options
    (recurse : list Island → list (Graph * PTMGraphMatcher) →
               result (list (Graph * Match)))
    (residue : Graph) (residue_ptms : list Island)
    (options : list (Graph * PTMGraphMatcher))
    (todo : list (nat * (Graph * PTMGraphMatcher)))
    : result (list (Graph * Match)) :=
  match todo with
  | [] => Raise (KeyError "Could not identify PTM")
  | (idx, (ptm, matcher)) :: todo' =>
      let matches := subgraph_isomorphisms_iter matcher in
      let available := available_atoms residue residue_ptms in
      match list_find (λ m : Match, dom m ⊆ available) matches with
      | Some (_, match_) =>
          let new_res_ptms := remove_matching (dom match_) residue_ptms in
          rest ← recurse new_res_ptms (drop idx options);
          Ok ((ptm, match_) :: rest)
      | None => try_options recurse residue residue_ptms options todo'
      end
  end.

Fixpoint identify_ptms (fuel : nat) (residue : Graph)
    (residue_ptms : list Island) (options : list (Graph * PTMGraphMatcher))
    : result (list (Graph * Match)) :=
  if nothing_left residue_ptms then Ok []
  else
    match fuel with
    | 0 => OutOfFuel
    | S fuel' =>
        try_options (identify_ptms fuel' residue) residue residue_ptms
          options (enumerate_from 0 options)
    end.

(** [allowed_ptms] *)
Definition allowed_ptms (residue : Graph) (res_ptms : list Island)
    (known_ptms : list Graph) : list (Graph * PTMGraphMatcher) :=
  omap (λ ptm,
          let ptm_graph_matcher := MkMatcher residue ptm in
          if subgraph_is_isomorphic ptm_graph_matcher
          then Some (ptm, ptm_graph_matcher) else None)
       known_ptms.
End Resolver.

(** [sorted(l, key=key)]: the stable ascending sort. *)
Fixpoint insert_by {A} (key : A → nat) (x : A) (l : list A) : list A :=
  match l with
  | [] => [x]
  | y :: l' => if decide (key x ≤ key y) then x :: y :: l'
               else y :: insert_by key x l'
  end.

Definition sorted_by {A} (key : A → nat) (l : list A) : list A :=
  foldr (insert_by key) [] l.

(** The candidates of one residue group, lines 254 to 257 of [fix_ptm]. *)
Definition candidates (iso : PTMGraphMatcher → list Match) (molecule : Graph)
    (n_idxs : gset nat) (res_ptms : list Island) (known_PTMs : list Graph)
    : list (Graph * PTMGraphMatcher) :=
  let residue := subgraph molecule n_idxs in
  let options := allowed_ptms iso residue res_ptms known_PTMs in
  sorted_by (λ opt, graph_len opt.1) options.

(** ** The renaming and the audit trail of [fix_ptm] *)

(** The molecule and the store of its [modifications] lists. *)
Record MolState := MkState {
  mol : Graph;
  store : gmap loc (list Graph)
}.

Definition set_node (g : Graph) (n : nat) (a : NodeAttrs) : Graph :=
  MkGraph (g_name g) (<[n := a]> (g_nodes g)) (g_edges g).

Definition with_rename (a : NodeAttrs) (snapshot : Graph) (new_name : string)
    : NodeAttrs :=
  MkAttrs (resid a) (Some new_name) (element a) (PTM_atom a) (rename a)
          (modifications a) (Some snapshot).

Definition with_modifications (a : NodeAttrs) (l : loc) : NodeAttrs :=
  MkAttrs (resid a) (atomname a) (element a) (PTM_atom a) (rename a)
          (Some l) (graph a).

(** [molecule.subgraph([mol_idx]).copy()] *)
Definition snapshot (molecule : Graph) (mol_idx : nat) : Graph :=
  copy (subgraph molecule {[mol_idx]}).

(** [ptm_node['PTM_atom'] or 'rename' in ptm_node] *)
Definition to_rename (ptm_node : NodeAttrs) (is_ptm : bool) : bool :=
  is_ptm || bool_decide (is_Some (rename ptm_node)).

(** Lines 263 to 270, for one item of [match.items()]; the debug output
    reads the old [atomname] of the molecule node. *)
Definition rename_atom (molecule ptm : Graph) (mol_idx ptm_idx : nat)
    : result Graph :=
  ptm_node ← getitem "node" (g_nodes ptm !! ptm_idx);
  mol_node ← getitem "node" (g_nodes molecule !! mol_idx);
  is_ptm ← getitem "PTM_atom" (PTM_atom ptm_node);
  if to_rename ptm_node is_ptm then
    let provenance := snapshot molecule mol_idx in
    ptm_name ← getitem "atomname" (atomname ptm_node);
    let new_name := default ptm_name (rename ptm_node) in
    _ ← getitem "atomname" (atomname mol_node);
    Ok (set_node molecule mol_idx (with_rename mol_node provenance new_name))
  else Ok molecule.

Fixpoint rename_atoms (molecule ptm : Graph) (items : list (nat * nat))
    : result Graph :=
  match items with
  | [] => Ok molecule
  | (mol_idx, ptm_idx) :: items' =>
      molecule' ← rename_atom molecule ptm mol_idx ptm_idx;
      rename_atoms molecule' ptm items'
  end.

(** Lines 272 and 273, for one node of the group. *)
Definition append_modification (st : MolState) (ptm : Graph) (n_idx : nat)
    : result MolState :=
  node ← getitem "node" (g_nodes (mol st) !! n_idx);
  let '(l, store1) :=
    match modifications node with
    | Some l => (l, store st)
    | None => let l := fresh (dom (store st)) in (l, <[l := []]> (store st))
    end in
  let molecule' := set_node (mol st) n_idx (with_modifications node l) in
  Ok (MkState molecule' (<[l := default [] (store1 !! l) ++ [ptm]]> store1)).

Fixpoint append_modifications (st : MolState) (ptm : Graph)
    (n_idxs : list nat) : result MolState :=
  match n_idxs with
  | [] => Ok st
  | n_idx :: n_idxs' =>
      st' ← append_modification st ptm n_idx;
      append_modifications st' ptm n_idxs'
  end.

(** Lines 262 to 273, for one identified [(ptm, match)]. *)
Definition apply_match (st : MolState) (n_idxs : gset nat)
    (ptm : Graph) (match_ : Match) : result MolState :=
  molecule' ← rename_atoms (mol st) ptm (map_to_list match_);
  append_modifications (MkState molecule' (store st)) ptm (elements n_idxs).

(** Lines 261 to 273: the loop over [identified]. *)
Fixpoint apply_identified (st : MolState) (n_idxs : gset nat)
    (identified : list (Graph * Match)) : result MolState :=
  match identified with
  | [] => Ok st
  | (ptm, match_) :: identified' =>
      st' ← apply_match st n_idxs ptm match_;
      apply_identified st' n_idxs identified'
  end.

(** The list object that the [modifications] attribute of a node refers
    to, if the node has the attribute. *)
Definition modifications_ref (st : MolState) (n : nat) : option loc :=
  g_nodes (mol st) !! n ≫= modifications.

(** ** The loop of [fix_ptm] over the residue groups *)

(** [sorted(l, key=key)] for keys compared with [lt]: the sort is stable,
    an element goes before the first one whose key is not smaller. *)
Fixpoint insert_with {A K} (lt : K → K → bool) (key : A → K) (x : A)
    (l : list A) : list A :=
  match l with
  | [] => [x]
  | y :: l' => if lt (key y) (key x) then y :: insert_with lt key x l'
               else x :: y :: l'
  end.

Definition sorted_with {A K} (lt : K → K → bool) (key : A → K) (l : list A)
    : list A :=
  foldr (insert_with lt key) [] l.

(** [a < b] on lists of integers: the lexicographic order. *)
Fixpoint list_lt (a b : list Z) : bool :=
  match a, b with
  | _, [] => false
  | [], _ :: _ => true
  | x :: a', y :: b' => (x <? y)%Z || ((x =? y)%Z && list_lt a' b')
  end.

(** [key_func]: the sorted [resid]s of the anchors of an island. *)
Definition key_func (molecule : Graph) (ptm_atoms : Island) : result (list Z) :=
  resids ← mapM (λ idx, node ← getitem "node" (g_nodes molecule !! idx);
                        getitem "resid" (resid node))
                (elements ptm_atoms.2);
  Ok (sorted_with Z.ltb id resids).

(** The keys that [sorted(PTM_atoms, key=key_func)] computes, one per
    island, in the order of the list. *)
Definition with_keys (molecule : Graph) (PTM_atoms : list Island)
    : result (list (list Z * Island)) :=
  mapM (λ ptm_atoms, key ← key_func molecule ptm_atoms; Ok (key, ptm_atoms))
       PTM_atoms.

(** [itertools.groupby]: the runs of consecutive items with equal keys. *)
Fixpoint groupby {K A} `{EqDecision K} (l : list (K * A)) : list (K * list A) :=
  match l with
  | [] => []
  | (k, x) :: l' =>
      match groupby l' with
      | (k', xs) :: groups =>
          if decide (k = k') then (k, x :: xs) :: groups
          else (k, [x]) :: (k', xs) :: groups
      | [] => [(k, [x])]
      end
  end.

(** Lines 224 to 228: the nodes of every residue; the lists of the source
    are only ever poured into a set, so they are sets here. *)
Fixpoint group_by_resid (items : list (nat * NodeAttrs))
    (resid_to_idxs : gmap Z (gset nat)) : result (gmap Z (gset nat)) :=
  match items with
  | [] => Ok resid_to_idxs
  | (n_idx, node) :: items' =>
      residx ← getitem "resid" (resid node);
      group_by_resid items'
        (<[residx := default ∅ (resid_to_idxs !! residx) ∪ {[n_idx]}]> resid_to_idxs)
  end.

Definition resid_to_idxs (molecule : Graph) : result (gmap Z (gset nat)) :=
  group_by_resid (map_to_list (g_nodes molecule)) ∅.

(** Lines 249 to 251. *)
Fixpoint nodes_of_residues (resid_to_idxs : gmap Z (gset nat)) (resids : list Z)
    : result (gset nat) :=
  match resids with
  | [] => Ok ∅
  | resid :: resids' =>
      idxs ← getitem "resid_to_idxs" (resid_to_idxs !! resid);
      n_idxs ← nodes_of_residues resid_to_idxs resids';
      Ok (idxs ∪ n_idxs)
  end.

(** The body of the loop over the residue groups, lines 248 to 273; the
    output of line 260 reads the name of every identified pattern. *)
Definition fix_ptm_group (iso : PTMGraphMatcher → list Match) (fuel : nat)
    (resid_to_idxs : gmap Z (gset nat)) (st : MolState) (resids : list Z)
    (res_ptms : list Island) (known_PTMs : list Graph) : result MolState :=
  n_idxs ← nodes_of_residues resid_to_idxs resids;
  let residue := subgraph (mol st) n_idxs in
  let options := candidates iso (mol st) n_idxs res_ptms known_PTMs in
  identified ← identify_ptms iso fuel residue res_ptms options;
  _ ← mapM (λ out : Graph * Match, getitem "name" (g_name out.1)) identified;
  apply_identified st n_idxs identified.

Fixpoint fix_ptm_groups (iso : PTMGraphMatcher → list Match) (fuel : nat)
    (resid_to_idxs : gmap Z (gset nat)) (st : MolState)
    (groups : list (list Z * list Island)) (known_PTMs : list Graph)
    : result MolState :=
  match groups with
  | [] => Ok st
  | (resids, res_ptms) :: groups' =>
      st' ← fix_ptm_group iso fuel resid_to_idxs st resids res_ptms known_PTMs;
      fix_ptm_groups iso fuel resid_to_idxs st' groups' known_PTMs
  end.

(** [fix_ptm]; [fuel] bounds the depth of the recursion of
    [identify_ptms] in every group. *)
Definition fix_ptm (iso : PTMGraphMatcher → list Match)
    (next_iter : gset nat → nat) (fuel : nat) (st : MolState)
    : result MolState :=
  PTM_atoms ← find_PTM_atoms next_iter (mol st);
  keyed ← with_keys (mol st) PTM_atoms;
  let ptm_atoms := sorted_with list_lt fst keyed in
  resid_to_idxs ← resid_to_idxs (mol st);
  fix_ptm_groups iso fuel resid_to_idxs st (groupby ptm_atoms) KNOWN_PTMS.

(** [CanonizePTMs.run_molecule]: the molecule itself is returned, after
    [fix_ptm] has modified it. *)
Definition run_molecule (iso : PTMGraphMatcher → list Match)
    (next_iter : gset nat → nat) (fuel : nat) (molecule : MolState)
    : result MolState :=
  fix_ptm iso next_iter fuel molecule.

(** [molecule.nodes[n].get('modifications', [])], read through the store. *)
Definition current_modifications (st : MolState) (n : nat) : list Graph :=
  match modifications_ref st n with
  | Some l => default [] (store st !! l)
  | None => []
  end.

(** The [modifications] lists of the nodes of a group are live objects,
    and no two nodes of the group share one. *)
Definition own_lists (st : MolState) (n_idxs : gset nat) : Prop :=
  (∀ n l, n ∈ n_idxs → modifications_ref st n = Some l → l ∈ dom (store st)) ∧
  (∀ n1 n2 l, n1 ∈ n_idxs → n2 ∈ n_idxs →
     modifications_ref st n1 = Some l → modifications_ref st n2 = Some l →
     n1 = n2).

(** The item of a node after one [rename_atom]. *)
Definition renamed_as (before : Graph) (ptm : Graph) (mol_idx ptm_idx : nat)
    (after : Graph) : Prop :=
  ∃ mol_node ptm_node is_ptm,
    g_nodes before !! mol_idx = Some mol_node ∧
    g_nodes ptm !! ptm_idx = Some ptm_node ∧
    PTM_atom ptm_node = Some is_ptm ∧
    if to_rename ptm_node is_ptm then
      ∃ ptm_name, atomname ptm_node = Some ptm_name ∧
        g_nodes after !! mol_idx
        = Some (with_rename mol_node (snapshot before mol_idx)
                            (default ptm_name (rename ptm_node)))
    else g_nodes after !! mol_idx = Some mol_node.

(** Scenario A before the canonicalisation: no node has a list yet. *)
Definition state_nterm : MolState := MkState mol_nterm ∅.

(** The match of Scenario A: every atom of the residue is sent to the
    pattern node of the same index. *)
Definition match_nterm : Match :=
  <[0 := 0]> (<[1 := 1]> (<[2 := 2]> (<[3 := 3]> ∅))).

(** ** Subgraph matching

    The matcher ([vermouth/ismags.py]) is known through its tests only
    ([vermouth/tests/test_ismags.py]); its definitions below follow the
    specification where the tests leave a choice, and the tests where
    they decide: the tests require the result to be the one of
    [GraphMatcher.subgraph_isomorphisms_iter] of [networkx], which
    matches the pattern with a node-induced subgraph of the host.  A
    mapping is written from pattern nodes to host nodes, as the
    specification words it; the dictionaries of the tests are its
    inverse. *)

Definition node_list (g : Graph) : list nat := elements (dom (g_nodes g)).

Definition injective (m : gmap nat nat) : Prop :=
  map_Forall (λ p h, map_Forall (λ p' h', h = h' → p = p') m) m.

(** Every way of giving each node of [pnodes] an image among [hnodes],
    in the order of a depth-first search: the image of the first node
    varies slowest. *)
Fixpoint all_assignments (pnodes hnodes : list nat) : list (gmap nat nat) :=
  match pnodes with
  | [] => [∅]
  | p :: pnodes' =>
      h ← hnodes;
      (λ m, <[p := h]> m) <$> all_assignments pnodes' hnodes
  end.

(** An ordering constraint [(a, b)]: the image of [a] comes before the
    image of [b] in the order of the host nodes.  It says nothing as long
    as one of the two has no image. *)
Definition ordered (m : gmap nat nat) (c : nat * nat) : Prop :=
  match m !! c.1, m !! c.2 with
  | Some ha, Some hb => ha < hb
  | _, _ => True
  end.

#[global] Instance ordered_dec m c : Decision (ordered m c).
Proof. unfold ordered. destruct (m !! c.1), (m !! c.2); apply _. Defined.

Section Matching.
Variable node_compat : NodeAttrs → NodeAttrs → bool.
Variables host pattern : Graph.

Definition compatible (h p : nat) : bool :=
  match g_nodes host !! h, g_nodes pattern !! p with
  | Some a, Some b => node_compat a b
  | _, _ => false
  end.

Definition preserves_edges (m : gmap nat nat) : Prop :=
  map_Forall (λ u hu, map_Forall (λ v hv,
    has_edge pattern u v = true → has_edge host hu hv = true) m) m.

(** Two pattern nodes are adjacent exactly when their images are. *)
Definition isomorphic_edges (m : gmap nat nat) : Prop :=
  map_Forall (λ u hu, map_Forall (λ v hv,
    has_edge pattern u v = has_edge host hu hv) m) m.

Definition respects_compat (m : gmap nat nat) : Prop :=
  map_Forall (λ p h, compatible h p = true) m.

(** Modelled from the spec: the validity of a mapping in the words of the
    specification, for the missing [vermouth/ismags.py].  A mapping is
    valid iff it is injective on pattern nodes, every pattern edge maps
    to a host edge, and the compatibility predicate holds for every
    mapped pair. *)
Definition valid_mapping (m : gmap nat nat) : Prop :=
  injective m ∧ preserves_edges m ∧ respects_compat m.

#[global] Instance valid_mapping_dec m : Decision (valid_mapping m).
Proof. unfold valid_mapping, injective, preserves_edges, respects_compat. apply _. Defined.

(** What [GraphMatcher.subgraph_isomorphisms_iter] of [networkx] accepts,
    with [node_compat] as its [node_match]: the pattern is matched with
    the subgraph that the images induce in the host, so two images are
    adjacent exactly when their pattern nodes are. *)
Definition induced_mapping (m : gmap nat nat) : Prop :=
  injective m ∧ isomorphic_edges m ∧ respects_compat m.

#[global] Instance induced_mapping_dec m : Decision (induced_mapping m).
Proof.
  unfold induced_mapping, injective, isomorphic_edges, respects_compat. apply _.
Defined.

(** The independent search of the tests,
    [GraphMatcher(graph, subgraph, node_match).subgraph_isomorphisms_iter()],
    as a brute-force enumeration: every assignment of the pattern nodes
    is generated and the isomorphisms with an induced subgraph are
    kept. *)
Definition brute_force : list (gmap nat nat) :=
  filter induced_mapping (all_assignments (node_list pattern) (node_list host)).

(** Modelled from the spec: the host candidates of a pattern node in the
    search of the missing [vermouth/ismags.py], the host nodes compatible
    with it.  The refinement of the candidates by degree, which only
    spares the search assignments that fail later, is left out. *)
Definition host_candidates (p : nat) : list nat :=
  filter (λ h, compatible h p = true) (node_list host).

(** Modelled from the spec: the pattern nodes most-constrained first
    (fewest host candidates), the order of assignment in the search of the
    missing [vermouth/ismags.py]. *)
Definition search_order : list nat :=
  sorted_by (λ p, length (host_candidates p)) (node_list pattern).

(** Modelled from the spec: the test that cuts a branch of the search of
    the missing [vermouth/ismags.py], as soon as the partial mapping would
    stop being injective or stop being an isomorphism with the subgraph
    its images induce. *)
Definition consistent (partial : gmap nat nat) (p h : nat) : Prop :=
  (h ∉ map_img (SA:=gset nat) partial) ∧
  (has_edge pattern p p = has_edge host h h) ∧
  map_Forall (λ p' h',
    has_edge pattern p p' = has_edge host h h' ∧
    has_edge pattern p' p = has_edge host h' h) partial.

#[global] Instance consistent_dec partial p h : Decision (consistent partial p h).
Proof. unfold consistent. apply _. Defined.

(** Modelled from the spec: the backtracking search of the missing
    [vermouth/ismags.py]; every pattern node still to do is given each of
    its host candidates in turn, and a branch is left as soon as the
    partial mapping is inconsistent or breaks an ordering constraint. *)
Fixpoint extend (constraints : list (nat * nat)) (todo : list nat)
    (partial : gmap nat nat) : list (gmap nat nat) :=
  match todo with
  | [] => [partial]
  | p :: todo' =>
      h ← host_candidates p;
      (if decide (consistent partial p h ∧
                  Forall (ordered (<[p := h]> partial)) constraints)
       then extend constraints todo' (<[p := h]> partial)
       else [])
  end.
End Matching.

(** A bijection of the finite set [V], as a finite map. *)
Definition permutes (V : gset nat) (σ : gmap nat nat) : Prop :=
  dom σ = V ∧ (∀ p h, σ !! p = Some h → h ∈ V) ∧ injective σ.

Definition identity_map (V : gset nat) : gmap nat nat :=
  set_to_map (λ v, (v, v)) V.

Definition invert (m : gmap nat nat) : gmap nat nat :=
  list_to_map (prod_swap <$> map_to_list m).

(** A list of bijections of [V] that holds the identity and is closed
    under composition and inversion. *)
Definition subgroup (V : gset nat) (group : list (gmap nat nat)) : Prop :=
  (∀ σ, σ ∈ group → permutes V σ) ∧
  identity_map V ∈ group ∧
  (∀ σ τ, σ ∈ group → τ ∈ group → τ ∘ₘ σ ∈ group) ∧
  (∀ σ, σ ∈ group → invert σ ∈ group).

(** Modelled from the spec: the automorphism group of the pattern,
    enumerated, for the missing [vermouth/ismags.py]: the isomorphisms of
    the pattern with itself under the compatibility predicate, so that an
    automorphism sends a node to a node of the same kind only. *)
Definition automorphisms (node_compat : NodeAttrs → NodeAttrs → bool)
    (g : Graph) : list (gmap nat nat) :=
  brute_force node_compat g g.

(** The images of [n] under the maps of [group]. *)
Definition orbit (group : list (gmap nat nat)) (n : nat) : list nat :=
  remove_dups (omap (λ σ : gmap nat nat, σ !! n) group).

(** The maps of [group] that leave [n] in place. *)
Definition stabiliser (group : list (gmap nat nat)) (n : nat)
    : list (gmap nat nat) :=
  filter (λ σ : gmap nat nat, σ !! n = Some n) group.

(** Modelled from the spec: the ordering constraints that the symmetry
    analysis of the missing [vermouth/ismags.py] derives from the
    automorphisms of the pattern.  The nodes are taken one after the
    other; the image of a node has to come before the image of every
    other node of its orbit, and the analysis goes on with the
    automorphisms that leave the node in place. *)
Fixpoint ordering_constraints (order : list nat)
    (group : list (gmap nat nat)) : list (nat * nat) :=
  match order with
  | [] => []
  | n :: order' =>
      ((λ x, (n, x)) <$> filter (λ x, x ≠ n) (orbit group n))
      ++ ordering_constraints order' (stabiliser group n)
  end.

Definition symmetry_constraints (node_compat : NodeAttrs → NodeAttrs → bool)
    (pattern : Graph) : list (nat * nat) :=
  ordering_constraints (node_list pattern) (automorphisms node_compat pattern).

(** Modelled from the spec: the equivalence of mappings, for the missing
    [vermouth/ismags.py]; two mappings are equivalent when they differ by
    an automorphism of the pattern. *)
Definition equivalent (node_compat : NodeAttrs → NodeAttrs → bool)
    (pattern : Graph) (m1 m2 : gmap nat nat) : Prop :=
  Exists (λ σ, m1 = m2 ∘ₘ σ) (automorphisms node_compat pattern).

#[global] Instance equivalent_dec node_compat pattern m1 m2 :
  Decision (equivalent node_compat pattern m1 m2).
Proof. unfold equivalent. apply _. Defined.

(** Modelled from the spec: [find_subgraphs(host, pattern, node_compat,
    symmetry)] of the missing [vermouth/ismags.py].  With [symmetry=True]
    the search is pruned by the ordering constraints of the symmetry
    analysis, so that of the mappings that differ by an automorphism of
    the pattern only the one in canonical order is explored. *)
Definition find_subgraphs (node_compat : NodeAttrs → NodeAttrs → bool)
    (host pattern : Graph) (symmetry : bool) : list (gmap nat nat) :=
  extend node_compat host pattern
    (if symmetry then symmetry_constraints node_compat pattern else [])
    (search_order node_compat host pattern) ∅.

(** [nx.isomorphism.categorical_node_match('element', None)] *)
Definition element_match (a b : NodeAttrs) : bool :=
  bool_decide (element a = element b).

(** The square of the tests: 1-2, 2-4, 4-3, 3-1. *)
Definition square : Graph :=
  MkGraph None
    (<[1 := no_attrs]> (<[2 := no_attrs]> (<[3 := no_attrs]> (<[4 := no_attrs]> ∅))))
    [(1, 2); (2, 4); (4, 3); (3, 1)].

Definition single_node : Graph :=
  MkGraph None (<[0 := no_attrs]> ∅) [].

Definition triangle : Graph :=
  MkGraph None (<[0 := no_attrs]> (<[1 := no_attrs]> (<[2 := no_attrs]> ∅)))
    [(0, 1); (1, 2); (2, 0)].

(** The path 0-1-2. *)
Definition path3 : Graph :=
  MkGraph None (<[0 := no_attrs]> (<[1 := no_attrs]> (<[2 := no_attrs]> ∅)))
    [(0, 1); (1, 2)].

(** A predicate that accepts every node with itself and is not
    transitive: the residue numbers differ by one at most. *)
Definition close_resid (a b : NodeAttrs) : bool :=
  bool_decide (Z.abs (default 0%Z (resid a) - default 0%Z (resid b)) ≤ 1)%Z.

Definition numbered (res : Z) : NodeAttrs :=
  MkAttrs (Some res) None None None None None None.

Definition pattern_pair : Graph :=
  MkGraph None (<[0 := numbered 1]> (<[1 := numbered 2]> ∅)) [].

Definition host_triple : Graph :=
  MkGraph None
    (<[0 := numbered 3]> (<[1 := numbered 0]> (<[2 := numbered 3]> ∅))) [].

(** The path sent node by node into the triangle. *)
Definition path3_into_triangle : gmap nat nat :=
  <[0 := 0]> (<[1 := 1]> (<[2 := 2]> ∅)).

(** The two mappings of [pattern_pair] into [host_triple]. *)
Definition pair_kept : gmap nat nat := <[0 := 1]> (<[1 := 0]> ∅).

Definition pair_cut : gmap nat nat := <[0 := 1]> (<[1 := 2]> ∅).

(** ** A reference enumeration for the matcher of [networkx]

    [GraphMatcher.subgraph_isomorphisms_iter] yields the dictionaries
    [{G1 node: G2 node}] that are isomorphisms between a node-induced
    subgraph of [G1] and [G2] and that pass [semantic_feasibility].  It
    is a depth-first search (VF2): the next node of [G2] to match is the
    least unmatched node with a matched neighbour, or the least unmatched
    node when there is none, and the nodes of [G1] are tried in order.
    The order in which [networkx] goes through the nodes of [G1] depends
    on its version and on the order in which the nodes were added; this
    instance takes them in ascending order, which is the order for graphs
    whose nodes are small integers added in ascending order.  It is used
    to run the resolver on concrete residues; the theorems on the
    resolver hold for every enumeration. *)

#[global] Instance exn_eq_dec : EqDecision exn.
Proof. solve_decision. Defined.

#[global] Instance result_eq_dec `{EqDecision A} : EqDecision (result A).
Proof. solve_decision. Defined.

Definition nx_isomorphism (matcher : PTMGraphMatcher) (m : gmap nat nat) : Prop :=
  injective m ∧
  map_Forall (λ u hu, map_Forall (λ v hv,
    has_edge (G2 matcher) u v = has_edge (G1 matcher) hu hv) m) m ∧
  map_Forall (λ p h, semantic_feasibility matcher h p = Ok true) m.

#[global] Instance nx_isomorphism_dec matcher m : Decision (nx_isomorphism matcher m).
Proof. unfold nx_isomorphism, injective. apply _. Defined.

(** The nodes of a graph in ascending order. *)
Definition ascending_nodes (g : Graph) : list nat := sorted_by id (node_list g).

(** A node with a neighbour among the matched nodes. *)
Definition on_frontier (g : Graph) (core : gset nat) (v : nat) : Prop :=
  Exists (λ u, u ∈ core) (neighbors g v).

Definition next_node (g : Graph) (unmatched : list nat) (core : gset nat)
    : option nat :=
  match filter (on_frontier g core) unmatched with
  | v :: _ => Some v
  | [] => head unmatched
  end.

Fixpoint matching_order_loop (fuel : nat) (g : Graph) (unmatched : list nat)
    (core : gset nat) : list nat :=
  match fuel with
  | 0 => []
  | S fuel' =>
      match next_node g unmatched core with
      | None => []
      | Some v =>
          v :: matching_order_loop fuel' g (filter (λ u, u ≠ v) unmatched)
                 ({[v]} ∪ core)
      end
  end.

(** The order in which the search matches the nodes of [G2]. *)
Definition matching_order (g : Graph) : list nat :=
  matching_order_loop (length (ascending_nodes g)) g (ascending_nodes g) ∅.

Definition nx_subgraph_isomorphisms (matcher : PTMGraphMatcher) : list Match :=
  invert <$> filter (nx_isomorphism matcher)
    (all_assignments (matching_order (G2 matcher)) (ascending_nodes (G1 matcher))).

(** ** What a list of identified matches covers *)

Fixpoint pairwise_disjoint (sets : list (gset nat)) : Prop :=
  match sets with
  | [] => True
  | X :: sets' => Forall (λ Y, X ## Y) sets' ∧ pairwise_disjoint sets'
  end.

(** The atom image of a match: the molecule nodes it maps. *)
Definition image (pm : Graph * Match) : gset nat := dom pm.2.

(** The part of the image outside the non-PTM atoms of the residue. *)
Definition unresolved_part (residue : Graph) (pm : Graph * Match) : gset nat :=
  dom pm.2 ∖ plain_nodes residue.

(** A combination of matches accounts for the unresolved atoms [U]: it
    maps nothing but atoms of [U] and non-PTM atoms of the residue, and
    the unresolved parts of its images partition [U]. *)
Definition exact_cover (residue : Graph) (U : gset nat)
    (combination : list (Graph * Match)) : Prop :=
  Forall (λ pm, image pm ⊆ plain_nodes residue ∪ U) combination ∧
  ⋃ (unresolved_part residue <$> combination) = U ∧
  pairwise_disjoint (unresolved_part residue <$> combination).

Definition from_options (iso : PTMGraphMatcher → list Match)
    (options : list (Graph * PTMGraphMatcher))
    (combination : list (Graph * Match)) : Prop :=
  Forall (λ pm, ∃ matcher, (pm.1, matcher) ∈ options ∧ pm.2 ∈ iso matcher)
         combination.

(** Every match comes from a candidate at a position not before [lo], and
    the matches after it from positions not before its own. *)
Fixpoint chosen_from (iso : PTMGraphMatcher → list Match)
    (options : list (Graph * PTMGraphMatcher)) (lo : nat)
    (identified : list (Graph * Match)) : Prop :=
  match identified with
  | [] => True
  | (ptm, m) :: identified' =>
      ∃ idx matcher, lo ≤ idx ∧ options !! idx = Some (ptm, matcher) ∧
        m ∈ iso matcher ∧ chosen_from iso options idx identified'
  end.

(** The run of the resolver as a derivation. *)
Inductive resolved (iso : PTMGraphMatcher → list Match) (residue : Graph)
    : list (Graph * PTMGraphMatcher) → gset nat → list (Graph * Match) → Prop :=
  | resolved_nil options : resolved iso residue options ∅ []
  | resolved_cons options U idx ptm matcher m rest :
      options !! idx = Some (ptm, matcher) →
      m ∈ iso matcher →
      dom m ⊆ plain_nodes residue ∪ U →
      resolved iso residue (drop idx options) (U ∖ dom m) rest →
      resolved iso residue options U ((ptm, m) :: rest).

(** Every embedding of every candidate maps an atom that is not a non-PTM
    atom of the residue: then every accepted match consumes an unresolved
    atom. *)
Definition progress (iso : PTMGraphMatcher → list Match) (residue : Graph)
    (options : list (Graph * PTMGraphMatcher)) : Prop :=
  ∀ ptm matcher m, (ptm, matcher) ∈ options → m ∈ iso matcher →
    ∃ a, a ∈ dom m ∧ a ∉ plain_nodes residue.

(** ** Concrete residues *)

Definition could_not_identify : exn := KeyError "Could not identify PTM".

(** ** The greedy walk over the ordered candidates

    What the resolver is to do, stated without its code: the outcome of
    the walk that never goes back on an accepted embedding. *)

(** No embedding of the candidate lies within the available atoms. *)
Definition unavailable (iso : PTMGraphMatcher → list Match)
    (available : gset nat) (matcher : PTMGraphMatcher) : Prop :=
  ∀ m, m ∈ iso matcher → ¬ dom m ⊆ available.

(** The first embedding of the candidate, in the order of the matcher,
    that lies within the available atoms. *)
Definition first_available (iso : PTMGraphMatcher → list Match)
    (available : gset nat) (matcher : PTMGraphMatcher) (m : Match) : Prop :=
  ∃ i, iso matcher !! i = Some m ∧ dom m ⊆ available ∧
       ∀ j m', j < i → iso matcher !! j = Some m' → ¬ dom m' ⊆ available.

(** The matches so far, followed by the outcome of the rest of the walk. *)
Definition followed_by (pm : Graph * Match)
    (outcome : result (list (Graph * Match))) : result (list (Graph * Match)) :=
  rest ← outcome; Ok (pm :: rest).

Inductive greedy_walk (iso : PTMGraphMatcher → list Match) (residue : Graph)
    : list (Graph * PTMGraphMatcher) → gset nat →
      result (list (Graph * Match)) → Prop :=
  | walk_done options :
      greedy_walk iso residue options ∅ (Ok [])
  | walk_stuck options U :
      U ≠ ∅ →
      (∀ ptm matcher, (ptm, matcher) ∈ options →
         unavailable iso (plain_nodes residue ∪ U) matcher) →
      greedy_walk iso residue options U (Raise could_not_identify)
  | walk_accept options U idx ptm matcher m outcome :
      U ≠ ∅ →
      options !! idx = Some (ptm, matcher) →
      (∀ idx' ptm' matcher', idx' < idx →
         options !! idx' = Some (ptm', matcher') →
         unavailable iso (plain_nodes residue ∪ U) matcher') →
      first_available iso (plain_nodes residue ∪ U) matcher m →
      greedy_walk iso residue (drop idx options) (U ∖ dom m) outcome →
      greedy_walk iso residue options U (followed_by (ptm, m) outcome).

(** Scenario A as a residue group. *)
Definition group_nterm : gset nat := {[0; 1; 2; 3]}.
Definition residue_nterm : Graph := subgraph mol_nterm group_nterm.
Definition islands_nterm : list Island := [({[2]}, {[0]}); ({[3]}, {[0]})].
Definition options_nterm : list (Graph * PTMGraphMatcher) :=
  candidates nx_subgraph_isomorphisms mol_nterm group_nterm islands_nterm KNOWN_PTMS.

(** Two reference patterns on the same anchor [CB]: one unrecognised
    carbon, and a chain of two. *)
Definition methyl : Graph :=
  MkGraph (Some "methyl"%string)
    (<[0 := ptm_node "CB" "C" false None]>
     (<[1 := ptm_node "CM" "C" true None]> ∅))
    [(0, 1)].

Definition ethyl : Graph :=
  MkGraph (Some "ethyl"%string)
    (<[0 := ptm_node "CB" "C" false None]>
     (<[1 := ptm_node "CM1" "C" true None]>
      (<[2 := ptm_node "CM2" "C" true None]> ∅)))
    [(0, 1); (1, 2)].

(** A residue whose [CB] (2) carries a chain of two unrecognised carbons
    (1, then 0). *)
Definition mol_chain : Graph :=
  MkGraph None
    (<[0 := atom 1 "X2" "C" (Some true)]>
     (<[1 := atom 1 "X1" "C" (Some true)]>
      (<[2 := atom 1 "CB" "C" None]>
       (<[3 := atom 1 "CA" "C" None]> ∅))))
    [(3, 2); (2, 1); (1, 0)].

Definition group_chain : gset nat := {[0; 1; 2; 3]}.
Definition residue_chain : Graph := subgraph mol_chain group_chain.
Definition islands_chain : list Island := [({[0; 1]}, {[2]})].
Definition options_chain : list (Graph * PTMGraphMatcher) :=
  candidates nx_subgraph_isomorphisms mol_chain group_chain islands_chain
    [ethyl; methyl].

(** A residue whose [CB] (0) carries two separate unrecognised carbons. *)
Definition mol_dimethyl : Graph :=
  MkGraph None
    (<[0 := atom 1 "CB" "C" None]>
     (<[1 := atom 1 "X1" "C" (Some true)]>
      (<[2 := atom 1 "X2" "C" (Some true)]>
       (<[3 := atom 1 "CA" "C" None]> ∅))))
    [(3, 0); (0, 1); (0, 2)].

Definition residue_dimethyl : Graph := subgraph mol_dimethyl group_chain.
Definition islands_dimethyl : list Island := [({[1]}, {[0]}); ({[2]}, {[0]})].
Definition options_dimethyl : list (Graph * PTMGraphMatcher) :=
  candidates nx_subgraph_isomorphisms mol_dimethyl group_chain islands_dimethyl
    [ethyl; methyl].

(** A pattern without any flagged atom. *)
Definition anchor_only : Graph :=
  MkGraph (Some "anchor"%string) (<[0 := ptm_node "CB" "C" false None]> ∅) [].

Definition options_anchor : list (Graph * PTMGraphMatcher) :=
  [(anchor_only, MkMatcher residue_chain anchor_only)].

(** The images partition [U]: they are pairwise disjoint and their union
    is [U]. *)
Definition images_partition (U : gset nat) (identified : list (Graph * Match)) : Prop :=
  pairwise_disjoint (image <$> identified) ∧ ⋃ (image <$> identified) = U.

(** Some combination of embeddings of the candidates accounts for [U]. *)
Definition coverable (iso : PTMGraphMatcher → list Match) (residue : Graph)
    (options : list (Graph * PTMGraphMatcher)) (U : gset nat) : Prop :=
  ∃ combination, from_options iso options combination ∧
                 exact_cover residue U combination.

Definition identified_nterm : list (Graph * Match) := [(n_term, match_nterm)].

Definition identified_dimethyl : list (Graph * Match) :=
  [(methyl, <[0 := 0]> (<[1 := 1]> ∅)); (methyl, <[0 := 0]> (<[2 := 1]> ∅))].

Definition cover_chain : list (Graph * Match) :=
  [(ethyl, <[2 := 0]> (<[1 := 1]> (<[0 := 2]> ∅)))].

(** ** Predicates of the statements on [find_PTM_atoms] and [fix_ptm] *)

(** One step inside an island: to a neighbour that is an atom of it. *)
Definition island_step (g : Graph) (atoms : gset nat) (u v : nat) : Prop :=
  v ∈ atoms ∧ v ∈ neighbors g u.

(** What the traversal guarantees for one island. *)
Definition anchored (g : Graph) (island : Island) : Prop :=
  island.2 ## island.1 ∧
  (∀ a, a ∈ island.2 → ∃ p, p ∈ island.1 ∧ a ∈ neighbors g p) ∧
  ∃ seed, seed ∈ island.1 ∧
    ∀ x, x ∈ island.1 → rtc (island_step g island.1) seed x.

(** A pattern with at least one atom flagged [PTM_atom]. *)
Definition has_PTM_atom (ptm : Graph) : Prop :=
  ∃ p a, g_nodes ptm !! p = Some a ∧ PTM_atom a = Some true.

(** What [identify_ptms] relies on from the matcher of [networkx]: a
    match maps onto every node of the pattern, and every mapped pair
    passed [semantic_feasibility]. *)
Definition matcher_contract (iso : PTMGraphMatcher → list Match) : Prop :=
  ∀ matcher m, m ∈ iso matcher →
    (∀ p, p ∈ dom (g_nodes (G2 matcher)) → ∃ h, m !! h = Some p) ∧
    (∀ h p, m !! h = Some p → semantic_feasibility matcher h p = Ok true).

(** The two unrecognised carbons of [mol_dimethyl] as one pooled island. *)
Definition islands_pooled : list Island := [({[1; 2]}, ∅)].

(** The attributes of a node that [fix_ptm] never assigns. *)
Definition kept_attrs (a : NodeAttrs)
    : option Z * option string * option bool * option string :=
  (resid a, element a, PTM_atom a, rename a).

(** Two states of a molecule with the same name, edges and nodes, whose
    nodes agree on the attributes that [fix_ptm] never assigns. *)
Definition same_skeleton (g g' : Graph) : Prop :=
  g_name g' = g_name g ∧ g_edges g' = g_edges g ∧
  ∀ n, kept_attrs <$> g_nodes g' !! n = kept_attrs <$> g_nodes g !! n.

(** The keys that lines 263 to 270 read for one item of a match. *)
Definition can_rename (molecule ptm : Graph) (mol_idx ptm_idx : nat) : Prop :=
  ∃ mol_node ptm_node is_ptm,
    g_nodes molecule !! mol_idx = Some mol_node ∧
    g_nodes ptm !! ptm_idx = Some ptm_node ∧
    PTM_atom ptm_node = Some is_ptm ∧
    (is_ptm = true ∨ is_Some (rename ptm_node) →
     is_Some (atomname ptm_node) ∧ is_Some (atomname mol_node)).

(** Scenario C: the unrecognised group of [mol_branch], about to be
    canonicalised with the library of [KNOWN_PTMS]. *)
Definition state_branch : MolState := MkState mol_branch ∅.

(** All the atoms of [mol_branch] are in residue 1. *)
Definition resid_to_idxs_branch : gmap Z (gset nat) :=
  <[1%Z := {[0; 1; 2; 3]}]> ∅.

(** The recognised half of Scenario A: [N] and [HN] alone. *)
Definition state_plain : MolState :=
  MkState (subgraph mol_nterm {[0; 1]}) ∅.

(** Two nodes whose [modifications] attribute is one and the same list. *)
Definition state_shared : MolState :=
  MkState
    (MkGraph None
       (<[0 := with_modifications (atom 1 "N" "N" None) 0]>
        (<[1 := with_modifications (atom 1 "HN" "H" None) 0]> ∅))
       [(0, 1)])
    (<[0 := []]> ∅).

(** Scenario A on a molecule whose four atoms were given one and the
    same (empty) [modifications] list by the stage before. *)
Definition state_nterm_shared : MolState :=
  MkState
    (MkGraph None
       (<[0 := with_modifications (atom 1 "N" "N" None) 0]>
        (<[1 := with_modifications (atom 1 "HN" "H" None) 0]>
         (<[2 := with_modifications (atom 1 "HN2" "H" (Some true)) 0]>
          (<[3 := with_modifications (atom 1 "HN3" "H" (Some true)) 0]> ∅))))
       [(0, 1); (0, 2); (0, 3)])
    (<[0 := []]> ∅).

(** A closed decidable statement, settled by evaluating its decision. *)
Ltac by_compute :=
  match goal with
  | |- ?P => apply (bool_decide_unpack P); vm_compute; exact I
  end.

(** ** Theorems *)

(** C6: the standard compatibility predicate.  With the host flag read
    with default [False]: when the two flags differ the answer is false;
    when both are true it is the equality of the elements; when both are
    false it is the equality of the atom names. *)
Theorem semantic_feasibility_spec (self : PTMGraphMatcher) (n1 n2 : nat)
    (host pat : NodeAttrs) (f2 : bool) :
  g_nodes (G1 self) !! n1 = Some host →
  g_nodes (G2 self) !! n2 = Some pat →
  PTM_atom pat = Some f2 →
  (flagged host ≠ f2 → semantic_feasibility self n1 n2 = Ok false) ∧
  (flagged host = true → f2 = true → ∀ e1 e2,
     element host = Some e1 → element pat = Some e2 →
     semantic_feasibility self n1 n2 = Ok (bool_decide (e1 = e2))) ∧
  (flagged host = false → f2 = false → ∀ a1 a2,
     atomname host = Some a1 → atomname pat = Some a2 →
     semantic_feasibility self n1 n2 = Ok (bool_decide (a1 = a2))).
Proof.
  intros H1 H2 Hf. unfold semantic_feasibility.
  rewrite H1; simpl. rewrite H2; simpl. rewrite Hf; simpl. repeat split.
  - intros Hne. by rewrite bool_decide_eq_false_2.
  - intros -> -> e1 e2 -> ->. done.
  - intros -> -> a1 a2 -> ->. done.
Qed.

Lemma semantic_feasibility_spec_witness :
  semantic_feasibility (MkMatcher mol_nterm n_term) 0 2 = Ok false ∧
  semantic_feasibility (MkMatcher mol_nterm n_term) 3 2 = Ok true ∧
  semantic_feasibility (MkMatcher mol_nterm n_term) 1 0 = Ok false.
Proof.
  split; [|split].
  - refine (proj1 (semantic_feasibility_spec (MkMatcher mol_nterm n_term) 0 2
      (atom 1 "N" "N" None) (ptm_node "HN2" "H" true None) true _ _ _) _);
      [reflexivity..|discriminate].
  - refine (proj1 (proj2 (semantic_feasibility_spec (MkMatcher mol_nterm n_term) 3 2
      (atom 1 "HN3" "H" (Some true)) (ptm_node "HN2" "H" true None) true _ _ _))
      _ _ "H" "H" _ _); reflexivity.
  - refine (proj2 (proj2 (semantic_feasibility_spec (MkMatcher mol_nterm n_term) 1 0
      (atom 1 "HN" "H" None) (ptm_node "N" "N" false None) false _ _ _))
      _ _ "HN" "N" _ _); reflexivity.
Defined.

(** ** The traversal terminates *)

Lemma size_difference_step (V visited : gset nat) c :
  c ∉ visited → c ∈ V →
  size (V ∖ visited) = S (size (V ∖ ({[c]} ∪ visited))).
Proof.
  intros Hnin Hin.
  replace (V ∖ visited) with ({[c]} ∪ V ∖ ({[c]} ∪ visited)).
  - rewrite size_union by set_solver. by rewrite size_singleton.
  - apply set_eq. intros x. destruct (decide (x = c)); set_solver.
Qed.

Lemma scan_children_measure (V : gset nat) children visited new visited' :
  (∀ c, c ∈ children → c ∈ V) →
  scan_children children visited = (new, visited') →
  size (V ∖ visited') + length new = size (V ∖ visited).
Proof.
  revert visited new visited'.
  induction children as [|c cs IH]; intros visited new visited' HV Hscan; simpl in *.
  - injection Hscan as <- <-. simpl. lia.
  - destruct (decide (c ∈ visited)) as [Hin|Hnin].
    + apply IH; [|done]. intros x Hx. apply HV. by right.
    + destruct (scan_children cs ({[c]} ∪ visited)) as [new0 v0] eqn:E.
      injection Hscan as <- <-.
      specialize (IH _ _ _ (λ x Hx, HV x (list_elem_of_further _ _ _ Hx)) E).
      rewrite (size_difference_step V visited c) by (done || apply HV; by left).
      simpl. lia.
Qed.

Lemma neighbors_in_graph g n v : v ∈ neighbors g n → v ∈ dom (g_nodes g).
Proof. unfold neighbors. rewrite list_elem_of_filter. by intros [? _]. Qed.

Lemma bfs_loop_total g (V : gset nat) :
  dom (g_nodes g) ⊆ V →
  ∀ fuel visited queue,
    size (V ∖ visited) + length queue ≤ fuel →
    is_Some (bfs_loop fuel g visited queue).
Proof.
  intros HV fuel. induction fuel as [|fuel IH]; intros visited queue Hm.
  - destruct queue; simpl in *; [eauto|lia].
  - destruct queue as [|parent queue]; simpl; [eauto|].
    destruct (scan_children (neighbors g parent) visited) as [new v'] eqn:E.
    pose proof (scan_children_measure V _ _ _ _
      (λ c Hc, HV c (neighbors_in_graph _ _ _ Hc)) E) as Hsz.
    destruct (IH v' (queue ++ new)) as [rest Hrest].
    { rewrite length_app. simpl in Hm. lia. }
    rewrite Hrest. simpl. eauto.
Qed.

Lemma bfs_edges_total g source : is_Some (bfs_edges g source).
Proof.
  unfold bfs_edges.
  apply (bfs_loop_total g ({[source]} ∪ dom (g_nodes g))); [set_solver|].
  simpl. rewrite <- (size_dom (D := gset nat) (g_nodes g)).
  assert (size (({[source]} ∪ dom (g_nodes g)) ∖ {[source]}) ≤ size (dom (g_nodes g)))
    by (apply subseteq_size; set_solver).
  lia.
Qed.

Lemma group_successors_head parent children edges :
  ∃ children' rest, group_successors parent children edges = (parent, children') :: rest.
Proof.
  revert children. induction edges as [|[p c] es IH]; intros children; simpl.
  - eauto.
  - destruct (decide (p = parent)); eauto.
Qed.

Lemma traverse_no_fuel extra succs to_see atoms anchors :
  traverse extra succs to_see atoms anchors ≠ OutOfFuel.
Proof.
  revert to_see atoms anchors.
  induction succs as [|[orig succ] succs IH]; intros to_see atoms anchors; simpl; [done|].
  repeat case_decide; done || apply IH.
Qed.

Lemma traverse_atoms extra succs to_see atoms anchors atoms' anchors' :
  traverse extra succs to_see atoms anchors = Ok (atoms', anchors') →
  atoms ⊆ atoms' ∧ atoms' ⊆ atoms ∪ extra.
Proof.
  revert to_see atoms anchors.
  induction succs as [|[orig succ] succs IH]; intros to_see atoms anchors; simpl.
  - intros [= <- <-]. set_solver.
  - repeat case_decide; try done.
    + intros [= <- <-]. set_solver.
    + intros H'. apply IH in H'. set_solver.
    + intros [= <- <-]. set_solver.
    + intros H'. apply IH in H'. set_solver.
Qed.

Lemma island_from_no_fuel molecule extra first :
  island_from molecule extra first ≠ OutOfFuel.
Proof.
  unfold island_from, bfs_successors.
  destruct (bfs_edges_total molecule first) as [edges ->]. simpl.
  apply traverse_no_fuel.
Qed.

Lemma island_from_seed molecule extra first atoms anchors :
  first ∈ extra →
  island_from molecule extra first = Ok (atoms, anchors) →
  first ∈ atoms ∧ atoms ⊆ extra.
Proof.
  intros Hfirst. unfold island_from, bfs_successors.
  destruct (bfs_edges_total molecule first) as [edges ->]. simpl.
  destruct (group_successors_head first [] edges) as (cs & rest & ->). simpl.
  rewrite decide_True by set_solver. rewrite decide_True by done.
  case_decide.
  - intros [= <- <-]. set_solver.
  - intros H'. apply traverse_atoms in H'. set_solver.
Qed.

Section IslandProofs.
Variable next_iter : gset nat → nat.
Hypothesis next_iter_elem : ∀ s : gset nat, s ≠ ∅ → next_iter s ∈ s.

Lemma find_PTM_loop_fuel molecule fuel extra PTMs :
  size extra ≤ fuel →
  find_PTM_loop next_iter fuel molecule extra PTMs ≠ OutOfFuel.
Proof.
  revert extra PTMs. induction fuel as [|fuel IH]; intros extra PTMs Hsz; simpl.
  - case_decide as Hne; [done|]. exfalso. apply Hne.
    apply leibniz_equiv, size_empty_iff. lia.
  - case_decide as Hne; [done|].
    pose proof (next_iter_elem _ Hne) as Hfirst.
    destruct (island_from molecule extra (next_iter extra)) as [[atoms anchors]| |] eqn:E;
      simpl; [|done|by apply island_from_no_fuel in E].
    apply island_from_seed in E as [? ?]; [|done].
    apply IH.
    assert (size (extra ∖ atoms) < size extra); [|lia].
    apply subset_size. set_solver.
Qed.
End IslandProofs.

Lemma foldr_min_elem x l : foldr Nat.min x l ∈ x :: l.
Proof.
  induction l as [|y l IH]; simpl; [by left|].
  destruct (Nat.min_spec y (foldr Nat.min x l)) as [[_ ->]|[_ ->]].
  - right. by left.
  - set_solver.
Qed.

Lemma ascending_first_elem (s : gset nat) : s ≠ ∅ → ascending_first s ∈ s.
Proof.
  intros Hne. unfold ascending_first.
  destruct (elements s) as [|x l] eqn:E.
  - by apply elements_empty_inv, leibniz_equiv in E.
  - apply elem_of_elements. rewrite E. apply foldr_min_elem.
Qed.

(** C10: [find_PTM_atoms] terminates on every molecule whose flagged
    nodes all have a neighbour.  The fuel of the [while] loop, the number
    of flagged nodes, is never exhausted, because every turn of the loop
    that returns an island puts the chosen seed in it, so that the set of
    flagged nodes still to visit strictly shrinks. *)
Theorem find_PTM_atoms_terminates (next_iter : gset nat → nat) (molecule : Graph) :
  (∀ s : gset nat, s ≠ ∅ → next_iter s ∈ s) →
  (∀ n, n ∈ flagged_nodes molecule → neighbors molecule n ≠ []) →
  find_PTM_atoms next_iter molecule ≠ OutOfFuel ∧
  ∀ extra_atoms : gset nat,
    extra_atoms ≠ ∅ → extra_atoms ⊆ flagged_nodes molecule →
    island_from molecule extra_atoms (next_iter extra_atoms) ≠ OutOfFuel ∧
    ∀ atoms anchors,
      island_from molecule extra_atoms (next_iter extra_atoms) = Ok (atoms, anchors) →
      next_iter extra_atoms ∈ atoms ∧ extra_atoms ∖ atoms ⊂ extra_atoms.
Proof.
  intros Hpick _. split.
  - unfold find_PTM_atoms. by apply find_PTM_loop_fuel.
  - intros extra Hne _. split; [apply island_from_no_fuel|].
    intros atoms anchors E.
    pose proof (Hpick _ Hne) as Hfirst.
    apply island_from_seed in E as [? ?]; [|done].
    split; [done|]. set_solver.
Qed.

Lemma find_PTM_atoms_terminates_witness :
  find_PTM_atoms ascending_first mol_nterm ≠ OutOfFuel.
Proof.
  refine (proj1 (find_PTM_atoms_terminates ascending_first mol_nterm _ _)).
  - apply ascending_first_elem.
  - intros n Hn.
    assert (Hflagged : flagged_nodes mol_nterm = {[2; 3]}) by (vm_compute; reflexivity).
    rewrite Hflagged in Hn.
    apply elem_of_union in Hn as [Hn|Hn]; apply elem_of_singleton in Hn; subst n;
      vm_compute; discriminate.
Defined.

(** C3: on the branched group of [mol_branch] the islands that
    [find_PTM_atoms] returns have the flagged centre [1] as the anchor of
    the islands of the two leaves, and the three flagged atoms, which are
    connected, end up in three islands: an anchor need not be a
    non-flagged node. *)
Theorem find_PTM_atoms_flagged_anchor :
  find_PTM_atoms ascending_first mol_branch
    = Ok [({[1]}, ∅); ({[2]}, {[1]}); ({[3]}, {[1]})] ∧
  1 ∈ flagged_nodes mol_branch.
Proof.
  split; [vm_compute; reflexivity|].
  replace (flagged_nodes mol_branch) with ({[1; 2; 3]} : gset nat)
    by (vm_compute; reflexivity).
  set_solver.
Qed.

(** What does hold: the islands are made of flagged atoms only, are
    pairwise disjoint, and leave no flagged atom out. *)
Lemma island_from_atoms molecule extra first atoms anchors :
  island_from molecule extra first = Ok (atoms, anchors) → atoms ⊆ extra.
Proof.
  unfold island_from. destruct (bfs_successors molecule first); [|done].
  intros [_ H]%traverse_atoms. set_solver.
Qed.

Lemma find_PTM_loop_partition next_iter molecule fuel extra PTMs islands :
  find_PTM_loop next_iter fuel molecule extra PTMs = Ok islands →
  ∃ new, islands = PTMs ++ new ∧
         pairwise_disjoint new.*1 ∧ ⋃ new.*1 = extra.
Proof.
  revert extra PTMs. induction fuel as [|fuel IH]; intros extra PTMs; simpl.
  - case_decide as Hempty; [|done]. intros [= <-].
    exists []. rewrite app_nil_r. by subst.
  - case_decide as Hempty.
    { intros [= <-]. exists []. rewrite app_nil_r. by subst. }
    destruct (island_from molecule extra (next_iter extra))
      as [[atoms anchors]| |] eqn:E; simpl; try done.
    apply island_from_atoms in E.
    intros (new & -> & Hdisj & Hunion)%IH.
    exists ((atoms, anchors) :: new). rewrite <- app_assoc. split; [done|].
    rewrite fmap_cons, union_list_cons, Hunion. simpl. split.
    + split; [|done]. apply Forall_forall. intros Y HY.
      assert (Y ⊆ ⋃ new.*1).
      { intros x Hx. apply elem_of_union_list. by exists Y. }
      set_solver.
    + apply set_eq. intros x. destruct (decide (x ∈ atoms)); set_solver.
Qed.

Lemma find_PTM_atoms_partition next_iter molecule islands :
  find_PTM_atoms next_iter molecule = Ok islands →
  pairwise_disjoint islands.*1 ∧ ⋃ islands.*1 = flagged_nodes molecule.
Proof.
  unfold find_PTM_atoms. by intros (new & -> & ?)%find_PTM_loop_partition.
Qed.

(** The atoms of the islands are not non-PTM atoms of a residue of the
    molecule. *)
Lemma flagged_not_plain molecule (n_idxs : gset nat) :
  flagged_nodes molecule ## plain_nodes (subgraph molecule n_idxs).
Proof.
  unfold flagged_nodes, plain_nodes, subgraph. simpl.
  apply elem_of_disjoint. intros n [a Ha]%elem_of_dom [b Hb]%elem_of_dom.
  apply map_lookup_filter_Some in Ha as [Ha Hflag].
  apply map_lookup_filter_Some in Hb as [Hb Hplain].
  apply map_lookup_filter_Some in Hb as [Hb _].
  simpl in *. congruence.
Qed.

(** On a chain of three unrecognised atoms the traversal removes from
    [to_see] a node that was never put there. *)
Lemma find_PTM_atoms_raises :
  find_PTM_atoms ascending_first mol_long_chain = Raise (KeyError "to_see").
Proof. vm_compute. reflexivity. Qed.

Lemma find_PTM_loop_step next_iter fuel molecule extra PTMs :
  extra ≠ ∅ →
  find_PTM_loop next_iter (S fuel) molecule extra PTMs
  = (island_from molecule extra (next_iter extra) ≫= λ '(atoms, anchors),
     find_PTM_loop next_iter fuel molecule (extra ∖ atoms) (PTMs ++ [(atoms, anchors)])).
Proof. intros Hne. simpl. by rewrite decide_False. Qed.

Lemma bind_Ok {A B} (x : A) (f : A → result B) : (Ok x ≫= f) = f x.
Proof. done. Qed.

Lemma find_PTM_loop_extends next_iter fuel molecule extra PTMs islands island :
  find_PTM_loop next_iter fuel molecule extra PTMs = Ok islands →
  island ∈ PTMs → island ∈ islands.
Proof.
  intros (new & -> & _)%find_PTM_loop_partition Hin. apply elem_of_app. by left.
Qed.

(** Whatever the order in which the set of flagged atoms is iterated,
    [find_PTM_atoms] gives the flagged centre of [mol_branch] as an anchor. *)
Lemma find_PTM_atoms_flagged_anchor_any_order (next_iter : gset nat → nat) islands :
  (∀ s : gset nat, s ≠ ∅ → next_iter s ∈ s) →
  find_PTM_atoms next_iter mol_branch = Ok islands →
  ∃ atoms anchors, (atoms, anchors) ∈ islands ∧ 1 ∈ anchors ∧ 1 ∈ flagged_nodes mol_branch.
Proof.
  intros Hpick. unfold find_PTM_atoms.
  replace (flagged_nodes mol_branch) with ({[1; 2; 3]} : gset nat)
    by (vm_compute; reflexivity).
  replace (size ({[1; 2; 3]} : gset nat)) with 3 by (vm_compute; reflexivity).
  assert (H3 : next_iter {[1; 2; 3]} ∈ ({[1; 2; 3]} : gset nat)) by (apply Hpick; by_compute).
  assert (H23 : next_iter {[2; 3]} ∈ ({[2; 3]} : gset nat)) by (apply Hpick; by_compute).
  assert (H2 : next_iter {[2]} = 2)
    by (apply (elem_of_singleton_1 (C := gset nat)), Hpick; by_compute).
  assert (H3' : next_iter {[3]} = 3)
    by (apply (elem_of_singleton_1 (C := gset nat)), Hpick; by_compute).
  rewrite find_PTM_loop_step by by_compute.
  apply elem_of_union in H3 as [H3|H3]; [apply elem_of_union in H3 as [H3|H3]|];
    apply elem_of_singleton in H3; rewrite H3.
  - replace (island_from mol_branch {[1; 2; 3]} 1) with (Ok ({[1]}, ∅) : result Island)
      by (vm_compute; reflexivity).
      rewrite bind_Ok; cbv beta iota.
    replace ({[1; 2; 3]} ∖ {[1]}) with ({[2; 3]} : gset nat) by (vm_compute; reflexivity).
    rewrite find_PTM_loop_step by by_compute.
    apply elem_of_union in H23 as [H23|H23]; apply elem_of_singleton in H23; rewrite H23.
    + replace (island_from mol_branch {[2; 3]} 2) with (Ok ({[2]}, {[1]}) : result Island)
        by (vm_compute; reflexivity).
      rewrite bind_Ok; cbv beta iota.
      intros Hrun. exists {[2]}, {[1]}. split_and!; [|set_solver|set_solver].
      eapply find_PTM_loop_extends; [done|]. set_solver.
    + replace (island_from mol_branch {[2; 3]} 3) with (Ok ({[3]}, {[1]}) : result Island)
        by (vm_compute; reflexivity).
      rewrite bind_Ok; cbv beta iota.
      intros Hrun. exists {[3]}, {[1]}. split_and!; [|set_solver|set_solver].
      eapply find_PTM_loop_extends; [done|]. set_solver.
  - replace (island_from mol_branch {[1; 2; 3]} 2) with (Ok ({[1; 2]}, ∅) : result Island)
      by (vm_compute; reflexivity).
      rewrite bind_Ok; cbv beta iota.
    replace ({[1; 2; 3]} ∖ {[1; 2]}) with ({[3]} : gset nat) by (vm_compute; reflexivity).
    rewrite find_PTM_loop_step by by_compute. rewrite H3'.
    replace (island_from mol_branch {[3]} 3) with (Ok ({[3]}, {[1]}) : result Island)
      by (vm_compute; reflexivity).
      rewrite bind_Ok; cbv beta iota.
    intros Hrun. exists {[3]}, {[1]}. split_and!; [|set_solver|set_solver].
    eapply find_PTM_loop_extends; [done|]. set_solver.
  - replace (island_from mol_branch {[1; 2; 3]} 3) with (Ok ({[1; 3]}, ∅) : result Island)
      by (vm_compute; reflexivity).
      rewrite bind_Ok; cbv beta iota.
    replace ({[1; 2; 3]} ∖ {[1; 3]}) with ({[2]} : gset nat) by (vm_compute; reflexivity).
    rewrite find_PTM_loop_step by by_compute. rewrite H2.
    replace (island_from mol_branch {[2]} 2) with (Ok ({[2]}, {[1]}) : result Island)
      by (vm_compute; reflexivity).
      rewrite bind_Ok; cbv beta iota.
    intros Hrun. exists {[2]}, {[1]}. split_and!; [|set_solver|set_solver].
    eapply find_PTM_loop_extends; [done|]. set_solver.
Qed.

(** ** The resolver *)

Lemma remaining_cons (island : Island) rp :
  remaining (island :: rp) = island.1 ∪ remaining rp.
Proof. done. Qed.

Lemma nothing_left_true rp : nothing_left rp = true ↔ remaining rp = ∅.
Proof.
  induction rp as [|island rp IH]; simpl; [done|].
  rewrite remaining_cons, andb_true_iff, bool_decide_eq_true, IH.
  set_solver.
Qed.

Lemma remaining_remove_matching X rp :
  remaining (remove_matching X rp) = remaining rp ∖ X.
Proof.
  induction rp as [|island rp IH].
  - unfold remaining. simpl. set_solver.
  - change (remove_matching X (island :: rp))
      with ((island.1 ∖ X, island.2) :: remove_matching X rp).
    rewrite !remaining_cons, IH. simpl. set_solver.
Qed.

Lemma enumerate_from_lookup {A} (l : list A) k idx x :
  (idx, x) ∈ enumerate_from k l → k ≤ idx ∧ l !! (idx - k) = Some x.
Proof.
  revert k. induction l as [|y l IH]; intros k; simpl.
  - by intros ?%elem_of_nil.
  - intros [[= -> ->]|Hin]%elem_of_cons.
    + split; [lia|]. by rewrite Nat.sub_diag.
    + apply IH in Hin as [? Hl]. split; [lia|].
      replace (idx - k) with (S (idx - S k)) by lia. done.
Qed.

Section ResolverProofs.
Variable iso : PTMGraphMatcher → list Match.

Lemma try_options_Ok recurse residue rp options todo r :
  try_options iso recurse residue rp options todo = Ok r →
  ∃ idx ptm matcher m rest,
    (idx, (ptm, matcher)) ∈ todo ∧ m ∈ iso matcher ∧
    dom m ⊆ available_atoms residue rp ∧
    recurse (remove_matching (dom m) rp) (drop idx options) = Ok rest ∧
    r = (ptm, m) :: rest.
Proof.
  induction todo as [|[idx [ptm matcher]] todo IH]; simpl; [done|].
  destruct (list_find _ (iso matcher)) as [[i m]|] eqn:Hfind.
  - apply list_find_Some in Hfind as (Hi & Hsub & _).
    destruct (recurse _ _) as [rest| |] eqn:Hrec; simpl; try done.
    intros [= <-]. exists idx, ptm, matcher, m, rest.
    split_and!; try done; [by left|by eapply list_elem_of_lookup_2].
  - intros Hr. destruct (IH Hr) as (idx' & ptm' & matcher' & m & rest & Hin & ?).
    exists idx', ptm', matcher', m, rest. split; [by right|done].
Qed.

Lemma try_options_Raise recurse residue rp options todo e :
  (∀ rp' options' e', recurse rp' options' = Raise e' → e' = could_not_identify) →
  try_options iso recurse residue rp options todo = Raise e →
  e = could_not_identify.
Proof.
  intros Hrec. induction todo as [|[idx [ptm matcher]] todo IH]; simpl.
  - by intros [= <-].
  - destruct (list_find _ (iso matcher)) as [[i m]|]; [|done].
    destruct (recurse _ _) as [rest| |] eqn:E; simpl; try done.
    intros [= <-]. by eapply Hrec.
Qed.

Lemma try_options_no_fuel recurse residue rp options todo :
  (∀ idx ptm matcher m,
     (idx, (ptm, matcher)) ∈ todo → m ∈ iso matcher →
     dom m ⊆ available_atoms residue rp →
     recurse (remove_matching (dom m) rp) (drop idx options) ≠ OutOfFuel) →
  try_options iso recurse residue rp options todo ≠ OutOfFuel.
Proof.
  induction todo as [|[idx [ptm matcher]] todo IH]; simpl; intros Hrec; [done|].
  destruct (list_find _ (iso matcher)) as [[i m]|] eqn:Hfind.
  - apply list_find_Some in Hfind as (Hi & Hsub & _).
    destruct (recurse _ _) as [rest| |] eqn:E; simpl; try done.
    exfalso. eapply (Hrec idx ptm matcher m);
      [by left|by eapply list_elem_of_lookup_2|done..].
  - apply IH. intros idx' ptm' matcher' m Hin. apply (Hrec idx' ptm' matcher' m). by right.
Qed.

Lemma try_options_exhausted recurse residue rp options todo :
  (∀ idx ptm matcher m,
     (idx, (ptm, matcher)) ∈ todo → m ∈ iso matcher →
     ¬ dom m ⊆ available_atoms residue rp) →
  try_options iso recurse residue rp options todo = Raise could_not_identify.
Proof.
  induction todo as [|[idx [ptm matcher]] todo IH]; simpl; intros Hno; [done|].
  destruct (list_find _ (iso matcher)) as [[i m]|] eqn:Hfind.
  - apply list_find_Some in Hfind as (Hi & Hsub & _).
    exfalso. eapply (Hno idx ptm matcher m);
      [by left|by eapply list_elem_of_lookup_2|done].
  - apply IH. intros idx' ptm' matcher' m Hin. apply (Hno idx' ptm' matcher' m). by right.
Qed.

(** A successful run is a derivation of [resolved]. *)
Lemma identify_ptms_resolved fuel residue rp options r :
  identify_ptms iso fuel residue rp options = Ok r →
  resolved iso residue options (remaining rp) r.
Proof.
  revert rp options r. induction fuel as [|fuel IH]; intros rp options r; simpl.
  - destruct (nothing_left rp) eqn:E; [|done].
    apply nothing_left_true in E as ->. intros [= <-]. constructor.
  - destruct (nothing_left rp) eqn:E.
    { apply nothing_left_true in E as ->. intros [= <-]. constructor. }
    intros Hr. apply try_options_Ok in Hr
      as (idx & ptm & matcher & m & rest & Hin & Hm & Hsub & Hrec & ->).
    apply enumerate_from_lookup in Hin as [_ Hin]. rewrite Nat.sub_0_r in Hin.
    apply IH in Hrec. rewrite remaining_remove_matching in Hrec.
    by econstructor.
Qed.

Lemma identify_ptms_Raise fuel residue rp options e :
  identify_ptms iso fuel residue rp options = Raise e → e = could_not_identify.
Proof.
  revert rp options e. induction fuel as [|fuel IH]; intros rp options e; simpl.
  - by destruct (nothing_left rp).
  - destruct (nothing_left rp); [done|]. apply try_options_Raise. apply IH.
Qed.

Lemma identify_ptms_no_fuel fuel residue rp options :
  progress iso residue options →
  size (remaining rp) ≤ fuel →
  identify_ptms iso fuel residue rp options ≠ OutOfFuel.
Proof.
  revert rp options. induction fuel as [|fuel IH]; intros rp options Hprog Hsz; simpl.
  - destruct (nothing_left rp) eqn:E; [done|].
    assert (remaining rp = ∅) as ?%nothing_left_true; [|congruence].
    apply leibniz_equiv, size_empty_iff. lia.
  - destruct (nothing_left rp) eqn:E; [done|].
    apply try_options_no_fuel. intros idx ptm matcher m Hin Hm Hsub.
    apply enumerate_from_lookup in Hin as [_ Hin]. rewrite Nat.sub_0_r in Hin.
    apply IH.
    + intros ptm' matcher' m' Hin'. apply (Hprog ptm' matcher' m').
      by eapply subseteq_drop.
    + rewrite remaining_remove_matching.
      destruct (Hprog ptm matcher m) as (a & Ha & Hna);
        [by eapply list_elem_of_lookup_2|done|].
      assert (size (remaining rp ∖ dom m) < size (remaining rp)); [|lia].
      apply subset_size. unfold available_atoms in Hsub. set_solver.
Qed.

Lemma resolved_images residue options U r :
  resolved iso residue options U r →
  Forall (λ pm, image pm ⊆ plain_nodes residue ∪ U) r.
Proof.
  induction 1 as [|options U idx ptm matcher m rest Hidx Hm Hsub Hrest IH];
    constructor; [done|].
  eapply Forall_impl; [exact IH|]. simpl. set_solver.
Qed.

Lemma resolved_union residue options U r :
  resolved iso residue options U r →
  ⋃ (unresolved_part residue <$> r) = U ∖ plain_nodes residue.
Proof.
  induction 1 as [|options U idx ptm matcher m rest Hidx Hm Hsub Hrest IH].
  - set_solver.
  - rewrite fmap_cons, union_list_cons, IH. unfold unresolved_part. simpl.
    apply set_eq. intros x. destruct (decide (x ∈ dom m)); set_solver.
Qed.

Lemma resolved_disjoint residue options U r :
  resolved iso residue options U r →
  pairwise_disjoint (unresolved_part residue <$> r).
Proof.
  induction 1 as [|options U idx ptm matcher m rest Hidx Hm Hsub Hrest IH]; simpl;
    [done|].
  split; [|done].
  apply Forall_fmap. eapply Forall_impl; [by eapply resolved_images|].
  unfold image, unresolved_part. simpl. set_solver.
Qed.

Lemma resolved_from_options residue options U r :
  resolved iso residue options U r → from_options iso options r.
Proof.
  induction 1 as [|options U idx ptm matcher m rest Hidx Hm Hsub Hrest IH];
    constructor.
  - exists matcher. split; [by eapply list_elem_of_lookup_2|done].
  - eapply Forall_impl; [exact IH|]. simpl.
    intros pm (matcher' & ? & ?). exists matcher'. split; [|done].
    by eapply subseteq_drop.
Qed.

Lemma resolved_chosen_from residue options k U r :
  resolved iso residue (drop k options) U r → chosen_from iso options k r.
Proof.
  remember (drop k options) as options' eqn:Heq. intros Hres. revert k Heq.
  induction Hres as [|options' U idx ptm matcher m rest Hidx Hm Hsub Hrest IH];
    intros k ->; simpl; [done|].
  rewrite lookup_drop in Hidx.
  exists (k + idx), matcher. split_and!; [lia|done..|].
  apply IH. by rewrite drop_drop.
Qed.

Lemma resolved_exact_cover residue options U r :
  U ## plain_nodes residue →
  resolved iso residue options U r → exact_cover residue U r.
Proof.
  intros Hflag Hres. split_and!.
  - by eapply resolved_images.
  - erewrite resolved_union by done. set_solver.
  - by eapply resolved_disjoint.
Qed.
End ResolverProofs.

(** C1: whenever [identify_ptms] returns, on unresolved atoms that are
    none of the non-PTM atoms of the residue, the matches it returns
    account for the unresolved atoms of the group: an image holds nothing
    but unresolved atoms of the group and non-PTM atoms of the residue,
    and the unresolved parts of the images are pairwise disjoint and
    their union is exactly the unresolved-atom set of the group. *)
Theorem identify_ptms_exact_cover (iso : PTMGraphMatcher → list Match)
    (fuel : nat) (residue : Graph) (residue_ptms : list Island)
    (options : list (Graph * PTMGraphMatcher)) (identified : list (Graph * Match)) :
  remaining residue_ptms ## plain_nodes residue →
  identify_ptms iso fuel residue residue_ptms options = Ok identified →
  exact_cover residue (remaining residue_ptms) identified.
Proof.
  intros Hflag Hrun. eapply resolved_exact_cover; [done|].
  by eapply identify_ptms_resolved.
Qed.

Lemma run_dimethyl :
  identify_ptms nx_subgraph_isomorphisms 3 residue_dimethyl islands_dimethyl
    options_dimethyl = Ok identified_dimethyl.
Proof. vm_compute. reflexivity. Qed.

Lemma identify_ptms_exact_cover_witness :
  exact_cover residue_dimethyl (remaining islands_dimethyl) identified_dimethyl.
Proof.
  apply (identify_ptms_exact_cover nx_subgraph_isomorphisms 3 residue_dimethyl
           islands_dimethyl options_dimethyl identified_dimethyl).
  - by_compute.
  - vm_compute. reflexivity.
Defined.

(** The walk has one outcome. *)
Lemma first_available_unique iso available matcher m1 m2 :
  first_available iso available matcher m1 →
  first_available iso available matcher m2 → m1 = m2.
Proof.
  intros (i1 & Hi1 & Hsub1 & Hmin1) (i2 & Hi2 & Hsub2 & Hmin2).
  destruct (Nat.lt_trichotomy i1 i2) as [Hlt|[->|Hlt]].
  - by destruct (Hmin2 i1 m1 Hlt Hi1).
  - congruence.
  - by destruct (Hmin1 i2 m2 Hlt Hi2).
Qed.

Lemma greedy_walk_unique iso residue options U o1 o2 :
  greedy_walk iso residue options U o1 →
  greedy_walk iso residue options U o2 → o1 = o2.
Proof.
  intros Hw1. revert o2.
  induction Hw1 as [options|options U HU Hnone
                   |options U idx ptm matcher m outcome HU Hidx Hbefore Hfirst Hrest IH];
    intros o2 Hw2.
  - inversion Hw2; subst; done.
  - inversion Hw2 as [|?? _ _|?? idx2 ptm2 matcher2 m2 out2 _ Hidx2 _ Hfirst2 _]; subst;
      [done..|].
    destruct Hfirst2 as (i & Hi & Hsub & _).
    destruct (Hnone ptm2 matcher2 (list_elem_of_lookup_2 _ _ _ Hidx2) m2
                (list_elem_of_lookup_2 _ _ _ Hi) Hsub).
  - inversion Hw2
      as [|?? _ Hnone2|?? idx2 ptm2 matcher2 m2 out2 _ Hidx2 Hbefore2 Hfirst2 Hrest2];
      subst; [done| |].
    + destruct Hfirst as (i & Hi & Hsub & _).
      destruct (Hnone2 ptm matcher (list_elem_of_lookup_2 _ _ _ Hidx) m
                  (list_elem_of_lookup_2 _ _ _ Hi) Hsub).
    + assert (idx = idx2) as <-.
      { destruct (Nat.lt_trichotomy idx idx2) as [Hlt|[->|Hlt]]; [|done|].
        - destruct Hfirst as (i & Hi & Hsub & _).
          destruct (Hbefore2 idx ptm matcher Hlt Hidx m
                      (list_elem_of_lookup_2 _ _ _ Hi) Hsub).
        - destruct Hfirst2 as (i & Hi & Hsub & _).
          destruct (Hbefore idx2 ptm2 matcher2 Hlt Hidx2 m2
                      (list_elem_of_lookup_2 _ _ _ Hi) Hsub). }
      assert (ptm2 = ptm ∧ matcher2 = matcher) as [-> ->] by (split; congruence).
      assert (m2 = m) as -> by (by eapply first_available_unique).
      by rewrite (IH out2 Hrest2).
Qed.

(** The loop over the candidates performs one step of the walk. *)
Lemma try_options_walk iso recurse residue rp options k todo :
  remaining rp ≠ ∅ →
  drop k options = todo →
  (∀ idx' ptm' matcher', idx' < k → options !! idx' = Some (ptm', matcher') →
     unavailable iso (available_atoms residue rp) matcher') →
  (∀ idx ptm matcher m, options !! idx = Some (ptm, matcher) →
     m ∈ iso matcher → dom m ⊆ available_atoms residue rp →
     greedy_walk iso residue (drop idx options) (remaining rp ∖ dom m)
       (recurse (remove_matching (dom m) rp) (drop idx options))) →
  greedy_walk iso residue options (remaining rp)
    (try_options iso recurse residue rp options (enumerate_from k todo)).
Proof.
  intros Hleft. revert k.
  induction todo as [|[ptm matcher] todo IH]; intros k Hdrop Hbefore Hrec; simpl.
  - apply walk_stuck; [done|]. intros ptm matcher [idx Hidx]%list_elem_of_lookup.
    apply (Hbefore idx ptm matcher); [|done].
    destruct (decide (idx < k)) as [|Hge]; [done|].
    assert (drop k options !! (idx - k) = Some (ptm, matcher)) as Hd
      by (rewrite lookup_drop; by replace (k + (idx - k)) with idx by lia).
    by rewrite Hdrop in Hd.
  - assert (Hk : options !! k = Some (ptm, matcher)).
    { rewrite <- (Nat.add_0_r k), <- lookup_drop, Hdrop. done. }
    destruct (list_find _ (iso matcher)) as [[i m]|] eqn:Hfind.
    + apply list_find_Some in Hfind as (Hi & Hsub & Hmin).
      apply (walk_accept iso residue options (remaining rp) k ptm matcher m);
        [done|done|done| |].
      * exists i. split_and!; [done..|]. intros j m' Hj Hm'. by eapply Hmin.
      * apply (Hrec k ptm matcher m); [done|by eapply list_elem_of_lookup_2|done].
    + apply list_find_None in Hfind. apply (IH (S k)).
      * by rewrite (drop_S _ _ _ Hk) in Hdrop; injection Hdrop.
      * intros idx' ptm' matcher' Hlt Hidx'.
        destruct (decide (idx' = k)) as [->|Hne].
        -- rewrite Hk in Hidx'. injection Hidx' as <- <-.
           intros m Hm. rewrite Forall_forall in Hfind. by apply Hfind.
        -- apply (Hbefore idx' ptm' matcher'); [lia|done].
      * done.
Qed.

(** C2: when every embedding of a candidate maps at least one atom that
    is not a non-PTM atom of the residue and the recursion depth covers
    the unresolved atoms, the outcome of [identify_ptms] is the outcome
    of the greedy walk over the ordered candidates, and the walk has no
    other outcome: with no unresolved atom left it returns; otherwise it
    takes the first candidate of the list that has an embedding within
    the available atoms, accepts the first such embedding in the order
    of the matcher, and goes on with the atoms left and the candidates
    from that position on; it raises the [KeyError] exactly when it
    comes to unresolved atoms for which no candidate left has an
    embedding within the available atoms.  What it returns is a
    combination of embeddings of the candidates that accounts for the
    unresolved atoms, and it raises whenever no such combination
    exists. *)
Theorem identify_ptms_KeyError (iso : PTMGraphMatcher → list Match)
    (fuel : nat) (residue : Graph) (residue_ptms : list Island)
    (options : list (Graph * PTMGraphMatcher)) :
  remaining residue_ptms ## plain_nodes residue →
  progress iso residue options →
  size (remaining residue_ptms) ≤ fuel →
  let outcome := identify_ptms iso fuel residue residue_ptms options in
  greedy_walk iso residue options (remaining residue_ptms) outcome ∧
  (∀ o, greedy_walk iso residue options (remaining residue_ptms) o → o = outcome) ∧
  ((∃ identified, outcome = Ok identified ∧
      from_options iso options identified ∧
      exact_cover residue (remaining residue_ptms) identified) ∨
   outcome = Raise could_not_identify) ∧
  (remaining residue_ptms ≠ ∅ →
   (∀ ptm matcher m, (ptm, matcher) ∈ options → m ∈ iso matcher →
      ¬ dom m ⊆ available_atoms residue residue_ptms) →
   outcome = Raise could_not_identify) ∧
  (¬ coverable iso residue options (remaining residue_ptms) →
   outcome = Raise could_not_identify).
Proof.
  intros Hflag Hprog Hfuel outcome.
  assert (Hwalk : greedy_walk iso residue options (remaining residue_ptms) outcome).
  { subst outcome. clear Hflag. revert residue_ptms options Hprog Hfuel.
    induction fuel as [|fuel IH]; intros rp options Hprog Hfuel.
    - assert (remaining rp = ∅) as Hempty
        by (apply leibniz_equiv, size_empty_iff; lia).
      simpl. rewrite (proj2 (nothing_left_true rp) Hempty), Hempty. constructor.
    - simpl. destruct (nothing_left rp) eqn:E.
      { apply nothing_left_true in E as ->. constructor. }
      assert (remaining rp ≠ ∅) as Hleft.
      { intros Hempty%nothing_left_true. congruence. }
      apply (try_options_walk iso _ residue rp options 0); [done|done|lia|].
      intros idx ptm matcher m Hidx Hm Hsub.
      rewrite <- remaining_remove_matching. apply IH.
      * intros ptm' matcher' m' Hin'. apply (Hprog ptm' matcher' m').
        by eapply subseteq_drop.
      * rewrite remaining_remove_matching.
        destruct (Hprog ptm matcher m) as (a & Ha & Hna);
          [by eapply list_elem_of_lookup_2|done|].
        assert (size (remaining rp ∖ dom m) < size (remaining rp)); [|lia].
        apply subset_size. unfold available_atoms in Hsub. set_solver. }
  split_and!; [done|by intros o Ho; eapply greedy_walk_unique| | |].
  - destruct outcome as [identified|e|] eqn:E.
    + left. exists identified. apply identify_ptms_resolved in E.
      split_and!; [done|by eapply resolved_from_options|by eapply resolved_exact_cover].
    + right. by apply identify_ptms_Raise in E as ->.
    + by apply identify_ptms_no_fuel in E.
  - intros Hleft Hnone. symmetry.
    apply (greedy_walk_unique iso residue options (remaining residue_ptms));
      [|done].
    apply walk_stuck; [done|]. intros ptm matcher Hin m Hm. by eapply Hnone.
  - intros Hnone. destruct outcome as [identified|e|] eqn:E.
    + exfalso. apply Hnone. exists identified. apply identify_ptms_resolved in E.
      split; [by eapply resolved_from_options|by eapply resolved_exact_cover].
    + by apply identify_ptms_Raise in E as ->.
    + by apply identify_ptms_no_fuel in E.
Qed.

Lemma options_dimethyl_eq :
  options_dimethyl = [(methyl, MkMatcher residue_dimethyl methyl)].
Proof. vm_compute. reflexivity. Qed.

Lemma progress_dimethyl :
  progress nx_subgraph_isomorphisms residue_dimethyl options_dimethyl.
Proof.
  intros ptm matcher m. rewrite options_dimethyl_eq.
  intros [= -> ->]%list_elem_of_singleton.
  replace (nx_subgraph_isomorphisms (MkMatcher residue_dimethyl methyl))
    with [<[0 := 0]> (<[1 := 1]> (∅ : gmap nat nat));
          <[0 := 0]> (<[2 := 1]> (∅ : gmap nat nat))]
    by (vm_compute; reflexivity).
  intros [->|[->|[]%elem_of_nil]%elem_of_cons]%elem_of_cons.
  - exists 1. split; by_compute.
  - exists 2. split; by_compute.
Qed.

Lemma options_chain_eq :
  options_chain = [(methyl, MkMatcher residue_chain methyl);
                   (ethyl, MkMatcher residue_chain ethyl)].
Proof. vm_compute. reflexivity. Qed.

Lemma progress_chain : progress nx_subgraph_isomorphisms residue_chain options_chain.
Proof.
  intros ptm matcher m. rewrite options_chain_eq.
  intros [[= -> ->]|[[= -> ->]|[]%elem_of_nil]%elem_of_cons]%elem_of_cons.
  - replace (nx_subgraph_isomorphisms (MkMatcher residue_chain methyl))
      with [<[2 := 0]> (<[1 := 1]> (∅ : gmap nat nat))] by (vm_compute; reflexivity).
    intros ->%list_elem_of_singleton. exists 1. split; by_compute.
  - replace (nx_subgraph_isomorphisms (MkMatcher residue_chain ethyl))
      with [<[2 := 0]> (<[1 := 1]> (<[0 := 2]> (∅ : gmap nat nat)))]
      by (vm_compute; reflexivity).
    intros ->%list_elem_of_singleton. exists 1. split; by_compute.
Qed.

Lemma identify_ptms_KeyError_witness :
  identify_ptms nx_subgraph_isomorphisms 3 residue_dimethyl islands_dimethyl
    options_dimethyl = Ok identified_dimethyl ∧
  greedy_walk nx_subgraph_isomorphisms residue_dimethyl options_dimethyl
    (remaining islands_dimethyl) (Ok identified_dimethyl) ∧
  (∀ o, greedy_walk nx_subgraph_isomorphisms residue_dimethyl options_dimethyl
          (remaining islands_dimethyl) o → o = Ok identified_dimethyl).
Proof.
  split; [exact run_dimethyl|].
  pose proof (identify_ptms_KeyError nx_subgraph_isomorphisms 3
    residue_dimethyl islands_dimethyl options_dimethyl) as H.
  cbv zeta in H. rewrite run_dimethyl in H.
  destruct H as (Hwalk & Hunique & _); [by_compute|exact progress_dimethyl|by_compute|].
  split; [exact Hwalk|exact Hunique].
Defined.

(** The greedy choice is never revisited: on the chain the smaller
    pattern is accepted first and leaves an atom that nothing covers, so
    the [KeyError] is raised although the larger pattern alone accounts
    for both unresolved atoms. *)
Lemma identify_ptms_KeyError_counterexample :
  identify_ptms nx_subgraph_isomorphisms 3 residue_chain islands_chain
    options_chain = Raise could_not_identify ∧
  coverable nx_subgraph_isomorphisms residue_chain options_chain
    (remaining islands_chain).
Proof.
  split; [vm_compute; reflexivity|].
  exists cover_chain. split.
  - repeat constructor. exists (MkMatcher residue_chain ethyl). split.
    + rewrite options_chain_eq. simpl. set_solver.
    + simpl.
      replace (nx_subgraph_isomorphisms (MkMatcher residue_chain ethyl))
        with [<[2 := 0]> (<[1 := 1]> (<[0 := 2]> (∅ : gmap nat nat)))]
        by (vm_compute; reflexivity).
      by left.
  - split_and!.
    + repeat constructor. by_compute.
    + vm_compute. reflexivity.
    + simpl. split; [constructor|done].
Qed.

(** ** The candidate list *)

Section SortedBy.
Context {A : Type} (key : A → nat).

Lemma insert_by_perm x l : insert_by key x l ≡ₚ x :: l.
Proof.
  induction l as [|y l IH]; simpl; [done|].
  case_decide; [done|]. rewrite IH. apply Permutation_swap.
Qed.

Lemma sorted_by_perm l : sorted_by key l ≡ₚ l.
Proof.
  induction l as [|x l IH]; simpl; [done|].
  rewrite insert_by_perm. by f_equiv.
Qed.

Lemma insert_by_sorted x l :
  StronglySorted (λ a b, key a ≤ key b) l →
  StronglySorted (λ a b, key a ≤ key b) (insert_by key x l).
Proof.
  induction 1 as [|y l Hl IH Hy]; simpl.
  - repeat constructor.
  - case_decide as Hle.
    + constructor; [by constructor|].
      constructor; [done|]. eapply Forall_impl; [exact Hy|]. simpl. lia.
    + constructor; [done|]. rewrite insert_by_perm.
      constructor; [lia|done].
Qed.

Lemma sorted_by_sorted l :
  StronglySorted (λ a b, key a ≤ key b) (sorted_by key l).
Proof.
  induction l as [|x l IH]; simpl; [constructor|]. by apply insert_by_sorted.
Qed.
End SortedBy.

Lemma allowed_ptms_patterns iso residue res_ptms known_ptms :
  (allowed_ptms iso residue res_ptms known_ptms).*1
  = filter (λ ptm, subgraph_is_isomorphic iso (MkMatcher residue ptm) = true) known_ptms.
Proof.
  induction known_ptms as [|ptm known IH]; [done|].
  rewrite filter_cons. unfold allowed_ptms in *. simpl.
  destruct (subgraph_is_isomorphic iso (MkMatcher residue ptm)); simpl;
    [f_equal|]; apply IH.
Qed.

Lemma allowed_ptms_matchers iso residue res_ptms known_ptms :
  Forall (λ opt, opt.2 = MkMatcher residue opt.1)
         (allowed_ptms iso residue res_ptms known_ptms).
Proof.
  induction known_ptms as [|ptm known IH]; [constructor|].
  unfold allowed_ptms in *. simpl.
  destruct (subgraph_is_isomorphic iso (MkMatcher residue ptm)); simpl; [|done].
  by constructor.
Qed.

(** C9: the candidates of a residue group are exactly the library
    patterns for which [subgraph_is_isomorphic] holds on the residue
    subgraph, each with its matcher on that subgraph, in ascending order
    of pattern size; and in a successful run of [identify_ptms] every
    match comes from a candidate at the same or a later position than the
    match accepted before it. *)
Theorem candidates_sorted_and_monotone (iso : PTMGraphMatcher → list Match)
    (molecule : Graph) (n_idxs : gset nat) (res_ptms : list Island)
    (known_PTMs : list Graph) :
  let residue := subgraph molecule n_idxs in
  let options := candidates iso molecule n_idxs res_ptms known_PTMs in
  options.*1 ≡ₚ
    filter (λ ptm, subgraph_is_isomorphic iso (MkMatcher residue ptm) = true)
           known_PTMs ∧
  Forall (λ opt, opt.2 = MkMatcher residue opt.1) options ∧
  StronglySorted (λ a b, graph_len a.1 ≤ graph_len b.1) options ∧
  ∀ fuel residue_ptms identified,
    identify_ptms iso fuel residue residue_ptms options = Ok identified →
    chosen_from iso options 0 identified.
Proof.
  intros residue options. subst options. unfold candidates. fold residue.
  split_and!.
  - rewrite sorted_by_perm. by rewrite allowed_ptms_patterns.
  - rewrite sorted_by_perm. apply allowed_ptms_matchers.
  - apply (sorted_by_sorted (λ opt : Graph * PTMGraphMatcher, graph_len opt.1)).
  - intros fuel residue_ptms identified Hrun.
    apply identify_ptms_resolved in Hrun.
    by eapply (resolved_chosen_from iso residue _ 0).
Qed.

Lemma candidates_sorted_and_monotone_witness :
  chosen_from nx_subgraph_isomorphisms options_dimethyl 0 identified_dimethyl.
Proof.
  refine (proj2 (proj2 (proj2 (candidates_sorted_and_monotone
    nx_subgraph_isomorphisms mol_dimethyl group_chain islands_dimethyl
    [ethyl; methyl]))) 3 islands_dimethyl identified_dimethyl _).
  vm_compute. reflexivity.
Defined.

(** ** Renaming *)

Lemma subgraph_singleton_nodes molecule i a :
  g_nodes molecule !! i = Some a →
  g_nodes (subgraph molecule {[i]}) = {[i := a]}.
Proof.
  intros Hi. apply map_eq. intros k. apply option_eq. intros x. simpl.
  rewrite map_lookup_filter_Some, lookup_singleton_Some. simpl.
  rewrite elem_of_singleton. naive_solver.
Qed.

Lemma snapshot_nodes molecule i a :
  g_nodes molecule !! i = Some a → g_nodes (snapshot molecule i) = {[i := a]}.
Proof. apply subgraph_singleton_nodes. Qed.

Lemma snapshot_ext m1 m2 i :
  g_name m1 = g_name m2 → g_edges m1 = g_edges m2 →
  g_nodes m1 !! i = g_nodes m2 !! i →
  snapshot m1 i = snapshot m2 i.
Proof.
  intros Hname Hedges Hi. unfold snapshot, copy, subgraph. simpl.
  assert (Hnodes : filter (λ kv : nat * NodeAttrs, kv.1 ∈ ({[i]} : gset nat)) (g_nodes m1)
                 = filter (λ kv : nat * NodeAttrs, kv.1 ∈ ({[i]} : gset nat)) (g_nodes m2)).
  { apply map_eq. intros k. apply option_eq. intros x.
    rewrite !map_lookup_filter_Some. simpl. rewrite elem_of_singleton.
    split; intros [? ->]; (split; [congruence|done]). }
  by rewrite Hname, Hedges, Hnodes.
Qed.

Lemma rename_atom_Ok molecule ptm i j m1 :
  rename_atom molecule ptm i j = Ok m1 →
  ∃ mol_node ptm_node is_ptm,
    g_nodes molecule !! i = Some mol_node ∧
    g_nodes ptm !! j = Some ptm_node ∧
    PTM_atom ptm_node = Some is_ptm ∧
    if to_rename ptm_node is_ptm then
      ∃ ptm_name, atomname ptm_node = Some ptm_name ∧
        m1 = set_node molecule i
               (with_rename mol_node (snapshot molecule i)
                            (default ptm_name (rename ptm_node)))
    else m1 = molecule.
Proof.
  unfold rename_atom.
  destruct (g_nodes ptm !! j) as [ptm_node|]; simpl; [|done].
  destruct (g_nodes molecule !! i) as [mol_node|]; simpl; [|done].
  destruct (PTM_atom ptm_node) as [is_ptm|] eqn:Hflag; simpl; [|done].
  intros Hrun. exists mol_node, ptm_node, is_ptm. split_and!; try done.
  destruct (to_rename ptm_node is_ptm).
  - destruct (atomname ptm_node) as [ptm_name|]; simpl in *; [|done].
    destruct (atomname mol_node); simpl in *; [|done].
    injection Hrun as <-. by exists ptm_name.
  - by injection Hrun as <-.
Qed.

(** What [rename_atom] leaves alone. *)
Lemma rename_atom_frame molecule ptm i j m1 :
  rename_atom molecule ptm i j = Ok m1 →
  g_name m1 = g_name molecule ∧ g_edges m1 = g_edges molecule ∧
  (∀ n, n ≠ i → g_nodes m1 !! n = g_nodes molecule !! n) ∧
  (∀ n, modifications <$> g_nodes m1 !! n = modifications <$> g_nodes molecule !! n).
Proof.
  intros (mol_node & ptm_node & is_ptm & Hi & _ & _ & Hcase)%rename_atom_Ok.
  destruct (to_rename ptm_node is_ptm); [|by subst].
  destruct Hcase as (ptm_name & _ & ->). simpl. split_and!; try done.
  - intros n Hn. by rewrite lookup_insert_ne.
  - intros n. destruct (decide (n = i)) as [->|Hn].
    + by rewrite lookup_insert_eq, Hi.
    + by rewrite lookup_insert_ne.
Qed.

Lemma rename_atoms_items molecule ptm items molecule' :
  NoDup items.*1 →
  rename_atoms molecule ptm items = Ok molecule' →
  g_name molecule' = g_name molecule ∧ g_edges molecule' = g_edges molecule ∧
  (∀ n, n ∉ items.*1 → g_nodes molecule' !! n = g_nodes molecule !! n) ∧
  (∀ n, modifications <$> g_nodes molecule' !! n = modifications <$> g_nodes molecule !! n) ∧
  (∀ i j, (i, j) ∈ items → renamed_as molecule ptm i j molecule').
Proof.
  revert molecule. induction items as [|[i j] items IH]; intros molecule Hnd; simpl.
  - intros [= <-]. split_and!; try done. by intros i j ?%elem_of_nil.
  - apply NoDup_cons in Hnd as [Hi Hnd].
    destruct (rename_atom molecule ptm i j) as [m1| |] eqn:Hone; simpl; try done.
    intros Hrest. destruct (IH m1 Hnd Hrest) as (Hname & Hedges & Hout & Hmods & Hitems).
    pose proof (rename_atom_frame _ _ _ _ _ Hone) as (Hname1 & Hedges1 & Hout1 & Hmods1).
    split_and!.
    + congruence.
    + congruence.
    + intros n Hn. rewrite Hout by set_solver. apply Hout1. set_solver.
    + intros n. by rewrite Hmods, Hmods1.
    + intros i' j' [[= -> ->]|Hin]%elem_of_cons.
      * apply rename_atom_Ok in Hone
          as (mol_node & ptm_node & is_ptm & Hl & Hp & Hf & Hcase).
        exists mol_node, ptm_node, is_ptm. split_and!; try done.
        rewrite (Hout i) by done.
        destruct (to_rename ptm_node is_ptm); [|by subst].
        destruct Hcase as (ptm_name & Hname' & ->). exists ptm_name.
        split; [done|]. simpl. by rewrite lookup_insert_eq.
      * assert (i' ≠ i) as Hne.
        { intros ->. apply Hi. apply list_elem_of_fmap. by exists (i, j'). }
        destruct (Hitems _ _ Hin) as (mol_node & ptm_node & is_ptm & Hl & Hp & Hf & Hcase).
        exists mol_node, ptm_node, is_ptm.
        rewrite <- (Hout1 i') by done. split_and!; try done.
        rewrite <- (snapshot_ext m1 molecule i') by (done || by apply Hout1).
        done.
Qed.

(** ** The audit trail *)

Lemma set_node_lookup g n a k :
  g_nodes (set_node g n a) !! k = if decide (n = k) then Some a else g_nodes g !! k.
Proof. simpl. apply lookup_insert. Qed.

(** One [append_modification], seen through the references. *)
Lemma append_modification_step st ptm n st' :
  append_modification st ptm n = Ok st' →
  ∃ l,
    modifications_ref st' n = Some l ∧
    (∀ k, k ≠ n → modifications_ref st' k = modifications_ref st k) ∧
    (modifications_ref st n = Some l ∨
     (modifications_ref st n = None ∧ l ∉ dom (store st))) ∧
    store st' !! l = Some (current_modifications st n ++ [ptm]) ∧
    (∀ l', l' ≠ l → store st' !! l' = store st !! l') ∧
    g_name (mol st') = g_name (mol st) ∧ g_edges (mol st') = g_edges (mol st) ∧
    (∀ k, atomname <$> g_nodes (mol st') !! k = atomname <$> g_nodes (mol st) !! k) ∧
    (∀ k, graph <$> g_nodes (mol st') !! k = graph <$> g_nodes (mol st) !! k).
Proof.
  unfold append_modification, current_modifications, modifications_ref.
  destruct (g_nodes (mol st) !! n) as [node|] eqn:Hn; simpl; [|done].
  assert (Hframe : ∀ l (f : NodeAttrs → option string) k,
    (f (with_modifications node l) = f node) →
    f <$> g_nodes (set_node (mol st) n (with_modifications node l)) !! k
    = f <$> g_nodes (mol st) !! k).
  { intros l f k Hf. rewrite set_node_lookup. case_decide; [subst|done].
    by rewrite Hn; simpl; rewrite Hf. }
  assert (Hframe' : ∀ l k,
    graph <$> g_nodes (set_node (mol st) n (with_modifications node l)) !! k
    = graph <$> g_nodes (mol st) !! k).
  { intros l k. rewrite set_node_lookup. case_decide; [subst|done]. by rewrite Hn. }
  destruct (modifications node) as [l|] eqn:Hl; intros [= <-]; simpl.
  - exists l. rewrite lookup_insert_eq. simpl. split_and!; try done.
    + intros k Hk. by rewrite lookup_insert_ne.
    + by left.
    + by rewrite lookup_insert_eq.
    + intros l' Hl'. by rewrite lookup_insert_ne.
    + intros k. by apply Hframe.
    + intros k. apply Hframe'.
  - set (l := fresh (dom (store st))).
    exists l. rewrite lookup_insert_eq. simpl. split_and!; try done.
    + intros k Hk. by rewrite lookup_insert_ne.
    + right. split; [done|]. apply is_fresh.
    + by rewrite !lookup_insert_eq.
    + intros l' Hl'. by rewrite !lookup_insert_ne.
    + intros k. by apply Hframe.
    + intros k. apply Hframe'.
Qed.

Lemma append_modification_own st ptm n N st' :
  n ∈ N → own_lists st N →
  append_modification st ptm n = Ok st' →
  own_lists st' N ∧
  is_Some (modifications_ref st' n) ∧
  (∀ k, is_Some (modifications_ref st k) → is_Some (modifications_ref st' k)) ∧
  current_modifications st' n = current_modifications st n ++ [ptm] ∧
  (∀ k, k ∈ N → k ≠ n → current_modifications st' k = current_modifications st k).
Proof.
  intros HnN [Hlive Hown]
    (l & Hl & Hother & Hold & Hstore & Hstore' & _)%append_modification_step.
  assert (Hfresh : ∀ k, k ∈ N → k ≠ n → modifications_ref st k ≠ Some l).
  { intros k HkN Hk Hkl. destruct Hold as [Hnl|[_ Hnew]].
    - by apply Hk, (Hown k n l).
    - by apply Hnew, (Hlive k l). }
  split_and!.
  - split.
    + intros k lk HkN. destruct (decide (k = n)) as [->|Hk].
      * rewrite Hl. intros [= <-]. by apply elem_of_dom.
      * rewrite Hother by done. intros Hk'.
        apply elem_of_dom. rewrite Hstore'; [apply elem_of_dom; by eapply Hlive|].
        intros ->. by eapply Hfresh.
    + intros k1 k2 lk Hk1 Hk2.
      destruct (decide (k1 = n)) as [->|Hn1], (decide (k2 = n)) as [->|Hn2];
        try done.
      * rewrite Hl, Hother by done. intros [= <-] Hk2l.
        by destruct (Hfresh k2 Hk2 Hn2).
      * rewrite Hl, Hother by done. intros Hk1l [= <-].
        by destruct (Hfresh k1 Hk1 Hn1).
      * rewrite !Hother by done. by apply Hown.
  - by rewrite Hl.
  - intros k. destruct (decide (k = n)) as [->|Hk]; [by rewrite Hl|].
    by rewrite Hother.
  - unfold current_modifications at 1. by rewrite Hl, Hstore.
  - intros k HkN Hk. unfold current_modifications. rewrite Hother by done.
    destruct (modifications_ref st k) as [lk|] eqn:Hlk; [|done].
    rewrite Hstore'; [done|]. intros ->. by eapply Hfresh.
Qed.

Lemma append_modifications_own ptm N n_idxs st st' :
  NoDup n_idxs → (∀ n, n ∈ n_idxs → n ∈ N) → own_lists st N →
  append_modifications st ptm n_idxs = Ok st' →
  own_lists st' N ∧
  (∀ k, k ∈ n_idxs → is_Some (modifications_ref st' k)) ∧
  (∀ k, is_Some (modifications_ref st k) → is_Some (modifications_ref st' k)) ∧
  (∀ k, k ∈ N → current_modifications st' k
               = current_modifications st k ++ (if decide (k ∈ n_idxs) then [ptm] else [])) ∧
  (∀ k, atomname <$> g_nodes (mol st') !! k = atomname <$> g_nodes (mol st) !! k) ∧
  (∀ k, graph <$> g_nodes (mol st') !! k = graph <$> g_nodes (mol st) !! k).
Proof.
  revert st. induction n_idxs as [|n ns IH]; intros st Hnd Hin Hown; simpl.
  - intros [= <-]. split_and!; try done.
    + by intros k ?%elem_of_nil.
    + intros k _. by rewrite app_nil_r.
  - apply NoDup_cons in Hnd as [Hn Hnd].
    destruct (append_modification st ptm n) as [st1| |] eqn:Hone; simpl; try done.
    intros Hrest.
    pose proof (append_modification_step _ _ _ _ Hone)
      as (_ & _ & _ & _ & _ & _ & _ & _ & Hname1 & Hgraph1).
    apply (append_modification_own st ptm n N) in Hone
      as (Hown1 & Hsome1 & Hmono1 & Hcur1 & Hframe1); [|set_solver|done].
    destruct (IH st1 Hnd (λ k Hk, Hin k (list_elem_of_further _ _ _ Hk)) Hown1 Hrest)
      as (Hown' & Hsome' & Hmono' & Hcur' & Hname' & Hgraph').
    split_and!; try done.
    + intros k [->|Hk]%elem_of_cons; [by apply Hmono'|by apply Hsome'].
    + intros k Hk. by apply Hmono', Hmono1.
    + intros k HkN. rewrite Hcur' by done.
      destruct (decide (k = n)) as [->|Hk].
      * rewrite Hcur1, decide_False, decide_True by set_solver.
        by rewrite app_nil_r.
      * rewrite Hframe1 by done. do 2 case_decide; set_solver.
    + intros k. by rewrite Hname', Hname1.
    + intros k. by rewrite Hgraph', Hgraph1.
Qed.

Lemma append_modifications_frame ptm n_idxs st st' :
  append_modifications st ptm n_idxs = Ok st' →
  (∀ k, atomname <$> g_nodes (mol st') !! k = atomname <$> g_nodes (mol st) !! k) ∧
  (∀ k, graph <$> g_nodes (mol st') !! k = graph <$> g_nodes (mol st) !! k).
Proof.
  revert st. induction n_idxs as [|n ns IH]; intros st; simpl; [by intros [= <-]|].
  destruct (append_modification st ptm n) as [st1| |] eqn:Hone; simpl; try done.
  intros [Hname Hgraph]%IH.
  apply append_modification_step in Hone
    as (_ & _ & _ & _ & _ & _ & _ & _ & Hname1 & Hgraph1).
  split; intros k; [by rewrite Hname|by rewrite Hgraph].
Qed.

Lemma modifications_ref_ext g1 s1 g2 s2 n :
  modifications <$> g_nodes g1 !! n = modifications <$> g_nodes g2 !! n →
  modifications_ref (MkState g1 s1) n = modifications_ref (MkState g2 s2) n.
Proof.
  unfold modifications_ref. simpl.
  destruct (g_nodes g1 !! n), (g_nodes g2 !! n); simpl; congruence.
Qed.

Lemma apply_match_own st N ptm match_ st' :
  own_lists st N →
  apply_match st N ptm match_ = Ok st' →
  own_lists st' N ∧
  (∀ n, n ∈ N → current_modifications st' n = current_modifications st n ++ [ptm] ∧
                is_Some (modifications_ref st' n)).
Proof.
  intros Hown. unfold apply_match.
  destruct (rename_atoms (mol st) ptm (map_to_list match_)) as [molecule'| |] eqn:Hren;
    simpl; try done.
  intros Happ.
  apply rename_atoms_items in Hren as (_ & _ & _ & Hmods & _);
    [|apply NoDup_fst_map_to_list].
  assert (Href : ∀ n, modifications_ref (MkState molecule' (store st)) n
                      = modifications_ref st n).
  { intros n. destruct st as [g s]. by apply modifications_ref_ext. }
  assert (Hown1 : own_lists (MkState molecule' (store st)) N).
  { destruct Hown as [Hlive Halias]. split.
    - intros n l. rewrite Href. apply Hlive.
    - intros n1 n2 l. rewrite !Href. apply Halias. }
  apply (append_modifications_own ptm N) in Happ
    as (Hown' & Hsome & _ & Hcur & _); [|apply NoDup_elements|set_solver|done].
  split; [done|]. intros n Hn. split; [|apply Hsome; set_solver].
  rewrite Hcur, decide_True by set_solver.
  unfold current_modifications. by rewrite Href.
Qed.

Lemma to_rename_true ptm_node is_ptm :
  to_rename ptm_node is_ptm = true ↔ is_ptm = true ∨ is_Some (rename ptm_node).
Proof.
  unfold to_rename. rewrite orb_true_iff, bool_decide_eq_true. done.
Qed.

Lemma to_rename_false ptm_node is_ptm :
  to_rename ptm_node is_ptm = false ↔ is_ptm = false ∧ rename ptm_node = None.
Proof.
  unfold to_rename. rewrite orb_false_iff, bool_decide_eq_false.
  rewrite <- eq_None_not_Some. done.
Qed.

(** C7: after an accepted match is applied, every mapped molecule node
    whose pattern node is flagged [PTM_atom] or carries a [rename] has as
    [atomname] the [rename] of the pattern node if there is one and the
    [atomname] of the pattern node otherwise, and as [graph] the copy of
    its single-node subgraph taken before the rename, which holds its
    former attributes; a mapped node whose pattern node is neither
    flagged nor carries a [rename], and every node the match does not
    map, keeps its [atomname]. *)
Theorem apply_match_renames (st : MolState) (n_idxs : gset nat) (ptm : Graph)
    (match_ : Match) (st' : MolState) :
  apply_match st n_idxs ptm match_ = Ok st' →
  (∀ mol_idx ptm_idx, match_ !! mol_idx = Some ptm_idx →
     ∃ mol_node mol_node' ptm_node is_ptm,
       g_nodes (mol st) !! mol_idx = Some mol_node ∧
       g_nodes (mol st') !! mol_idx = Some mol_node' ∧
       g_nodes ptm !! ptm_idx = Some ptm_node ∧
       PTM_atom ptm_node = Some is_ptm ∧
       (is_ptm = true ∨ is_Some (rename ptm_node) →
        ∃ ptm_name, atomname ptm_node = Some ptm_name ∧
          atomname mol_node'
          = Some (match rename ptm_node with
                  | Some new_name => new_name
                  | None => ptm_name
                  end) ∧
          graph mol_node' = Some (snapshot (mol st) mol_idx) ∧
          g_nodes (snapshot (mol st) mol_idx) = {[mol_idx := mol_node]}) ∧
       (is_ptm = false → rename ptm_node = None →
        atomname mol_node' = atomname mol_node ∧
        graph mol_node' = graph mol_node)) ∧
  (∀ n, match_ !! n = None →
     atomname <$> g_nodes (mol st') !! n = atomname <$> g_nodes (mol st) !! n).
Proof.
  unfold apply_match.
  destruct (rename_atoms (mol st) ptm (map_to_list match_)) as [molecule'| |] eqn:Hren;
    simpl; try done.
  intros Happ.
  apply rename_atoms_items in Hren as (_ & _ & Hout & _ & Hitems);
    [|apply NoDup_fst_map_to_list].
  apply append_modifications_frame in Happ as [Hname Hgraph]. simpl in Hname, Hgraph.
  split.
  - intros mol_idx ptm_idx Hm. apply elem_of_map_to_list in Hm.
    destruct (Hitems _ _ Hm) as (mol_node & ptm_node & is_ptm & Hl & Hp & Hf & Hcase).
    assert (∃ mid, g_nodes molecule' !! mol_idx = Some mid) as [mid Hmid].
    { destruct (to_rename ptm_node is_ptm); [destruct Hcase as (? & _ & ?)|]; eauto. }
    pose proof (Hname mol_idx) as Hn. pose proof (Hgraph mol_idx) as Hg.
    rewrite Hmid in Hn, Hg. simpl in Hn, Hg.
    apply fmap_Some in Hn as (mol_node' & Hnode' & Hn).
    rewrite Hnode' in Hg. injection Hg as Hg.
    exists mol_node, mol_node', ptm_node, is_ptm. split_and!; try done.
    + intros Hcond%to_rename_true. rewrite Hcond in Hcase.
      destruct Hcase as (ptm_name & Hpn & Hafter). exists ptm_name.
      rewrite Hmid in Hafter. injection Hafter as ->.
      split_and!; [done| |done|by apply snapshot_nodes].
      rewrite <- Hn. simpl. by destruct (rename ptm_node).
    + intros Hflag Hnone.
      assert (to_rename ptm_node is_ptm = false) as Hcond
        by (by apply to_rename_false).
      rewrite Hcond in Hcase. rewrite Hmid in Hcase. injection Hcase as ->. done.
  - intros n Hnone. rewrite Hname. f_equal. apply Hout.
    intros ((i & j) & -> & Hin%elem_of_map_to_list)%list_elem_of_fmap.
    change (match_ !! i = None) in Hnone. by rewrite Hin in Hnone.
Qed.

(** C8: after the identified matches of a residue group are applied,
    every node of the group has the applied patterns, in the order of
    their application and once per match, at the end of its
    [modifications] list, the list being created when the node had none;
    the nodes of the group are taken to share no list object. *)
Theorem apply_identified_modifications (st : MolState) (n_idxs : gset nat)
    (identified : list (Graph * Match)) (st' : MolState) :
  own_lists st n_idxs →
  apply_identified st n_idxs identified = Ok st' →
  ∀ n, n ∈ n_idxs →
    current_modifications st' n = current_modifications st n ++ identified.*1 ∧
    (identified ≠ [] → is_Some (modifications_ref st' n)).
Proof.
  revert st. induction identified as [|[ptm match_] identified IH]; intros st Hown; simpl.
  - intros [= <-] n Hn. by rewrite app_nil_r.
  - destruct (apply_match st n_idxs ptm match_) as [st1| |] eqn:Hone; simpl; try done.
    intros Hrest n Hn.
    apply apply_match_own in Hone as (Hown1 & Hstep); [|done].
    destruct (Hstep n Hn) as [Hcur1 Hsome1].
    destruct (IH st1 Hown1 Hrest n Hn) as [Hcur Hsome].
    split.
    + rewrite Hcur, Hcur1. by rewrite <- app_assoc.
    + intros _. destruct identified as [|pm identified'].
      * simpl in Hrest. by injection Hrest as <-.
      * by apply Hsome.
Qed.

Lemma apply_match_renames_witness :
  ∃ st', apply_match state_nterm group_nterm n_term match_nterm = Ok st' ∧
    (∃ a, g_nodes (mol st') !! 0 = Some a ∧
          atomname a = Some "N"%string ∧ graph a = None) ∧
    (∃ a, g_nodes (mol st') !! 1 = Some a ∧
          atomname a = Some "HN1"%string ∧
          graph a = Some (snapshot mol_nterm 1)) ∧
    (∃ a, g_nodes (mol st') !! 2 = Some a ∧
          atomname a = Some "HN2"%string ∧
          graph a = Some (snapshot mol_nterm 2)).
Proof.
  destruct (apply_match state_nterm group_nterm n_term match_nterm)
    as [st'| |] eqn:Hrun; [|vm_compute in Hrun; discriminate Hrun..].
  exists st'. split; [reflexivity|].
  pose proof (proj1 (apply_match_renames state_nterm group_nterm n_term
                       match_nterm st' Hrun)) as Hmapped.
  split_and!.
  - destruct (Hmapped 0 0 eq_refl)
      as (mol_node & a & ptm_node & is_ptm & Hbefore & Hafter & Hptm & Hflag & _ & Hkeep).
    injection Hbefore as <-. injection Hptm as <-. injection Hflag as <-.
    exists a. destruct (Hkeep eq_refl eq_refl) as [-> ->]. done.
  - destruct (Hmapped 1 1 eq_refl)
      as (mol_node & a & ptm_node & is_ptm & _ & Hafter & Hptm & Hflag & Hren & _).
    injection Hptm as <-. injection Hflag as <-.
    exists a. destruct Hren as (ptm_name & _ & Hname & Hgraph & _); [right; eauto|].
    done.
  - destruct (Hmapped 2 2 eq_refl)
      as (mol_node & a & ptm_node & is_ptm & _ & Hafter & Hptm & Hflag & Hren & _).
    injection Hptm as <-. injection Hflag as <-.
    exists a. destruct Hren as (ptm_name & Hpn & Hname & Hgraph & _); [by left|].
    injection Hpn as <-. done.
Defined.

Lemma own_lists_nterm : own_lists state_nterm group_nterm.
Proof.
  assert (Hnone : ∀ n, n ∈ group_nterm → modifications_ref state_nterm n = None).
  { intros n Hn. unfold group_nterm in Hn.
    repeat (apply elem_of_union in Hn as [Hn|Hn]);
      apply elem_of_singleton in Hn; by subst n. }
  split.
  - intros n l Hn. by rewrite Hnone.
  - intros n1 n2 l Hn1 _. by rewrite Hnone.
Qed.

Lemma apply_identified_modifications_witness :
  ∃ st', apply_identified state_nterm group_nterm identified_nterm = Ok st' ∧
    current_modifications st' 0 = current_modifications state_nterm 0 ++ [n_term].
Proof.
  eexists. split; [vm_compute; reflexivity|].
  refine (proj1 (apply_identified_modifications state_nterm group_nterm
    identified_nterm _ own_lists_nterm _ 0 _)).
  - vm_compute. reflexivity.
  - by_compute.
Defined.

(** Without that proviso the property fails: when the four atoms of
    Scenario A share one list object, the pattern is appended to it once
    for every atom, and each atom shows it four times. *)
Lemma apply_identified_modifications_counterexample :
  ∃ st', fix_ptm nx_subgraph_isomorphisms ascending_first 3 state_nterm_shared
         = Ok st' ∧
    current_modifications st' 0 = [n_term; n_term; n_term; n_term] ∧
    current_modifications st' 0
    ≠ current_modifications state_nterm_shared 0 ++ [n_term].
Proof.
  eexists. split; [vm_compute; reflexivity|]. split; [vm_compute; reflexivity|].
  intros Heq. apply (f_equal length) in Heq. vm_compute in Heq. discriminate.
Qed.

(** ** The search agrees with the brute-force enumeration *)

Lemma injective_lookup (m : gmap nat nat) :
  injective m ↔ ∀ p p' h, m !! p = Some h → m !! p' = Some h → p = p'.
Proof.
  unfold injective. split.
  - intros H p p' h Hp Hp'.
    by apply (map_Forall_lookup_1 _ _ _ _ (map_Forall_lookup_1 _ _ _ _ H Hp) Hp').
  - intros H. apply map_Forall_lookup_2. intros p h Hp.
    apply map_Forall_lookup_2. intros p' h' Hp' <-. by eapply H.
Qed.

Lemma elem_of_all_assignments pnodes hnodes (m : gmap nat nat) :
  NoDup pnodes →
  m ∈ all_assignments pnodes hnodes ↔
  dom m = list_to_set pnodes ∧ ∀ p h, m !! p = Some h → h ∈ hnodes.
Proof.
  revert m. induction pnodes as [|p ps IH]; intros m Hnd; simpl.
  - rewrite list_elem_of_singleton. split.
    + intros ->. by rewrite dom_empty_L.
    + intros [Hdom _]. by apply dom_empty_inv_L.
  - apply NoDup_cons in Hnd as [Hp Hnd].
    rewrite list_elem_of_bind. split.
    + intros (h & (m0 & -> & Hm0)%list_elem_of_fmap & Hh).
      apply (IH m0 Hnd) in Hm0 as [Hdom Hval].
      split; [by rewrite dom_insert_L, Hdom|].
      intros q x [[<- <-]|[_ Hq]]%lookup_insert_Some; [done|by eapply Hval].
    + intros [Hdom Hval].
      assert (is_Some (m !! p)) as [h Hh] by (apply elem_of_dom; set_solver).
      exists h. split; [|by eapply Hval].
      apply list_elem_of_fmap. exists (delete p m). split.
      * by rewrite insert_delete_id.
      * apply IH; [done|]. split.
        -- rewrite dom_delete_L, Hdom. set_solver.
        -- intros q x [_ Hq]%lookup_delete_Some. by eapply Hval.
Qed.

Lemma NoDup_node_list g : NoDup (node_list g).
Proof. unfold node_list. apply NoDup_elements. Qed.

Lemma elem_of_node_list g n : n ∈ node_list g ↔ n ∈ dom (g_nodes g).
Proof. unfold node_list. apply elem_of_elements. Qed.

Lemma list_to_set_node_list g :
  list_to_set (node_list g) = (dom (g_nodes g) : gset nat).
Proof. unfold node_list. apply list_to_set_elements_L. Qed.

Lemma ordered_lookup (m : gmap nat nat) c :
  ordered m c ↔ ∀ ha hb, m !! c.1 = Some ha → m !! c.2 = Some hb → ha < hb.
Proof.
  unfold ordered. destruct (m !! c.1) as [ha|], (m !! c.2) as [hb|];
    naive_solver.
Qed.

Lemma ordered_weaken (m m' : gmap nat nat) c :
  m ⊆ m' → ordered m' c → ordered m c.
Proof.
  rewrite !ordered_lookup. intros Hsub Hm' ha hb Ha Hb.
  apply Hm'; by eapply lookup_weaken.
Qed.

Lemma compatible_Some node_compat host pattern h p :
  compatible node_compat host pattern h p = true ↔
  ∃ a b, g_nodes host !! h = Some a ∧ g_nodes pattern !! p = Some b ∧
         node_compat a b = true.
Proof.
  unfold compatible.
  destruct (g_nodes host !! h) as [a|]; [|naive_solver].
  destruct (g_nodes pattern !! p) as [b|]; naive_solver.
Qed.

Lemma respects_compat_lookup node_compat host pattern (m : gmap nat nat) :
  respects_compat node_compat host pattern m ↔
  ∀ p h, m !! p = Some h → compatible node_compat host pattern h p = true.
Proof. unfold respects_compat. apply map_Forall_lookup. Qed.

Section MatchingProofs.
Variable node_compat : NodeAttrs → NodeAttrs → bool.
Variables host pattern : Graph.

Lemma preserves_edges_lookup (m : gmap nat nat) :
  preserves_edges host pattern m ↔
  ∀ u v hu hv, m !! u = Some hu → m !! v = Some hv →
    has_edge pattern u v = true → has_edge host hu hv = true.
Proof.
  unfold preserves_edges. split.
  - intros H u v hu hv Hu Hv.
    apply (map_Forall_lookup_1 _ _ _ _ (map_Forall_lookup_1 _ _ _ _ H Hu) Hv).
  - intros H. apply map_Forall_lookup_2. intros u hu Hu.
    apply map_Forall_lookup_2. intros v hv Hv. by eapply H.
Qed.

Lemma isomorphic_edges_lookup (m : gmap nat nat) :
  isomorphic_edges host pattern m ↔
  ∀ u v hu hv, m !! u = Some hu → m !! v = Some hv →
    has_edge pattern u v = has_edge host hu hv.
Proof.
  unfold isomorphic_edges. split.
  - intros H u v hu hv Hu Hv.
    apply (map_Forall_lookup_1 _ _ _ _ (map_Forall_lookup_1 _ _ _ _ H Hu) Hv).
  - intros H. apply map_Forall_lookup_2. intros u hu Hu.
    apply map_Forall_lookup_2. intros v hv Hv. by eapply H.
Qed.

Lemma induced_valid (m : gmap nat nat) :
  induced_mapping node_compat host pattern m →
  valid_mapping node_compat host pattern m.
Proof.
  intros (Hinj & Hedges & Hcompat). split_and!; [done| |done].
  rewrite isomorphic_edges_lookup in Hedges. apply preserves_edges_lookup.
  intros u v hu hv Hu Hv Huv. by rewrite <- (Hedges u v hu hv).
Qed.

Lemma compatible_in_host h p : compatible node_compat host pattern h p = true → h ∈ node_list host.
Proof.
  unfold compatible.
  destruct (g_nodes host !! h) eqn:Hh; [|done].
  intros _. by apply elem_of_node_list, elem_of_dom.
Qed.

Lemma elem_of_host_candidates h p :
  h ∈ host_candidates node_compat host pattern p ↔ compatible node_compat host pattern h p = true.
Proof.
  unfold host_candidates. rewrite list_elem_of_filter.
  split; [by intros [? _]|]. intros H. split; [done|by eapply compatible_in_host].
Qed.

Lemma NoDup_host_candidates p : NoDup (host_candidates node_compat host pattern p).
Proof. unfold host_candidates. apply NoDup_filter, NoDup_node_list. Qed.

Lemma consistent_insert (partial : gmap nat nat) p h :
  p ∉ dom partial →
  injective partial → isomorphic_edges host pattern partial →
  consistent host pattern partial p h →
  injective (<[p := h]> partial) ∧ isomorphic_edges host pattern (<[p := h]> partial).
Proof.
  rewrite !injective_lookup, !isomorphic_edges_lookup.
  intros Hp Hinj Hedges (Himg & Hloop & Hold).
  apply not_elem_of_dom in Hp.
  rewrite not_elem_of_map_img in Himg.
  split.
  - intros q q' x [[<- <-]|[? Hq]]%lookup_insert_Some
                  [[<- ?]|[? Hq']]%lookup_insert_Some; try done.
    + by destruct (Himg q').
    + subst x. by destruct (Himg q).
    + by eapply Hinj.
  - intros u v hu hv [[<- <-]|[? Hu]]%lookup_insert_Some
                     [[<- <-]|[? Hv]]%lookup_insert_Some; try done.
    + by apply (map_Forall_lookup_1 _ _ _ _ Hold Hv).
    + by apply (map_Forall_lookup_1 _ _ _ _ Hold Hu).
    + by eapply Hedges.
Qed.

Lemma induced_consistent (partial m : gmap nat nat) p h :
  injective m → isomorphic_edges host pattern m →
  partial ⊆ m → p ∉ dom partial → m !! p = Some h →
  consistent host pattern partial p h.
Proof.
  rewrite injective_lookup, isomorphic_edges_lookup.
  intros Hinj Hedges Hsub Hp Hh. split_and!.
  - rewrite not_elem_of_map_img. intros q Hq.
    apply Hp. rewrite (Hinj p q h); [by eapply elem_of_dom_2|done|].
    by eapply lookup_weaken.
  - by eapply Hedges.
  - apply map_Forall_lookup_2. intros q x Hq.
    pose proof (lookup_weaken _ _ _ _ Hq Hsub).
    split; by eapply Hedges.
Qed.

Lemma extend_sound constraints todo (partial m : gmap nat nat) :
  NoDup todo → (∀ p, p ∈ todo → p ∉ dom partial) →
  injective partial → isomorphic_edges host pattern partial →
  respects_compat node_compat host pattern partial →
  Forall (ordered partial) constraints →
  m ∈ extend node_compat host pattern constraints todo partial →
  induced_mapping node_compat host pattern m ∧ partial ⊆ m ∧
  dom m = dom partial ∪ list_to_set todo ∧ Forall (ordered m) constraints.
Proof.
  revert partial.
  induction todo as [|p todo IH];
    intros partial Hnd Hfresh Hinj Hedges Hcompat Hord; simpl.
  - intros ->%list_elem_of_singleton. split_and!; [done|done|set_solver|done].
  - apply NoDup_cons in Hnd as [Hp Hnd].
    intros (h & Hm & Hh%elem_of_host_candidates)%list_elem_of_bind.
    case_decide as Hcons; [|by apply elem_of_nil in Hm].
    destruct Hcons as [Hcons Hord'].
    assert (Hpfresh : p ∉ dom partial) by (apply Hfresh; by left).
    destruct (consistent_insert partial p h) as [Hinj' Hedges']; [done..|].
    apply IH in Hm as (Hvalid & Hsub & Hdom & Hm); try done.
    + split_and!; [done| |rewrite Hdom, dom_insert_L; set_solver|done].
      etrans; [|done]. apply insert_subseteq. by apply not_elem_of_dom.
    + intros q Hq. rewrite dom_insert_L.
      assert (q ∉ dom partial) by (apply Hfresh; by right). set_solver.
    + by apply map_Forall_insert_2.
Qed.

Lemma extend_complete constraints todo (partial m : gmap nat nat) :
  NoDup todo → (∀ p, p ∈ todo → p ∉ dom partial) →
  induced_mapping node_compat host pattern m → partial ⊆ m →
  dom m = dom partial ∪ list_to_set todo →
  Forall (ordered m) constraints →
  m ∈ extend node_compat host pattern constraints todo partial.
Proof.
  intros Hnd Hfresh (Hinj & Hedges & Hcompat) Hsub Hdom Hord.
  revert partial Hnd Hfresh Hsub Hdom.
  induction todo as [|p todo IH]; intros partial Hnd Hfresh Hsub Hdom; simpl.
  - apply list_elem_of_singleton. symmetry.
    apply (anti_symm (⊆)); [done|].
    apply map_subseteq_spec. intros q x Hq.
    assert (is_Some (partial !! q)) as [y Hy].
    { apply elem_of_dom. apply elem_of_dom_2 in Hq. set_solver. }
    rewrite (lookup_weaken _ _ _ _ Hy Hsub) in Hq. by simplify_eq.
  - apply NoDup_cons in Hnd as [Hp Hnd].
    assert (is_Some (m !! p)) as [h Hh] by (apply elem_of_dom; set_solver).
    assert (Hsub' : <[p := h]> partial ⊆ m) by by apply insert_subseteq_l.
    apply list_elem_of_bind. exists h. split.
    + rewrite decide_True.
      * apply IH; [done| |done|].
        -- intros q Hq. rewrite dom_insert_L.
           assert (q ∉ dom partial) by (apply Hfresh; by right). set_solver.
        -- rewrite Hdom, dom_insert_L. set_solver.
      * split.
        -- eapply induced_consistent; try done. apply Hfresh. by left.
        -- eapply Forall_impl; [exact Hord|]. intros c. by apply ordered_weaken.
    + apply elem_of_host_candidates.
      by apply (map_Forall_lookup_1 _ _ _ _ Hcompat Hh).
Qed.

Lemma extend_NoDup constraints todo (partial : gmap nat nat) :
  NoDup todo → (∀ p, p ∈ todo → p ∉ dom partial) →
  injective partial → isomorphic_edges host pattern partial →
  respects_compat node_compat host pattern partial →
  NoDup (extend node_compat host pattern constraints todo partial).
Proof.
  revert partial.
  induction todo as [|p todo IH]; intros partial Hnd Hfresh Hinj Hedges Hcompat;
    simpl.
  - apply NoDup_singleton.
  - apply NoDup_cons in Hnd as [Hp Hnd].
    assert (Hpfresh : p ∉ dom partial) by (apply Hfresh; by left).
    assert (Hfresh' : ∀ h q, q ∈ todo → q ∉ dom (<[p := h]> partial)).
    { intros h q Hq. rewrite dom_insert_L.
      assert (q ∉ dom partial) by (apply Hfresh; by right). set_solver. }
    assert (Hextends : ∀ h m,
      m ∈ (if decide (consistent host pattern partial p h ∧
                      Forall (ordered (<[p := h]> partial)) constraints)
           then extend node_compat host pattern constraints todo (<[p := h]> partial)
           else []) →
      compatible node_compat host pattern h p = true → m !! p = Some h).
    { intros h m Hm Hh. case_decide as Hcons; [|by apply elem_of_nil in Hm].
      destruct Hcons as [Hcons Hord].
      destruct (consistent_insert partial p h) as [Hinj' Hedges']; [done..|].
      apply extend_sound in Hm as (_ & Hsub & _);
        [|done|by apply Hfresh'|done|done|by apply map_Forall_insert_2|done].
      eapply lookup_weaken; [|done]. apply lookup_insert_eq. }
    apply NoDup_bind; [| |apply NoDup_host_candidates].
    + intros h1 h2 m Hh1%elem_of_host_candidates Hh2%elem_of_host_candidates
        Hm1 Hm2.
      apply Hextends in Hm1, Hm2; [|done..]. congruence.
    + intros h Hh%elem_of_host_candidates.
      case_decide as Hcons; [|constructor]. destruct Hcons as [Hcons Hord].
      destruct (consistent_insert partial p h) as [Hinj' Hedges']; [done..|].
      apply IH; [done|by apply Hfresh'|done|done|by apply map_Forall_insert_2].
Qed.

Lemma extend_sublist constraints todo (partial : gmap nat nat) :
  extend node_compat host pattern constraints todo partial
  `sublist_of` extend node_compat host pattern [] todo partial.
Proof.
  revert partial. induction todo as [|p todo IH]; intros partial; simpl; [done|].
  induction (host_candidates node_compat host pattern p) as [|h hs IHh]; simpl;
    [done|].
  apply sublist_app; [|done].
  destruct (decide (consistent host pattern partial p h)) as [Hcons|Hcons].
  - rewrite (decide_True (P := _ ∧ Forall _ [])) by (split; [done|constructor]).
    case_decide; [apply IH|apply sublist_nil_l].
  - rewrite !decide_False by tauto. done.
Qed.

Lemma search_order_perm :
  search_order node_compat host pattern ≡ₚ node_list pattern.
Proof. apply sorted_by_perm. Qed.

Lemma elem_of_extend_all constraints (m : gmap nat nat) :
  m ∈ extend node_compat host pattern constraints
        (search_order node_compat host pattern) ∅ ↔
  induced_mapping node_compat host pattern m ∧ dom m = dom (g_nodes pattern) ∧
  Forall (ordered m) constraints.
Proof.
  assert (Hnd : NoDup (search_order node_compat host pattern)).
  { rewrite search_order_perm. apply NoDup_node_list. }
  assert (Hset : list_to_set (search_order node_compat host pattern)
                 = (dom (g_nodes pattern) : gset nat)).
  { rewrite search_order_perm. apply list_to_set_node_list. }
  assert (Hfresh : ∀ p, p ∈ search_order node_compat host pattern
                        → p ∉ dom (∅ : gmap nat nat)).
  { intros p _. rewrite dom_empty_L. set_solver. }
  assert (Hinj : injective ∅).
  { apply injective_lookup. by intros p p' h ?%lookup_empty_Some. }
  split.
  - intros Hm.
    apply extend_sound in Hm as (Hvalid & _ & Hdom & Hord);
      [|done|done|done|apply map_Forall_empty|apply map_Forall_empty|].
    + split_and!; [done| |done]. rewrite Hdom, Hset, dom_empty_L. set_solver.
    + apply Forall_forall. intros c _. apply ordered_lookup.
      by intros ha hb ?%lookup_empty_Some.
  - intros (Hvalid & Hdom & Hord).
    apply extend_complete; [done|done|done|apply map_empty_subseteq| |done].
    rewrite Hdom, Hset, dom_empty_L. set_solver.
Qed.

Lemma elem_of_brute_force (m : gmap nat nat) :
  m ∈ brute_force node_compat host pattern ↔
  induced_mapping node_compat host pattern m ∧ dom m = dom (g_nodes pattern).
Proof.
  unfold brute_force. rewrite list_elem_of_filter.
  rewrite elem_of_all_assignments by apply NoDup_node_list.
  rewrite list_to_set_node_list.
  split; [by intros (? & ? & _)|].
  intros [Hvalid Hdom]. split_and!; try done.
  intros p h Hh. destruct Hvalid as (_ & _ & Hcompat).
  eapply compatible_in_host. apply (map_Forall_lookup_1 _ _ _ _ Hcompat Hh).
Qed.

Lemma elem_of_find_subgraphs symmetry (m : gmap nat nat) :
  m ∈ find_subgraphs node_compat host pattern symmetry ↔
  m ∈ brute_force node_compat host pattern ∧
  (symmetry = true →
   Forall (ordered m) (symmetry_constraints node_compat pattern)).
Proof.
  unfold find_subgraphs. rewrite elem_of_extend_all, elem_of_brute_force.
  destruct symmetry; [naive_solver|].
  split; [by intros (? & ? & _)|]. intros [[? ?] _]. split_and!; [done..|constructor].
Qed.

Lemma find_subgraphs_NoDup symmetry :
  NoDup (find_subgraphs node_compat host pattern symmetry).
Proof.
  apply extend_NoDup.
  - rewrite search_order_perm. apply NoDup_node_list.
  - intros p _. rewrite dom_empty_L. set_solver.
  - apply injective_lookup. by intros p p' h ?%lookup_empty_Some.
  - apply map_Forall_empty.
  - apply map_Forall_empty.
Qed.

Lemma brute_force_img (m : gmap nat nat) :
  m ∈ brute_force node_compat host pattern →
  ∀ p h, m !! p = Some h → h ∈ dom (g_nodes host).
Proof.
  intros [(_ & _ & Hcompat) _]%elem_of_brute_force p h Hp.
  apply elem_of_node_list. eapply compatible_in_host.
  apply (map_Forall_lookup_1 _ _ _ _ Hcompat Hp).
Qed.
End MatchingProofs.

(** C4: with [symmetry=False] the search returns, as a set of mappings,
    what the independent search of the tests returns: the mappings
    defined on exactly the pattern nodes, with images among the host
    nodes, that are injective, under which two pattern nodes are adjacent
    exactly when their images are, and that satisfy the compatibility
    predicate on every mapped pair. *)
Theorem find_subgraphs_brute_force (node_compat : NodeAttrs → NodeAttrs → bool)
    (host pattern : Graph) (m : gmap nat nat) :
  (m ∈ find_subgraphs node_compat host pattern false ↔
   m ∈ brute_force node_compat host pattern) ∧
  (m ∈ brute_force node_compat host pattern ↔
   dom m = dom (g_nodes pattern) ∧
   map_img m ⊆ dom (g_nodes host) ∧
   (∀ p p' h, m !! p = Some h → m !! p' = Some h → p = p') ∧
   (∀ u v hu hv, m !! u = Some hu → m !! v = Some hv →
      has_edge pattern u v = has_edge host hu hv) ∧
   (∀ p h a b, m !! p = Some h → g_nodes host !! h = Some a →
      g_nodes pattern !! p = Some b → node_compat a b = true)).
Proof.
  split.
  - rewrite elem_of_find_subgraphs. naive_solver.
  - split.
    + intros Hm. pose proof (brute_force_img _ _ _ _ Hm) as Himg.
      apply elem_of_brute_force in Hm as [(Hinj & Hedges & Hcompat) Hdom].
      rewrite injective_lookup in Hinj.
      rewrite isomorphic_edges_lookup in Hedges.
      rewrite respects_compat_lookup in Hcompat.
      split_and!; [done| |done|done|].
      * intros h (p & Hp)%elem_of_map_img. by eapply Himg.
      * intros p h a b Hp Ha Hb.
        apply Hcompat, compatible_Some in Hp as (a' & b' & ? & ? & ?).
        by simplify_eq.
    + intros (Hdom & Himg & Hinj & Hedges & Hcompat).
      apply elem_of_brute_force. split; [split_and!|done].
      * by apply injective_lookup.
      * by apply isomorphic_edges_lookup.
      * apply respects_compat_lookup. intros p h Hp.
        assert (is_Some (g_nodes host !! h)) as [a Ha].
        { apply elem_of_dom, Himg, elem_of_map_img. by exists p. }
        assert (is_Some (g_nodes pattern !! p)) as [b Hb].
        { apply elem_of_dom. rewrite <- Hdom. by eapply elem_of_dom_2. }
        apply compatible_Some. exists a, b. split_and!; [done..|].
        by eapply Hcompat.
Qed.

(** The path 0-1-2 sent node by node into the triangle is injective,
    sends the two edges of the path to edges of the triangle and passes
    the predicate, but the images of the end nodes are adjacent: the
    independent search of the tests rejects the mapping, and with it the
    search. *)
Lemma find_subgraphs_brute_force_counterexample :
  dom path3_into_triangle = dom (g_nodes path3) ∧
  (map_img (SA := gset nat) path3_into_triangle ⊆ dom (g_nodes triangle)) ∧
  valid_mapping element_match triangle path3 path3_into_triangle ∧
  (path3_into_triangle ∉ brute_force element_match triangle path3) ∧
  (path3_into_triangle ∉ find_subgraphs element_match triangle path3 false).
Proof. split_and!; by_compute. Qed.


(** ** Bijections of a finite set of nodes *)

Lemma lookup_identity_map V p q :
  identity_map V !! p = Some q ↔ p ∈ V ∧ q = p.
Proof.
  unfold identity_map. rewrite lookup_set_to_map by naive_solver.
  naive_solver.
Qed.

Lemma injective_values (σ : gmap nat nat) :
  injective σ → NoDup (map_to_list σ).*2.
Proof.
  rewrite injective_lookup. intros Hinj.
  apply NoDup_fmap_2_strong; [|apply NoDup_map_to_list].
  intros [p h] [p' h'] Hp%elem_of_map_to_list Hp'%elem_of_map_to_list. simpl.
  intros <-. f_equal. by eapply Hinj.
Qed.

Lemma lookup_invert (σ : gmap nat nat) h p :
  injective σ → invert σ !! h = Some p ↔ σ !! p = Some h.
Proof.
  intros Hinj. unfold invert.
  rewrite <- elem_of_list_to_map.
  - rewrite list_elem_of_fmap. split.
    + intros ([p' h'] & [= -> ->] & Hin). by apply elem_of_map_to_list.
    + intros Hp. exists (p, h). split; [done|]. by apply elem_of_map_to_list.
  - rewrite <- list_fmap_compose.
    replace (fst ∘ prod_swap) with (snd : nat * nat → nat) by done.
    by apply injective_values.
Qed.

Lemma permutes_surjective V σ h :
  permutes V σ → h ∈ V → ∃ p, σ !! p = Some h.
Proof.
  intros (Hdom & Hval & Hinj) Hh.
  assert (Hperm : (map_to_list σ).*2 ≡ₚ elements V).
  { apply submseteq_length_Permutation.
    - apply NoDup_submseteq; [by apply injective_values|].
      intros x ([p x'] & -> & Hin%elem_of_map_to_list)%list_elem_of_fmap.
      apply elem_of_elements. by eapply Hval.
    - rewrite length_fmap, length_map_to_list, <- (size_dom (D := gset nat)), Hdom.
      done. }
  apply elem_of_elements in Hh. rewrite <- Hperm in Hh.
  apply list_elem_of_fmap in Hh as ([p h'] & -> & Hin%elem_of_map_to_list).
  by exists p.
Qed.

Lemma permutes_identity V : permutes V (identity_map V).
Proof.
  split_and!.
  - apply set_eq. intros p. rewrite elem_of_dom. unfold is_Some.
    setoid_rewrite lookup_identity_map. naive_solver.
  - by intros p h [? ->]%lookup_identity_map.
  - apply injective_lookup.
    by intros p p' h [_ ->]%lookup_identity_map [_ ->]%lookup_identity_map.
Qed.

Lemma permutes_invert V σ : permutes V σ → permutes V (invert σ).
Proof.
  intros Hσ. pose proof Hσ as (Hdom & Hval & Hinj). split_and!.
  - apply set_eq. intros h. rewrite elem_of_dom. unfold is_Some.
    setoid_rewrite (λ p, lookup_invert σ h p Hinj). split.
    + intros [p Hp]. by eapply Hval.
    + intros Hh. by eapply permutes_surjective.
  - intros h p Hp. apply (lookup_invert _ _ _ Hinj) in Hp.
    rewrite <- Hdom. by eapply elem_of_dom_2.
  - apply injective_lookup. intros h h' p Hh Hh'.
    apply (lookup_invert _ _ _ Hinj) in Hh, Hh'. congruence.
Qed.

Lemma permutes_compose V σ τ :
  permutes V σ → permutes V τ → permutes V (τ ∘ₘ σ).
Proof.
  intros (Hdom & Hval & Hinj) (Hdom' & Hval' & Hinj').
  rewrite injective_lookup in Hinj, Hinj'. split_and!.
  - apply set_eq. intros p. rewrite elem_of_dom. unfold is_Some.
    setoid_rewrite map_lookup_compose_Some. split.
    + intros (x & h & Hp & _). rewrite <- Hdom. by eapply elem_of_dom_2.
    + intros Hp. rewrite <- Hdom in Hp. apply elem_of_dom in Hp as [h Hp].
      assert (is_Some (τ !! h)) as [x Hx].
      { apply elem_of_dom. rewrite Hdom'. by eapply Hval. }
      eauto.
  - intros p x (h & _ & Hx)%map_lookup_compose_Some. by eapply Hval'.
  - apply injective_lookup.
    intros p p' x (h & Hp & Hx)%map_lookup_compose_Some
                  (h' & Hp' & Hx')%map_lookup_compose_Some.
    assert (h = h') as <- by by eapply Hinj'. by eapply Hinj.
Qed.

Lemma compose_identity V (m : gmap nat nat) :
  dom m ⊆ V → m ∘ₘ identity_map V = m.
Proof.
  intros Hdom. apply map_eq. intros p. apply option_eq. intros x.
  rewrite map_lookup_compose_Some. setoid_rewrite lookup_identity_map. split.
  - by intros (q & [_ ->] & ?).
  - intros Hp. exists p. split_and!; try done. apply Hdom. by eapply elem_of_dom_2.
Qed.

Lemma compose_invert V σ (m : gmap nat nat) :
  permutes V σ → dom m ⊆ V → (m ∘ₘ σ) ∘ₘ invert σ = m.
Proof.
  intros Hσ Hm. pose proof Hσ as (Hdom & Hval & Hinj).
  rewrite <- map_compose_assoc.
  apply map_eq. intros h. apply option_eq. intros x.
  rewrite map_lookup_compose_Some. split.
  - intros (h' & (p & Hp & Hp')%map_lookup_compose_Some & Hx).
    apply (lookup_invert _ _ _ Hinj) in Hp. congruence.
  - intros Hx. exists h. split; [|done].
    destruct (permutes_surjective V σ h Hσ) as [p Hp].
    { apply Hm. by eapply elem_of_dom_2. }
    apply map_lookup_compose_Some. exists p. split; [|done].
    by apply lookup_invert.
Qed.

Lemma identity_compose V (m : gmap nat nat) :
  (∀ p h, m !! p = Some h → h ∈ V) → identity_map V ∘ₘ m = m.
Proof.
  intros Hval. apply map_eq. intros p. apply option_eq. intros x.
  rewrite map_lookup_compose_Some. setoid_rewrite lookup_identity_map. split.
  - by intros (h & ? & _ & ->).
  - intros Hp. exists x. split_and!; try done. by eapply Hval.
Qed.


(** ** Powers of a bijection *)

Lemma not_NoDup_lookup (l : list nat) :
  ¬ NoDup l → ∃ i j x, i < j ∧ l !! i = Some x ∧ l !! j = Some x.
Proof.
  induction l as [|x l IH]; intros Hnd.
  - destruct Hnd. constructor.
  - destruct (decide (x ∈ l)) as [[j Hj]%list_elem_of_lookup|Hx].
    + exists 0, (S j), x. split_and!; [lia|done|done].
    + destruct IH as (i & j & y & Hlt & Hi & Hj).
      { intros Hl. apply Hnd. by constructor. }
      exists (S i), (S j), y. split_and!; [lia|done|done].
Qed.

Lemma permutes_total V (σ : gmap nat nat) p :
  permutes V σ → p ∈ V → σ !! p = Some (σ !!! p) ∧ σ !!! p ∈ V.
Proof.
  intros (Hdom & Hval & _) Hp. rewrite <- Hdom in Hp.
  apply elem_of_dom in Hp as [h Hh].
  rewrite (lookup_total_correct _ _ _ Hh). split; [done|by eapply Hval].
Qed.

Lemma permutes_iter V (σ : gmap nat nat) p k :
  permutes V σ → p ∈ V → Nat.iter k (λ x, σ !!! x) p ∈ V.
Proof.
  intros Hσ Hp. induction k as [|k IH]; simpl; [done|].
  by apply (permutes_total V σ).
Qed.

(** Some power of a bijection of a finite set brings a node back. *)
Lemma permutes_cycle V (σ : gmap nat nat) p :
  permutes V σ → p ∈ V → ∃ k, Nat.iter (S k) (λ x, σ !!! x) p = p.
Proof.
  intros Hσ Hp. set (f := λ x, σ !!! x).
  assert (Hinj : ∀ a b, a ∈ V → b ∈ V → f a = f b → a = b).
  { intros a b Ha Hb Hab.
    destruct (permutes_total V σ a Hσ Ha) as [Ha' _].
    destruct (permutes_total V σ b Hσ Hb) as [Hb' _].
    destruct Hσ as (_ & _ & Hσ). rewrite injective_lookup in Hσ.
    eapply Hσ; [done|]. unfold f in Hab. by rewrite Hab. }
  set (l := (λ k, Nat.iter k f p) <$> seq 0 (S (size V))).
  destruct (not_NoDup_lookup l) as (i & j & x & Hlt & Hi & Hj).
  { intros Hnd.
    assert (Hlen : length l ≤ length (elements V)).
    { apply submseteq_length, NoDup_submseteq; [done|].
      intros y (k & -> & _)%list_elem_of_fmap. apply elem_of_elements.
      by apply permutes_iter. }
    unfold l in Hlen. rewrite length_fmap, length_seq in Hlen.
    unfold size, set_size in Hlen. simpl in Hlen. lia. }
  unfold l in Hi, Hj. rewrite list_lookup_fmap in Hi, Hj.
  destruct (seq 0 (S (size V)) !! i) as [i'|] eqn:Ei; [|done].
  destruct (seq 0 (S (size V)) !! j) as [j'|] eqn:Ej; [|done].
  apply lookup_seq in Ei as [-> _]. apply lookup_seq in Ej as [-> _].
  simpl in Hi, Hj. injection Hi as Hi. injection Hj as Hj.
  exists (j - i - 1). replace (S (j - i - 1)) with (j - i) by lia.
  clear l. revert j Hlt Hj. subst x.
  induction i as [|i IH]; intros j Hlt Hj.
  - by rewrite Nat.sub_0_r.
  - destruct j as [|j]; [lia|]. simpl in Hj.
    apply Hinj in Hj; [|by apply permutes_iter..].
    apply (IH j); [lia|done].
Qed.

(** ** The automorphisms of the pattern form a group *)

Lemma elem_of_automorphisms node_compat g (σ : gmap nat nat) :
  σ ∈ automorphisms node_compat g ↔
  permutes (dom (g_nodes g)) σ ∧ isomorphic_edges g g σ ∧
  respects_compat node_compat g g σ.
Proof.
  unfold automorphisms. split.
  - intros Hσ. pose proof (brute_force_img _ _ _ _ Hσ) as Himg.
    apply elem_of_brute_force in Hσ as [(Hinj & Hedges & Hcompat) Hdom].
    by split_and!.
  - intros ((Hdom & _ & Hinj) & Hedges & Hcompat).
    apply elem_of_brute_force. by split_and!.
Qed.

Section Group.
Variable node_compat : NodeAttrs → NodeAttrs → bool.
Hypothesis node_compat_refl : ∀ a, node_compat a a = true.
Hypothesis node_compat_trans :
  ∀ a b c, node_compat a b = true → node_compat b c = true →
           node_compat a c = true.

Lemma compatible_refl g p :
  p ∈ dom (g_nodes g) → compatible node_compat g g p p = true.
Proof.
  intros [a Ha]%elem_of_dom. apply compatible_Some. by exists a, a.
Qed.

Lemma compatible_trans g1 g2 g3 a b c :
  compatible node_compat g1 g2 a b = true →
  compatible node_compat g2 g3 b c = true →
  compatible node_compat g1 g3 a c = true.
Proof.
  rewrite !compatible_Some.
  intros (x & y & Hx & Hy & Hxy) (y' & z & Hy' & Hz & Hyz).
  exists x, z. split_and!; [done..|]. simplify_eq. by eapply node_compat_trans.
Qed.

Lemma automorphisms_identity g :
  identity_map (dom (g_nodes g)) ∈ automorphisms node_compat g.
Proof.
  apply elem_of_automorphisms. split_and!; [apply permutes_identity| |].
  - apply isomorphic_edges_lookup.
    by intros u v su sv [_ ->]%lookup_identity_map [_ ->]%lookup_identity_map.
  - apply respects_compat_lookup. intros p h [Hp ->]%lookup_identity_map.
    by apply compatible_refl.
Qed.

Lemma automorphisms_compose g σ τ :
  σ ∈ automorphisms node_compat g → τ ∈ automorphisms node_compat g →
  τ ∘ₘ σ ∈ automorphisms node_compat g.
Proof.
  rewrite !elem_of_automorphisms.
  intros (Hσ & Hedges & Hcompat) (Hτ & Hedges' & Hcompat').
  split_and!; [by apply permutes_compose| |].
  - rewrite isomorphic_edges_lookup in Hedges, Hedges'.
    apply isomorphic_edges_lookup.
    intros u v x y (su & Hu & Hx)%map_lookup_compose_Some
                   (sv & Hv & Hy)%map_lookup_compose_Some.
    rewrite (Hedges u v su sv) by done. by eapply Hedges'.
  - rewrite respects_compat_lookup in Hcompat, Hcompat'.
    apply respects_compat_lookup.
    intros p x (h & Hp & Hx)%map_lookup_compose_Some.
    eapply compatible_trans; [by apply Hcompat'|by apply Hcompat].
Qed.

(** A node and its image are of the same kind in both directions: the
    image comes back to the node under a power of the automorphism. *)
Lemma automorphisms_back g σ p h :
  σ ∈ automorphisms node_compat g → σ !! p = Some h →
  compatible node_compat g g p h = true.
Proof.
  intros (Hσ & _ & Hcompat)%elem_of_automorphisms Hp.
  rewrite respects_compat_lookup in Hcompat.
  assert (Hin : p ∈ dom (g_nodes g)).
  { destruct Hσ as (<- & _). by eapply elem_of_dom_2. }
  destruct (permutes_cycle _ σ p Hσ Hin) as [k Hk].
  set (f := λ x, σ !!! x) in *.
  assert (Hfp : f p = h) by (unfold f; by rewrite (lookup_total_correct _ _ _ Hp)).
  assert (Hchain : ∀ j,
    compatible node_compat g g (Nat.iter (S j) f p) (f p) = true).
  { induction j as [|j IH].
    - simpl. apply compatible_refl. rewrite Hfp.
      destruct Hσ as (_ & Hval & _). by eapply Hval.
    - eapply compatible_trans; [|exact IH].
      change (Nat.iter (S (S j)) f p) with (f (Nat.iter (S j) f p)).
      apply Hcompat.
      apply (permutes_total _ σ (Nat.iter (S j) f p) Hσ).
      by apply permutes_iter. }
  specialize (Hchain k). by rewrite Hk, Hfp in Hchain.
Qed.

Lemma automorphisms_invert g σ :
  σ ∈ automorphisms node_compat g → invert σ ∈ automorphisms node_compat g.
Proof.
  intros Hin. pose proof Hin as (Hσ & Hedges & Hcompat)%elem_of_automorphisms.
  apply elem_of_automorphisms.
  split_and!; [by apply permutes_invert| |].
  - destruct Hσ as (_ & _ & Hinj). rewrite isomorphic_edges_lookup in Hedges.
    apply isomorphic_edges_lookup. intros a b p q Ha Hb.
    apply (lookup_invert _ _ _ Hinj) in Ha, Hb. symmetry. by eapply Hedges.
  - apply respects_compat_lookup. intros h p Hp.
    destruct Hσ as (_ & _ & Hinj). apply (lookup_invert _ _ _ Hinj) in Hp.
    by eapply automorphisms_back.
Qed.

Lemma automorphisms_subgroup g :
  subgroup (dom (g_nodes g)) (automorphisms node_compat g).
Proof.
  split_and!.
  - by intros σ (? & _)%elem_of_automorphisms.
  - apply automorphisms_identity.
  - intros σ τ. apply automorphisms_compose.
  - intros σ. apply automorphisms_invert.
Qed.

Lemma compose_brute_force host pattern (m σ : gmap nat nat) :
  m ∈ brute_force node_compat host pattern →
  σ ∈ automorphisms node_compat pattern →
  m ∘ₘ σ ∈ brute_force node_compat host pattern.
Proof.
  intros [(Hinj & Hedges & Hcompat) Hdom]%elem_of_brute_force
         ((Hdomσ & Hval & Hinjσ) & Hedgesσ & Hcompatσ)%elem_of_automorphisms.
  rewrite injective_lookup in Hinj, Hinjσ.
  rewrite isomorphic_edges_lookup in Hedges, Hedgesσ.
  rewrite respects_compat_lookup in Hcompat, Hcompatσ.
  apply elem_of_brute_force. split; [split_and!|].
  - apply injective_lookup.
    intros p p' x (h & Hp & Hx)%map_lookup_compose_Some
                  (h' & Hp' & Hx')%map_lookup_compose_Some.
    assert (h = h') as <- by by eapply Hinj. by eapply Hinjσ.
  - apply isomorphic_edges_lookup.
    intros u v x y (su & Hu & Hx)%map_lookup_compose_Some
                   (sv & Hv & Hy)%map_lookup_compose_Some.
    rewrite (Hedgesσ u v su sv) by done. by eapply Hedges.
  - apply respects_compat_lookup.
    intros p x (h & Hp & Hx)%map_lookup_compose_Some.
    eapply compatible_trans; [by apply Hcompat|by apply Hcompatσ].
  - apply set_eq. intros p. rewrite elem_of_dom. unfold is_Some.
    setoid_rewrite map_lookup_compose_Some. split.
    + intros (x & h & Hp & _). rewrite <- Hdomσ. by eapply elem_of_dom_2.
    + intros Hp. rewrite <- Hdomσ in Hp. apply elem_of_dom in Hp as [h Hp].
      assert (is_Some (m !! h)) as [x Hx].
      { apply elem_of_dom. rewrite Hdom. by eapply Hval. }
      eauto.
Qed.
End Group.

(** ** The ordering constraints keep one mapping of every class *)

Lemma elem_of_orbit group n x :
  x ∈ orbit group n ↔ ∃ σ : gmap nat nat, σ ∈ group ∧ σ !! n = Some x.
Proof.
  unfold orbit. rewrite elem_of_remove_dups, list_elem_of_omap. naive_solver.
Qed.

Lemma elem_of_stabiliser group n (σ : gmap nat nat) :
  σ ∈ stabiliser group n ↔ σ ∈ group ∧ σ !! n = Some n.
Proof. unfold stabiliser. rewrite list_elem_of_filter. naive_solver. Qed.

Lemma stabiliser_subgroup V group n :
  subgroup V group → n ∈ V → subgroup V (stabiliser group n).
Proof.
  intros (Hperm & Hid & Hcomp & Hinv) Hn. split_and!.
  - intros σ [Hσ _]%elem_of_stabiliser. by apply Hperm.
  - apply elem_of_stabiliser. split; [done|]. by apply lookup_identity_map.
  - intros σ τ [Hσ Hσn]%elem_of_stabiliser [Hτ Hτn]%elem_of_stabiliser.
    apply elem_of_stabiliser. split; [by apply Hcomp|].
    apply map_lookup_compose_Some. by exists n.
  - intros σ [Hσ Hσn]%elem_of_stabiliser.
    apply elem_of_stabiliser. split; [by apply Hinv|].
    apply lookup_invert; [|done]. by destruct (Hperm σ Hσ) as (_ & _ & ?).
Qed.

Lemma least_exists {A} (key : A → nat) (l : list A) :
  l ≠ [] → ∃ x, x ∈ l ∧ ∀ y, y ∈ l → key x ≤ key y.
Proof.
  induction l as [|a l IH]; [done|]. intros _.
  destruct l as [|b l].
  - exists a. split; [by left|]. by intros y ->%list_elem_of_singleton.
  - destruct IH as (x & Hx & Hmin); [done|].
    destruct (decide (key a ≤ key x)).
    + exists a. split; [by left|].
      intros y [->|Hy]%elem_of_cons; [done|]. specialize (Hmin y Hy). lia.
    + exists x. split; [by right|].
      intros y [->|Hy]%elem_of_cons; [lia|by apply Hmin].
Qed.

Lemma injective_compose (m σ : gmap nat nat) :
  injective m → injective σ → injective (m ∘ₘ σ).
Proof.
  rewrite !injective_lookup. intros Hm Hσ.
  intros p p' x (h & Hp & Hx)%map_lookup_compose_Some
                (h' & Hp' & Hx')%map_lookup_compose_Some.
  assert (h = h') as <- by by eapply Hm. by eapply Hσ.
Qed.

Lemma dom_compose_permutes V (m σ : gmap nat nat) :
  dom m = V → permutes V σ → dom (m ∘ₘ σ) = V.
Proof.
  intros Hdom (Hdomσ & Hval & _).
  apply set_eq. intros p. rewrite elem_of_dom. unfold is_Some.
  setoid_rewrite map_lookup_compose_Some. split.
  - intros (x & h & Hp & _). rewrite <- Hdomσ. by eapply elem_of_dom_2.
  - intros Hp. rewrite <- Hdomσ in Hp. apply elem_of_dom in Hp as [h Hp].
    assert (is_Some (m !! h)) as [x Hx].
    { apply elem_of_dom. rewrite Hdom. by eapply Hval. }
    eauto.
Qed.

(** Every class holds a mapping in canonical order. *)
Lemma canonical_exists V order group (m : gmap nat nat) :
  subgroup V group → (∀ n, n ∈ order → n ∈ V) →
  dom m = V → injective m →
  ∃ σ, σ ∈ group ∧ Forall (ordered (m ∘ₘ σ)) (ordering_constraints order group).
Proof.
  revert group m.
  induction order as [|n order IH]; intros group m Hgroup Horder Hdom Hinj; simpl.
  - destruct Hgroup as (_ & Hid & _). by exists (identity_map V).
  - assert (Hn : n ∈ V) by (apply Horder; by left).
    pose proof Hgroup as (Hperm & Hid & Hcomp & Hinv).
    destruct (least_exists (λ x, m !!! x) (orbit group n)) as (x & Hx & Hmin).
    { intros Hnil. assert (n ∈ orbit group n) as Hin; [|by rewrite Hnil in Hin; apply elem_of_nil in Hin].
      apply elem_of_orbit. exists (identity_map V). split; [done|].
      by apply lookup_identity_map. }
    apply elem_of_orbit in Hx as (σ1 & Hσ1 & Hσ1n).
    destruct (IH (stabiliser group n) (m ∘ₘ σ1)) as (τ & Hτ & Hord).
    { by apply stabiliser_subgroup. }
    { intros k Hk. apply Horder. by right. }
    { apply dom_compose_permutes; [done|by apply Hperm]. }
    { apply injective_compose; [done|]. by destruct (Hperm σ1 Hσ1) as (_ & _ & ?). }
    apply elem_of_stabiliser in Hτ as [Hτ Hτn].
    exists (σ1 ∘ₘ τ). split; [by apply Hcomp|].
    rewrite map_compose_assoc. apply Forall_app. split; [|done].
    apply Forall_fmap, Forall_forall.
    intros y [Hy (ρ & Hρ & Hρn)%elem_of_orbit]%list_elem_of_filter.
    apply ordered_lookup. simpl. intros ha hb.
    intros (n' & Hn' & (x' & Hx' & Ha)%map_lookup_compose_Some)%map_lookup_compose_Some.
    intros (ty & Hty & (z & Hz & Hb)%map_lookup_compose_Some)%map_lookup_compose_Some.
    simplify_eq.
    assert (Hzorb : z ∈ orbit group n).
    { apply elem_of_orbit. exists (σ1 ∘ₘ (τ ∘ₘ ρ)). split.
      - apply Hcomp; [|done]. by apply Hcomp.
      - apply map_lookup_compose_Some. exists ty. split; [|done].
        apply map_lookup_compose_Some. by exists y. }
    specialize (Hmin z Hzorb). simpl in Hmin.
    rewrite (lookup_total_correct _ _ _ Ha), (lookup_total_correct _ _ _ Hb) in Hmin.
    assert (ha ≠ hb); [|lia]. intros <-.
    rewrite injective_lookup in Hinj.
    assert (x = z) as <- by by eapply Hinj.
    destruct (Hperm σ1 Hσ1) as (_ & _ & Hinj1). rewrite injective_lookup in Hinj1.
    assert (n = ty) as <- by by eapply Hinj1.
    destruct (Hperm τ Hτ) as (_ & _ & Hinjτ). rewrite injective_lookup in Hinjτ.
    apply Hy. by eapply Hinjτ.
Qed.

(** Two mappings in canonical order that differ by a map of the group
    differ by a map that leaves every node of the order in place. *)
Lemma canonical_fixes V order group (m σ : gmap nat nat) :
  subgroup V group → (∀ n, n ∈ order → n ∈ V) →
  dom m = V → injective m → σ ∈ group →
  Forall (ordered m) (ordering_constraints order group) →
  Forall (ordered (m ∘ₘ σ)) (ordering_constraints order group) →
  ∀ n, n ∈ order → σ !! n = Some n.
Proof.
  revert group.
  induction order as [|n order IH];
    intros group Hgroup Horder Hdom Hinj Hσ Hm Hmσ; simpl in *.
  - by intros k ?%elem_of_nil.
  - assert (Hn : n ∈ V) by (apply Horder; by left).
    pose proof Hgroup as (Hperm & Hid & Hcomp & Hinv).
    apply Forall_app in Hm as [Hm Hm'], Hmσ as [Hmσ Hmσ'].
    rewrite Forall_fmap, Forall_forall in Hm, Hmσ.
    pose proof (Hperm σ Hσ) as Hpσ.
    destruct (permutes_total V σ n Hpσ Hn) as [Hσn Hy].
    set (y := σ !!! n) in *.
    assert (Hfix : y = n).
    { destruct (decide (y = n)) as [|Hne]; [done|]. exfalso.
      destruct (permutes_surjective V σ n Hpσ Hn) as [z Hz].
      assert (Hzn : z ≠ n) by (intros ->; congruence).
      assert (Hzin : z ∈ V).
      { destruct Hpσ as (<- & _). by eapply elem_of_dom_2. }
      assert (is_Some (m !! n)) as [a Ha] by (apply elem_of_dom; by rewrite Hdom).
      assert (is_Some (m !! y)) as [b Hb] by (apply elem_of_dom; by rewrite Hdom).
      assert (Hab : a < b).
      { assert (Hin : y ∈ filter (λ x, x ≠ n) (orbit group n)).
        { apply list_elem_of_filter. split; [done|].
          apply elem_of_orbit. by exists σ. }
        apply Hm in Hin. simpl in Hin.
        by apply (proj1 (ordered_lookup m (n, y)) Hin). }
      assert (Hba : b < a).
      { assert (Hin : z ∈ filter (λ x, x ≠ n) (orbit group n)).
        { apply list_elem_of_filter. split; [done|].
          apply elem_of_orbit. exists (invert σ). split; [by apply Hinv|].
          apply lookup_invert; [|done]. by destruct Hpσ as (_ & _ & ?). }
        apply Hmσ in Hin. simpl in Hin.
        apply (proj1 (ordered_lookup (m ∘ₘ σ) (n, z)) Hin); simpl;
          apply map_lookup_compose_Some; [by exists y|by exists n]. }
      lia. }
    rewrite Hfix in Hσn.
    intros k [->|Hk]%elem_of_cons; [done|].
    apply (IH (stabiliser group n)); try done.
    + by apply stabiliser_subgroup.
    + intros k' Hk'. apply Horder. by right.
    + by apply elem_of_stabiliser.
Qed.

Lemma compose_fixes V (m σ : gmap nat nat) :
  dom m = V → dom σ = V → (∀ n, n ∈ V → σ !! n = Some n) → m ∘ₘ σ = m.
Proof.
  intros Hdom Hdomσ Hfix. apply map_eq. intros p. apply option_eq. intros x.
  rewrite map_lookup_compose_Some. split.
  - intros (q & Hq & Hx).
    assert (p ∈ V) as Hp by (rewrite <- Hdomσ; by eapply elem_of_dom_2).
    rewrite (Hfix p Hp) in Hq. by simplify_eq.
  - intros Hx. exists p. split; [|done]. apply Hfix.
    rewrite <- Hdom. by eapply elem_of_dom_2.
Qed.

Lemma equivalent_alt node_compat pattern (m1 m2 : gmap nat nat) :
  equivalent node_compat pattern m1 m2 ↔
  ∃ σ, σ ∈ automorphisms node_compat pattern ∧ m1 = m2 ∘ₘ σ.
Proof. unfold equivalent. by rewrite Exists_exists. Qed.

Section Symmetry.
Variable node_compat : NodeAttrs → NodeAttrs → bool.
Hypothesis node_compat_refl : ∀ a, node_compat a a = true.
Hypothesis node_compat_trans :
  ∀ a b c, node_compat a b = true → node_compat b c = true →
           node_compat a c = true.
Variables host pattern : Graph.

Lemma representative_exists (m : gmap nat nat) :
  m ∈ find_subgraphs node_compat host pattern false →
  ∃ r, r ∈ find_subgraphs node_compat host pattern true ∧
       equivalent node_compat pattern r m.
Proof.
  intros [Hm _]%elem_of_find_subgraphs.
  pose proof Hm as [(Hinj & _) Hdom]%elem_of_brute_force.
  destruct (canonical_exists (dom (g_nodes pattern)) (node_list pattern)
              (automorphisms node_compat pattern) m) as (σ & Hσ & Hord);
    [by apply automorphisms_subgroup|by intros n ?%elem_of_node_list|done..|].
  exists (m ∘ₘ σ). split.
  - apply elem_of_find_subgraphs. split; [by apply compose_brute_force|done].
  - apply equivalent_alt. by exists σ.
Qed.

Lemma representative_unique (r r' : gmap nat nat) :
  r ∈ find_subgraphs node_compat host pattern true →
  r' ∈ find_subgraphs node_compat host pattern true →
  equivalent node_compat pattern r' r → r' = r.
Proof.
  intros [Hr Hord]%elem_of_find_subgraphs [Hr' Hord']%elem_of_find_subgraphs
         (σ & Hσ & ->)%equivalent_alt.
  specialize (Hord eq_refl). specialize (Hord' eq_refl).
  pose proof Hr as [(Hinj & _) Hdom]%elem_of_brute_force.
  pose proof Hσ as ((Hdomσ & _) & _)%elem_of_automorphisms.
  apply (compose_fixes (dom (g_nodes pattern))); [done..|].
  intros n Hn.
  apply (canonical_fixes (dom (g_nodes pattern)) (node_list pattern)
           (automorphisms node_compat pattern) r σ); try done.
  - by apply automorphisms_subgroup.
  - by intros k ?%elem_of_node_list.
  - by apply elem_of_node_list.
Qed.

Lemma equivalent_class (m1 m2 m3 : gmap nat nat) :
  dom m3 = dom (g_nodes pattern) →
  equivalent node_compat pattern m1 m3 → equivalent node_compat pattern m2 m3 →
  equivalent node_compat pattern m1 m2.
Proof.
  intros Hdom (σ & Hσ & ->)%equivalent_alt (τ & Hτ & ->)%equivalent_alt.
  apply equivalent_alt. exists (invert τ ∘ₘ σ). split.
  - apply automorphisms_compose; [done..|]. by apply automorphisms_invert.
  - apply elem_of_automorphisms in Hτ as (Hτ & _).
    rewrite map_compose_assoc. erewrite compose_invert; [done..|].
    by rewrite Hdom.
Qed.
End Symmetry.

Lemma self_match_equivalent node_compat g (m1 m2 : gmap nat nat) :
  (∀ a b c, node_compat a b = true → node_compat b c = true →
            node_compat a c = true) →
  (∀ a, node_compat a a = true) →
  m1 ∈ find_subgraphs node_compat g g false →
  m2 ∈ find_subgraphs node_compat g g false →
  equivalent node_compat g m1 m2.
Proof.
  intros Htrans Hrefl [H1 _]%elem_of_find_subgraphs [H2 _]%elem_of_find_subgraphs.
  apply equivalent_alt. exists (invert m2 ∘ₘ m1). split.
  - apply automorphisms_compose; [done..|]. by apply automorphisms_invert.
  - pose proof H1 as ((_ & Hval & _) & _)%elem_of_automorphisms.
    pose proof H2 as (Hperm & _)%elem_of_automorphisms.
    rewrite map_compose_assoc.
    rewrite <- (identity_compose (dom (g_nodes g)) m1) at 1 by done.
    f_equal. symmetry.
    apply map_eq. intros h. apply option_eq. intros x.
    pose proof Hperm as (Hdom & _ & Hinj).
    rewrite map_lookup_compose_Some, lookup_identity_map. split.
    + intros (p & Hp%(lookup_invert _ _ _ Hinj) & Hx). simplify_eq.
      split; [|done]. by destruct Hperm as (_ & Hv & _); eapply Hv.
    + intros [Hh ->].
      destruct (permutes_surjective _ m2 h Hperm Hh) as [p Hp].
      exists p. split; [by apply lookup_invert|done].
Qed.

Lemma length_one {A} (l : list A) r :
  NoDup l → r ∈ l → (∀ x, x ∈ l → x = r) → length l = 1.
Proof.
  intros Hnd Hr Hall. destruct l as [|x [|y l]]; simpl.
  - by apply elem_of_nil in Hr.
  - done.
  - exfalso. apply NoDup_cons in Hnd as [Hx _]. apply Hx.
    rewrite (Hall x), <- (Hall y); [by left|right; by left|by left].
Qed.

(** C5: under a predicate that accepts every node with itself and is
    transitive, the result with [symmetry=True] is drawn from the result
    with [symmetry=False], without repetition, and every mapping of the
    unreduced result is equivalent, under the automorphisms of the
    pattern, to exactly one mapping of the reduced result; matching a
    graph against itself yields exactly one mapping. *)
Theorem find_subgraphs_symmetry (node_compat : NodeAttrs → NodeAttrs → bool)
    (host pattern : Graph) :
  (∀ a, node_compat a a = true) →
  (∀ a b c, node_compat a b = true → node_compat b c = true →
            node_compat a c = true) →
  let full := find_subgraphs node_compat host pattern false in
  let reduced := find_subgraphs node_compat host pattern true in
  (∀ m, m ∈ reduced → m ∈ full) ∧
  NoDup reduced ∧
  length reduced ≤ length full ∧
  (∀ m, m ∈ full →
     ∃ r, r ∈ reduced ∧ equivalent node_compat pattern r m ∧
          ∀ r', r' ∈ reduced → equivalent node_compat pattern r' m → r' = r) ∧
  (host = pattern → length reduced = 1).
Proof.
  intros Hrefl Htrans full reduced. subst full reduced.
  assert (Hclass : ∀ m, m ∈ find_subgraphs node_compat host pattern false →
     ∃ r, r ∈ find_subgraphs node_compat host pattern true ∧
          equivalent node_compat pattern r m ∧
          ∀ r', r' ∈ find_subgraphs node_compat host pattern true →
                equivalent node_compat pattern r' m → r' = r).
  { intros m Hm.
    destruct (representative_exists node_compat Hrefl Htrans host pattern m Hm)
      as (r & Hr & Hrm).
    exists r. split_and!; [done..|]. intros r' Hr' Hr'm.
    apply (representative_unique node_compat Hrefl Htrans host pattern);
      [done..|].
    apply (equivalent_class node_compat Hrefl Htrans pattern r' r m);
      [|done..].
    by apply elem_of_find_subgraphs in Hm as [[_ ?]%elem_of_brute_force _]. }
  split_and!.
  - intros m. rewrite !elem_of_find_subgraphs. naive_solver.
  - apply find_subgraphs_NoDup.
  - apply sublist_length, extend_sublist.
  - done.
  - intros ->.
    destruct (Hclass (identity_map (dom (g_nodes pattern)))) as (r & Hr & _).
    { apply elem_of_find_subgraphs. split; [|done].
      by apply automorphisms_identity. }
    apply (length_one _ r); [apply find_subgraphs_NoDup|done|].
    intros r' Hr'.
    apply (representative_unique node_compat Hrefl Htrans pattern pattern);
      [done..|].
    apply self_match_equivalent; [done|done| |].
    + apply elem_of_find_subgraphs in Hr' as [? _].
      by apply elem_of_find_subgraphs.
    + apply elem_of_find_subgraphs in Hr as [? _].
      by apply elem_of_find_subgraphs.
Qed.

Lemma element_match_refl a : element_match a a = true.
Proof. unfold element_match. by apply bool_decide_eq_true. Qed.

Lemma element_match_trans a b c :
  element_match a b = true → element_match b c = true →
  element_match a c = true.
Proof.
  unfold element_match. rewrite !bool_decide_eq_true. congruence.
Qed.

Lemma find_subgraphs_symmetry_witness :
  length (find_subgraphs element_match square square true) = 1 ∧
  length (find_subgraphs element_match square path3 true) = 4 ∧
  length (find_subgraphs element_match square path3 false) = 8 ∧
  ∀ m, m ∈ find_subgraphs element_match square path3 false →
    ∃ r, r ∈ find_subgraphs element_match square path3 true ∧
         equivalent element_match path3 r m ∧
         ∀ r', r' ∈ find_subgraphs element_match square path3 true →
               equivalent element_match path3 r' m → r' = r.
Proof.
  split_and!.
  - exact (proj2 (proj2 (proj2 (proj2
      (find_subgraphs_symmetry element_match square square
         element_match_refl element_match_trans)))) eq_refl).
  - vm_compute. reflexivity.
  - vm_compute. reflexivity.
  - exact (proj1 (proj2 (proj2 (proj2
      (find_subgraphs_symmetry element_match square path3
         element_match_refl element_match_trans))))).
Defined.

(** Under a predicate that rejects every pair of nodes no mapping of a
    node exists, and the self-match of a one-node graph is empty.  Under
    a predicate that is not transitive an automorphism of the pattern may
    send a mapping of the unreduced result out of it: the two nodes of
    [pattern_pair] are of the same kind, of the two mappings into
    [host_triple] one is in canonical order and the other is not, and
    they do not differ by the exchange of the two nodes, so the class of
    the second has no representative. *)
Lemma find_subgraphs_symmetry_counterexample :
  length (find_subgraphs (λ _ _, false) single_node single_node true) ≠ 1 ∧
  (∀ a, close_resid a a = true) ∧
  find_subgraphs close_resid host_triple pattern_pair true = [pair_kept] ∧
  pair_cut ∈ find_subgraphs close_resid host_triple pattern_pair false ∧
  ¬ equivalent close_resid pattern_pair pair_kept pair_cut.
Proof.
  split_and!.
  - vm_compute. discriminate.
  - intros a. unfold close_resid. apply bool_decide_eq_true.
    rewrite Z.sub_diag. simpl. lia.
  - vm_compute. reflexivity.
  - by_compute.
  - by_compute.
Qed.

(** ** The resolver on the scenarios *)

Lemma identify_ptms_step iso fuel residue rp options :
  nothing_left rp = false →
  identify_ptms iso (S fuel) residue rp options
  = try_options iso (identify_ptms iso fuel residue) residue rp options
      (enumerate_from 0 options).
Proof. intros Hleft. simpl. by rewrite Hleft. Qed.

Lemma try_options_accept iso recurse residue rp options idx ptm matcher todo i m :
  list_find (λ m : gmap nat nat, dom m ⊆ available_atoms residue rp) (iso matcher)
    = Some (i, m) →
  try_options iso recurse residue rp options ((idx, (ptm, matcher)) :: todo)
  = (recurse (remove_matching (dom m) rp) (drop idx options)
     ≫= λ rest, Ok ((ptm, m) :: rest)).
Proof. intros Hfind. simpl. by rewrite Hfind. Qed.

(** A candidate without flagged atoms is accepted again and again: its
    embedding consumes no unresolved atom, and the recursion never
    reaches its base case. *)
Lemma identify_ptms_diverges fuel :
  identify_ptms nx_subgraph_isomorphisms fuel residue_chain islands_chain
    options_anchor = OutOfFuel.
Proof.
  induction fuel as [|fuel IH]; [vm_compute; reflexivity|].
  rewrite identify_ptms_step by (vm_compute; reflexivity).
  unfold options_anchor at 2. simpl enumerate_from.
  erewrite try_options_accept by (vm_compute; reflexivity).
  replace (remove_matching _ islands_chain) with islands_chain
    by (vm_compute; reflexivity).
  rewrite drop_0. by rewrite IH.
Qed.

(** Scenario A: the N-terminus is recognised, [HN] becomes [HN1], and
    every atom of the residue gets the pattern in its [modifications]. *)
Lemma fix_ptm_nterm :
  ∃ st', fix_ptm nx_subgraph_isomorphisms ascending_first 3 state_nterm = Ok st' ∧
    atomname <$> g_nodes (mol st') !! 1 = Some (Some "HN1"%string) ∧
    Forall (λ n, current_modifications st' n = [n_term]) [0; 1; 2; 3].
Proof.
  eexists. split; [vm_compute; reflexivity|].
  split; [vm_compute; reflexivity|].
  repeat constructor; vm_compute; reflexivity.
Qed.

(** ** Islands: what the traversal guarantees *)

Lemma scan_children_new children visited new visited' :
  scan_children children visited = (new, visited') →
  ∀ c, c ∈ new → c ∈ children.
Proof.
  revert visited new visited'.
  induction children as [|child rest IH]; intros visited new visited'; simpl.
  - intros [= <- <-] c Hc. done.
  - case_decide.
    + intros Hscan c Hc. right. by eapply IH.
    + destruct (scan_children rest ({[child]} ∪ visited)) as [new0 v0] eqn:E.
      intros [= <- <-] c [->|Hc]%elem_of_cons; [by left|].
      right. by eapply IH.
Qed.

Lemma bfs_loop_edges fuel g visited queue edges :
  bfs_loop fuel g visited queue = Some edges →
  ∀ p c, (p, c) ∈ edges → c ∈ neighbors g p.
Proof.
  revert visited queue edges.
  induction fuel as [|fuel IH]; intros visited queue edges;
    destruct queue as [|parent queue]; simpl; try done.
  - intros [= <-] p c []%elem_of_nil.
  - intros [= <-] p c []%elem_of_nil.
  - destruct (scan_children (neighbors g parent) visited) as [new v'] eqn:E.
    destruct (bfs_loop fuel g v' (queue ++ new)) as [rest|] eqn:Hrest; simpl; [|done].
    intros [= <-] p c [Hin|Hin]%elem_of_app.
    + apply list_elem_of_fmap in Hin as (c' & [= -> ->] & Hc).
      by eapply scan_children_new.
    + by eapply IH.
Qed.

Lemma group_successors_elem parent children edges p cs c :
  (p, cs) ∈ group_successors parent children edges → c ∈ cs →
  (p = parent ∧ c ∈ children) ∨ (p, c) ∈ edges.
Proof.
  revert parent children.
  induction edges as [|[p' c'] edges IH]; intros parent children; simpl.
  - intros [= -> ->]%list_elem_of_singleton Hc. by left.
  - case_decide as Hp.
    + subst p'. intros Hin Hc. destruct (IH _ _ Hin Hc) as [[-> Hc']|Hc'].
      * apply elem_of_app in Hc' as [Hc'|Hc'].
        -- by left.
        -- apply list_elem_of_singleton in Hc' as ->. right. by left.
      * right. by right.
    + intros [[= -> ->]|Hin]%elem_of_cons Hc; [by left|].
      destruct (IH _ _ Hin Hc) as [[-> Hc']|Hc'].
      * apply list_elem_of_singleton in Hc' as ->. right. by left.
      * right. by right.
Qed.

Lemma bfs_successors_neighbors g source succs p cs c :
  bfs_successors g source = Some succs →
  (p, cs) ∈ succs → c ∈ cs → c ∈ neighbors g p.
Proof.
  unfold bfs_successors, bfs_edges.
  destruct (bfs_loop _ g {[source]} [source]) as [edges|] eqn:E; simpl; [|done].
  intros [= <-] Hin Hc.
  destruct (group_successors_elem _ _ _ _ _ _ Hin Hc) as [[_ []%elem_of_nil]|Hedge].
  by eapply bfs_loop_edges.
Qed.

Lemma island_step_mono g (atoms atoms' : gset nat) u v :
  atoms ⊆ atoms' → rtc (island_step g atoms) u v → rtc (island_step g atoms') u v.
Proof.
  intros Hsub. apply rtc_subrel. intros x y [Hy Hn]. split; [set_solver|done].
Qed.

Lemma traverse_linked g extra first succs to_see atoms anchors atoms' anchors' :
  (∀ p cs c, (p, cs) ∈ succs → c ∈ cs → c ∈ neighbors g p) →
  first ∈ extra →
  atoms ⊆ extra →
  (∀ x, x ∈ to_see → x = first ∨ ∃ p, p ∈ atoms ∧ x ∈ neighbors g p) →
  (∀ x, x ∈ atoms → rtc (island_step g atoms) first x) →
  (∀ a, a ∈ anchors → (a ∉ extra) ∧ ∃ p, p ∈ atoms ∧ a ∈ neighbors g p) →
  traverse extra succs to_see atoms anchors = Ok (atoms', anchors') →
  atoms' ⊆ extra ∧
  (∀ x, x ∈ atoms' → rtc (island_step g atoms') first x) ∧
  (∀ a, a ∈ anchors' → (a ∉ extra) ∧ ∃ p, p ∈ atoms' ∧ a ∈ neighbors g p).
Proof.
  revert to_see atoms anchors.
  induction succs as [|[orig succ] succs IH];
    intros to_see atoms anchors Hsuccs Hfirst Hsub Hsee Hatoms Hanchors; simpl.
  { intros [= <- <-]. done. }
  case_decide as Horig; [|done].
  assert (Hsuccs' : ∀ p cs c, (p, cs) ∈ succs → c ∈ cs → c ∈ neighbors g p).
  { intros p cs c Hin. apply (Hsuccs p cs c). by right. }
  case_decide as Hextra.
  - assert (Hsub2 : {[orig]} ∪ atoms ⊆ extra) by set_solver.
    assert (Hatoms2 : ∀ x, x ∈ {[orig]} ∪ atoms →
              rtc (island_step g ({[orig]} ∪ atoms)) first x).
    { intros x [->%elem_of_singleton|Hx]%elem_of_union.
      - destruct (Hsee _ Horig) as [->|(p & Hp & Hn)]; [done|].
        eapply rtc_r.
        + eapply (island_step_mono g atoms); [set_solver|]. by apply Hatoms.
        + split; [set_solver|done].
      - eapply (island_step_mono g atoms); [set_solver|]. by apply Hatoms. }
    assert (Hanchors2 : ∀ a, a ∈ anchors →
              (a ∉ extra) ∧ ∃ p, p ∈ {[orig]} ∪ atoms ∧ a ∈ neighbors g p).
    { intros a Ha. destruct (Hanchors a Ha) as (? & p & ? & ?).
      split; [done|]. exists p. split; [set_solver|done]. }
    case_decide.
    + intros [= <- <-]. done.
    + apply IH; try done.
      intros x [[Hx _]%elem_of_difference|Hx%elem_of_list_to_set]%elem_of_union.
      * destruct (Hsee x Hx) as [->|(p & Hp & Hn)]; [by left|].
        right. exists p. split; [set_solver|done].
      * right. exists orig. split; [set_solver|].
        apply (Hsuccs orig succ x); [by left|done].
  - assert (Hanchors2 : ∀ a, a ∈ {[orig]} ∪ anchors →
              (a ∉ extra) ∧ ∃ p, p ∈ atoms ∧ a ∈ neighbors g p).
    { intros a [->%elem_of_singleton|Ha]%elem_of_union; [|by apply Hanchors].
      split; [done|].
      destruct (Hsee _ Horig) as [->|Hp]; [done|exact Hp]. }
    case_decide.
    + intros [= <- <-]. done.
    + apply IH; try done.
      intros x [Hx _]%elem_of_difference. by apply Hsee.
Qed.

Lemma island_from_anchored molecule extra first atoms anchors :
  first ∈ extra →
  island_from molecule extra first = Ok (atoms, anchors) →
  anchored molecule (atoms, anchors).
Proof.
  intros Hfirst Hrun.
  destruct (island_from_seed _ _ _ _ _ Hfirst Hrun) as [Hseed Hsub].
  unfold island_from in Hrun.
  destruct (bfs_successors molecule first) as [succs|] eqn:Hbfs; [|done].
  apply (traverse_linked molecule extra first) in Hrun
    as (_ & Hlinked & Hanchors); try done.
  - split_and!; simpl.
    + intros a Ha Ha'. destruct (Hanchors a Ha) as [Hn _]. set_solver.
    + intros a Ha. by destruct (Hanchors a Ha).
    + by exists first.
  - intros p cs c. by apply (bfs_successors_neighbors molecule first succs).
  - intros x ->%elem_of_singleton. by left.
Qed.

Lemma find_PTM_loop_each next_iter (P : Island → Prop) molecule fuel extra PTMs islands :
  (∀ s : gset nat, s ≠ ∅ → next_iter s ∈ s) →
  (∀ extra' first island, first ∈ extra' →
     island_from molecule extra' first = Ok island → P island) →
  find_PTM_loop next_iter fuel molecule extra PTMs = Ok islands →
  Forall P PTMs → Forall P islands.
Proof.
  intros Hpick HP. revert extra PTMs.
  induction fuel as [|fuel IH]; intros extra PTMs; simpl.
  - case_decide; [|done]. by intros [= <-].
  - case_decide as Hne; [by intros [= <-]|].
    destruct (island_from molecule extra (next_iter extra))
      as [[atoms anchors]| |] eqn:E; simpl; try done.
    intros Hrun HPTMs. apply (IH _ _ Hrun).
    apply Forall_app. split; [done|]. constructor; [|constructor].
    eapply HP; [|exact E]. by apply Hpick.
Qed.

Lemma size_union_list_disjoint (sets : list (gset nat)) :
  pairwise_disjoint sets → Forall (λ X, X ≠ ∅) sets →
  length sets ≤ size (⋃ sets).
Proof.
  induction sets as [|X sets IH]; simpl; [lia|].
  intros [Hdisj Hrest] [HX Hsets]%Forall_cons.
  rewrite size_union.
  - assert (size X ≠ 0); [|specialize (IH Hrest Hsets); lia].
    intros ?%size_empty_iff. by apply HX, leibniz_equiv.
  - apply elem_of_disjoint. intros x Hx (Y & HY & HxY)%elem_of_union_list.
    rewrite Forall_forall in Hdisj. specialize (Hdisj Y HY). set_solver.
Qed.

Lemma find_PTM_atoms_nonempty next_iter molecule islands :
  (∀ s : gset nat, s ≠ ∅ → next_iter s ∈ s) →
  find_PTM_atoms next_iter molecule = Ok islands →
  Forall (λ island : Island, island.1 ≠ ∅) islands.
Proof.
  intros Hpick Hrun. unfold find_PTM_atoms in Hrun.
  eapply (find_PTM_loop_each next_iter); [done| |exact Hrun|constructor].
  intros extra' first [atoms anchors] Hfirst Hisland.
  apply island_from_seed in Hisland as [Hseed _]; [|done]. set_solver.
Qed.

(** X1: the islands found by [find_PTM_atoms] partition the flagged
    nodes.  Whenever the function returns, the first parts of the islands
    are pairwise disjoint, none is empty, their union is the set of the
    nodes with a true [PTM_atom], and so there are at most as many
    islands as flagged nodes. *)
Theorem find_PTM_atoms_islands (next_iter : gset nat → nat) (molecule : Graph)
    (islands : list Island) :
  (∀ s : gset nat, s ≠ ∅ → next_iter s ∈ s) →
  find_PTM_atoms next_iter molecule = Ok islands →
  pairwise_disjoint islands.*1 ∧
  ⋃ islands.*1 = flagged_nodes molecule ∧
  Forall (λ island : Island, island.1 ≠ ∅) islands ∧
  length islands ≤ size (flagged_nodes molecule).
Proof.
  intros Hpick Hrun.
  destruct (find_PTM_atoms_partition _ _ _ Hrun) as [Hdisj Hunion].
  pose proof (find_PTM_atoms_nonempty _ _ _ Hpick Hrun) as Hne.
  split_and!; try done.
  rewrite <- Hunion.
  pose proof (size_union_list_disjoint islands.*1 Hdisj) as Hlen.
  rewrite length_fmap in Hlen. apply Hlen. by apply Forall_fmap.
Qed.

Lemma find_PTM_atoms_islands_witness :
  ∃ islands, find_PTM_atoms ascending_first mol_nterm = Ok islands ∧
    ⋃ islands.*1 = flagged_nodes mol_nterm ∧ length islands ≤ 2.
Proof.
  eexists. split; [vm_compute; reflexivity|].
  destruct (find_PTM_atoms_islands ascending_first mol_nterm _
              ascending_first_elem ltac:(vm_compute; reflexivity))
    as (_ & Hunion & _ & Hlen).
  split; [exact Hunion|]. exact Hlen.
Defined.

(** X2: what the traversal guarantees for every island it returns.  The
    anchors of an island are none of its atoms, every anchor is a
    neighbour of an atom of the island, and every atom of the island is
    reached from one seed atom by steps between neighbours that stay
    inside the island. *)
Theorem find_PTM_atoms_anchored (next_iter : gset nat → nat) (molecule : Graph)
    (islands : list Island) :
  (∀ s : gset nat, s ≠ ∅ → next_iter s ∈ s) →
  find_PTM_atoms next_iter molecule = Ok islands →
  Forall (anchored molecule) islands.
Proof.
  intros Hpick Hrun. unfold find_PTM_atoms in Hrun.
  eapply (find_PTM_loop_each next_iter); [done| |exact Hrun|constructor].
  intros extra' first [atoms anchors]. apply island_from_anchored.
Qed.

Lemma find_PTM_atoms_anchored_witness :
  ∃ islands, find_PTM_atoms ascending_first mol_nterm = Ok islands ∧
    Forall (anchored mol_nterm) islands.
Proof.
  eexists. split; [vm_compute; reflexivity|].
  apply (find_PTM_atoms_anchored ascending_first mol_nterm _ ascending_first_elem).
  vm_compute. reflexivity.
Defined.

(** ** The resolver: what it reads, how much it returns *)

Lemma nothing_left_pooled rp1 rp2 :
  remaining rp1 = remaining rp2 → nothing_left rp1 = nothing_left rp2.
Proof.
  intros Heq. destruct (nothing_left rp1) eqn:E1, (nothing_left rp2) eqn:E2; try done.
  - apply nothing_left_true in E1. rewrite Heq in E1.
    apply nothing_left_true in E1. congruence.
  - apply nothing_left_true in E2. rewrite <- Heq in E2.
    apply nothing_left_true in E2. congruence.
Qed.

Lemma try_options_pooled iso rec1 rec2 residue rp1 rp2 options todo :
  remaining rp1 = remaining rp2 →
  (∀ X options', rec1 (remove_matching X rp1) options'
                 = rec2 (remove_matching X rp2) options') →
  try_options iso rec1 residue rp1 options todo
  = try_options iso rec2 residue rp2 options todo.
Proof.
  intros Heq Hrec.
  assert (Hav : available_atoms residue rp1 = available_atoms residue rp2)
    by (unfold available_atoms; by rewrite Heq).
  induction todo as [|[idx [ptm matcher]] todo IH]; simpl; [done|].
  rewrite Hav.
  destruct (list_find _ (iso matcher)) as [[i m]|]; [|done].
  by rewrite Hrec.
Qed.

(** X3: [identify_ptms] reads nothing of its [residue_ptms] argument but
    the union of the islands' atoms.  Two lists of islands with the same
    pooled atoms give the same outcome, whatever their anchors and
    however the atoms are split over the islands. *)
Theorem identify_ptms_pooled (iso : PTMGraphMatcher → list Match) (fuel : nat)
    (residue : Graph) (rp1 rp2 : list Island)
    (options : list (Graph * PTMGraphMatcher)) :
  remaining rp1 = remaining rp2 →
  identify_ptms iso fuel residue rp1 options
  = identify_ptms iso fuel residue rp2 options.
Proof.
  revert rp1 rp2 options.
  induction fuel as [|fuel IH]; intros rp1 rp2 options Heq; simpl;
    rewrite (nothing_left_pooled rp1 rp2 Heq); [done|].
  destruct (nothing_left rp2); [done|].
  apply try_options_pooled; [done|].
  intros X options'. apply IH. by rewrite !remaining_remove_matching, Heq.
Qed.

Lemma identify_ptms_pooled_witness :
  identify_ptms nx_subgraph_isomorphisms 3 residue_dimethyl islands_dimethyl
    options_dimethyl
  = identify_ptms nx_subgraph_isomorphisms 3 residue_dimethyl islands_pooled
      options_dimethyl.
Proof.
  apply (identify_ptms_pooled nx_subgraph_isomorphisms 3 residue_dimethyl
           islands_dimethyl islands_pooled options_dimethyl).
  vm_compute. reflexivity.
Defined.

Lemma resolved_length iso residue options U r :
  progress iso residue options →
  resolved iso residue options U r → length r ≤ size U.
Proof.
  intros Hprog Hres.
  induction Hres as [|options U idx ptm matcher m rest Hidx Hm Hsub Hrest IH];
    simpl; [lia|].
  destruct (Hprog ptm matcher m) as (a & Ha & Hna);
    [by eapply list_elem_of_lookup_2|done|].
  assert (size (U ∖ dom m) < size U) by (apply subset_size; set_solver).
  assert (length rest ≤ size (U ∖ dom m)); [|lia].
  apply IH. intros ptm' matcher' m' Hin. apply (Hprog ptm' matcher' m').
  by eapply subseteq_drop.
Qed.

(** X4: when every embedding of every candidate maps an atom that is not
    a non-PTM atom of the residue, [identify_ptms] never returns more
    matches than there are unresolved atoms in the group. *)
Theorem identify_ptms_length (iso : PTMGraphMatcher → list Match) (fuel : nat)
    (residue : Graph) (residue_ptms : list Island)
    (options : list (Graph * PTMGraphMatcher)) (identified : list (Graph * Match)) :
  progress iso residue options →
  identify_ptms iso fuel residue residue_ptms options = Ok identified →
  length identified ≤ size (remaining residue_ptms).
Proof.
  intros Hprog Hrun. eapply resolved_length; [done|].
  by eapply identify_ptms_resolved.
Qed.

Lemma identify_ptms_length_witness :
  length identified_dimethyl ≤ size (remaining islands_dimethyl).
Proof.
  apply (identify_ptms_length nx_subgraph_isomorphisms 3 residue_dimethyl
           islands_dimethyl options_dimethyl identified_dimethyl).
  - exact progress_dimethyl.
  - vm_compute. reflexivity.
Defined.

Lemma chosen_from_positions iso options lo identified :
  chosen_from iso options lo identified →
  Forall (λ pm : Graph * Match,
            ∃ idx matcher, lo ≤ idx ∧ options !! idx = Some (pm.1, matcher))
         identified.
Proof.
  revert lo. induction identified as [|[ptm m] identified IH]; intros lo; simpl.
  - constructor.
  - intros (idx & matcher & Hlo & Hidx & _ & Hrest). constructor.
    + by exists idx, matcher.
    + eapply Forall_impl; [by apply IH|]. simpl.
      intros pm (idx' & matcher' & ? & ?). exists idx', matcher'. split; [lia|done].
Qed.

Lemma StronglySorted_lookup_le {A} (R : relation A) l i j x y :
  (∀ z, R z z) →
  StronglySorted R l → i ≤ j → l !! i = Some x → l !! j = Some y → R x y.
Proof.
  intros Hrefl Hsorted. revert i j. induction Hsorted as [|z l Hl IH Hz]; intros i j Hij.
  - by rewrite lookup_nil.
  - destruct i as [|i], j as [|j]; simpl; try lia.
    + intros [= ->] [= ->]. apply Hrefl.
    + intros [= ->] Hy. rewrite Forall_forall in Hz. apply Hz.
      by eapply list_elem_of_lookup_2.
    + apply IH. lia.
Qed.

Lemma chosen_from_sorted iso options lo identified :
  StronglySorted (λ a b : Graph * PTMGraphMatcher, graph_len a.1 ≤ graph_len b.1) options →
  chosen_from iso options lo identified →
  StronglySorted (λ a b : Graph * Match, graph_len a.1 ≤ graph_len b.1) identified.
Proof.
  intros Hsorted. revert lo.
  induction identified as [|[ptm m] identified IH]; intros lo; simpl.
  - constructor.
  - intros (idx & matcher & Hlo & Hidx & _ & Hrest). constructor; [by eapply IH|].
    eapply Forall_impl; [by apply chosen_from_positions in Hrest|]. simpl.
    intros pm (idx' & matcher' & Hle & Hidx').
    apply (StronglySorted_lookup_le
             (λ a b : Graph * PTMGraphMatcher, graph_len a.1 ≤ graph_len b.1)
             options idx idx' (ptm, matcher) (pm.1, matcher')); try done.
Qed.

(** X5: in a residue group the patterns are applied in ascending order of
    size.  The matches that [identify_ptms] returns on the candidates of
    [fix_ptm] come with patterns whose numbers of nodes never decrease
    along the list: a smaller pattern is always consumed before a larger
    one. *)
Theorem identify_ptms_ascending (iso : PTMGraphMatcher → list Match)
    (fuel : nat) (molecule : Graph) (n_idxs : gset nat)
    (res_ptms residue_ptms : list Island) (known_PTMs : list Graph)
    (identified : list (Graph * Match)) :
  identify_ptms iso fuel (subgraph molecule n_idxs) residue_ptms
    (candidates iso molecule n_idxs res_ptms known_PTMs) = Ok identified →
  StronglySorted (λ a b : Graph * Match, graph_len a.1 ≤ graph_len b.1) identified.
Proof.
  intros Hrun. apply identify_ptms_resolved in Hrun.
  eapply (chosen_from_sorted iso _ 0).
  - apply (sorted_by_sorted (λ opt : Graph * PTMGraphMatcher, graph_len opt.1)).
  - by eapply (resolved_chosen_from iso _ _ 0).
Qed.

Lemma identify_ptms_ascending_witness :
  StronglySorted (λ a b : Graph * Match, graph_len a.1 ≤ graph_len b.1)
    identified_dimethyl.
Proof.
  apply (identify_ptms_ascending nx_subgraph_isomorphisms 3 mol_dimethyl
           group_chain islands_dimethyl islands_dimethyl [ethyl; methyl]).
  vm_compute. reflexivity.
Defined.

Lemma ascending_nodes_perm g : ascending_nodes g ≡ₚ node_list g.
Proof. apply (sorted_by_perm id). Qed.

Lemma filter_ne_perm (v : nat) (l : list nat) :
  NoDup l → v ∈ l → v :: filter (λ u, u ≠ v) l ≡ₚ l.
Proof.
  induction 1 as [|x l Hx Hnd IH]; [by intros ?%elem_of_nil|].
  rewrite filter_cons. intros [->|Hv]%elem_of_cons.
  - rewrite decide_False by naive_solver. f_equiv.
    clear IH Hnd. induction l as [|y l IH]; [done|].
    rewrite filter_cons, decide_True by set_solver. f_equiv. apply IH. set_solver.
  - rewrite decide_True by (intros ->; done).
    rewrite Permutation_swap. f_equiv. by apply IH.
Qed.

Lemma next_node_elem g unmatched core v :
  next_node g unmatched core = Some v → v ∈ unmatched.
Proof.
  unfold next_node.
  destruct (filter (on_frontier g core) unmatched) as [|w ws] eqn:E.
  - destruct unmatched; [done|]. intros [= ->]. by left.
  - intros [= ->].
    assert (v ∈ filter (on_frontier g core) unmatched) as Hin by (rewrite E; by left).
    by apply list_elem_of_filter in Hin as [_ ?].
Qed.

Lemma next_node_None g unmatched core :
  next_node g unmatched core = None → unmatched = [].
Proof.
  unfold next_node. destruct (filter _ unmatched); [|done]. by destruct unmatched.
Qed.

Lemma matching_order_loop_perm fuel g unmatched core :
  NoDup unmatched → length unmatched ≤ fuel →
  matching_order_loop fuel g unmatched core ≡ₚ unmatched.
Proof.
  revert unmatched core. induction fuel as [|fuel IH]; intros unmatched core Hnd Hlen.
  - destruct unmatched; [done|simpl in Hlen; lia].
  - simpl. destruct (next_node g unmatched core) as [v|] eqn:Hnext.
    + apply next_node_elem in Hnext.
      pose proof (filter_ne_perm v unmatched Hnd Hnext) as Hperm.
      rewrite <- Hperm at 2. f_equiv. apply IH.
      * by apply NoDup_filter.
      * apply Permutation_length in Hperm. simpl in Hperm. lia.
    + by apply next_node_None in Hnext as ->.
Qed.

Lemma matching_order_perm g : matching_order g ≡ₚ node_list g.
Proof.
  unfold matching_order. rewrite matching_order_loop_perm.
  - apply ascending_nodes_perm.
  - rewrite ascending_nodes_perm. apply NoDup_node_list.
  - done.
Qed.

Lemma nx_isomorphisms_elem matcher (m : gmap nat nat) :
  m ∈ nx_subgraph_isomorphisms matcher ↔
  ∃ m0, m = invert m0 ∧ nx_isomorphism matcher m0 ∧
        dom m0 = dom (g_nodes (G2 matcher)) ∧
        ∀ p h, m0 !! p = Some h → h ∈ dom (g_nodes (G1 matcher)).
Proof.
  unfold nx_subgraph_isomorphisms. rewrite list_elem_of_fmap.
  assert (Hnd : NoDup (matching_order (G2 matcher))).
  { rewrite matching_order_perm. apply NoDup_node_list. }
  split; intros (m0 & -> & Hm0); exists m0; (split; [done|]).
  - apply list_elem_of_filter in Hm0 as [Hiso Hin].
    apply (elem_of_all_assignments _ _ _ Hnd) in Hin as [Hdom Hval].
    split_and!; [done| |].
    + rewrite Hdom, matching_order_perm. apply list_to_set_node_list.
    + intros p h Hp. apply elem_of_node_list.
      rewrite <- ascending_nodes_perm. by eapply Hval.
  - destruct Hm0 as (Hiso & Hdom & Hval). apply list_elem_of_filter. split; [done|].
    apply (elem_of_all_assignments _ _ _ Hnd). split.
    + rewrite Hdom, matching_order_perm. symmetry. apply list_to_set_node_list.
    + intros p h Hp. rewrite ascending_nodes_perm. apply elem_of_node_list.
      by eapply Hval.
Qed.

Lemma nx_matcher_contract : matcher_contract nx_subgraph_isomorphisms.
Proof.
  intros matcher m (m0 & -> & Hiso & Hdom & _)%nx_isomorphisms_elem.
  destruct Hiso as (Hinj & _ & Hsem). split.
  - intros p Hp.
    assert (is_Some (m0 !! p)) as [h Hh] by (apply elem_of_dom; by rewrite Hdom).
    exists h. by apply lookup_invert.
  - intros h p Hhp. apply (lookup_invert _ _ _ Hinj) in Hhp.
    apply (map_Forall_lookup_1 _ _ _ _ Hsem Hhp).
Qed.

Lemma feasible_spec residue ptm h p :
  compatible feasible residue ptm h p = true ↔
  semantic_feasibility (MkMatcher residue ptm) h p = Ok true.
Proof.
  unfold compatible, semantic_feasibility, feasible. simpl.
  destruct (g_nodes residue !! h) as [a|]; [|done].
  destruct (g_nodes ptm !! p) as [b|]; [|done]. simpl.
  destruct (PTM_atom b) as [flag2|]; [|done]. simpl.
  destruct (bool_decide (flagged a = flag2)); [|done]. simpl.
  destruct flag2.
  - destruct (element a), (element b); simpl; try done.
    split; [by intros ->|by intros [= ->]].
  - destruct (atomname a), (atomname b); simpl; try done.
    split; [by intros ->|by intros [= ->]].
Qed.

(** The matcher of [canonize_PTMs.py] and the independent search of the
    tests are one and the same search of [networkx]: under the predicate
    of [semantic_feasibility] the dictionaries of the first are the
    inverses of the mappings of the second. *)
Lemma brute_force_networkx matcher (m : gmap nat nat) :
  m ∈ nx_subgraph_isomorphisms matcher ↔
  ∃ m0, m = invert m0 ∧ m0 ∈ brute_force feasible (G1 matcher) (G2 matcher).
Proof.
  rewrite nx_isomorphisms_elem. destruct matcher as [residue ptm]. simpl.
  split.
  - intros (m0 & -> & (Hinj & Hedges & Hsem) & Hdom & _). exists m0.
    split; [done|]. apply elem_of_brute_force. split; [|done].
    split_and!; [done..|]. apply respects_compat_lookup. intros p h Hp.
    apply feasible_spec. apply (map_Forall_lookup_1 _ _ _ _ Hsem Hp).
  - intros (m0 & -> & Hm0). exists m0. split; [done|].
    pose proof (brute_force_img _ _ _ _ Hm0) as Himg.
    apply elem_of_brute_force in Hm0 as [(Hinj & Hedges & Hcompat) Hdom].
    split_and!; [split_and!|done|done]; [done..|].
    apply map_Forall_lookup_2. intros p h Hp. apply feasible_spec.
    by apply (map_Forall_lookup_1 _ _ _ _ Hcompat Hp).
Qed.

Lemma semantic_feasibility_flagged matcher h p a :
  g_nodes (G2 matcher) !! p = Some a → PTM_atom a = Some true →
  semantic_feasibility matcher h p = Ok true →
  node_flagged (G1 matcher) h = true.
Proof.
  intros Hp Hflag. unfold semantic_feasibility, node_flagged.
  destruct (g_nodes (G1 matcher) !! h) as [b|]; simpl; [|done].
  rewrite Hp; simpl. rewrite Hflag; simpl.
  case_bool_decide; [done|]. by intros [=].
Qed.

Lemma candidates_progress iso molecule n_idxs res_ptms known_PTMs :
  matcher_contract iso → Forall has_PTM_atom known_PTMs →
  progress iso (subgraph molecule n_idxs)
    (candidates iso molecule n_idxs res_ptms known_PTMs).
Proof.
  intros Hiso Hknown ptm matcher m Hin Hm. unfold candidates in Hin.
  rewrite sorted_by_perm in Hin.
  pose proof (allowed_ptms_matchers iso (subgraph molecule n_idxs) res_ptms known_PTMs)
    as Hmatchers.
  rewrite Forall_forall in Hmatchers. specialize (Hmatchers _ Hin). simpl in Hmatchers.
  assert (Hptm : ptm ∈ known_PTMs).
  { assert (ptm ∈ (allowed_ptms iso (subgraph molecule n_idxs) res_ptms known_PTMs).*1)
      as Hfst by (apply list_elem_of_fmap; by exists (ptm, matcher)).
    rewrite allowed_ptms_patterns in Hfst. by apply list_elem_of_filter in Hfst as [_ ?]. }
  rewrite Forall_forall in Hknown. destruct (Hknown _ Hptm) as (p & a & Hp & Hflag).
  destruct (Hiso matcher m Hm) as [Honto Hsem]. subst matcher. simpl in *.
  destruct (Honto p) as [h Hh]; [by apply elem_of_dom|].
  exists h. split; [by apply elem_of_dom|].
  pose proof (semantic_feasibility_flagged (MkMatcher (subgraph molecule n_idxs) ptm)
                h p a Hp Hflag (Hsem h p Hh)) as Hf.
  unfold node_flagged, plain_nodes in *. simpl in *.
  intros [b Hb]%elem_of_dom. apply map_lookup_filter_Some in Hb as [Hb Hplain].
  simpl in *. rewrite Hb in Hf. congruence.
Qed.

(** X6: the recursion of [identify_ptms] ends on the candidates of
    [fix_ptm].  When the matcher returns only mappings onto all the nodes
    of the pattern whose pairs pass [semantic_feasibility], and every
    pattern of the library has an atom flagged [PTM_atom], every accepted
    match consumes an unresolved atom, and a recursion depth of the
    number of unresolved atoms is enough: the outcome is a result or the
    [KeyError]. *)
Theorem identify_ptms_library_terminates (iso : PTMGraphMatcher → list Match)
    (fuel : nat) (molecule : Graph) (n_idxs : gset nat)
    (res_ptms : list Island) (known_PTMs : list Graph) :
  matcher_contract iso → Forall has_PTM_atom known_PTMs →
  size (remaining res_ptms) ≤ fuel →
  let outcome := identify_ptms iso fuel (subgraph molecule n_idxs) res_ptms
                   (candidates iso molecule n_idxs res_ptms known_PTMs) in
  (∃ identified, outcome = Ok identified) ∨ outcome = Raise could_not_identify.
Proof.
  intros Hiso Hknown Hfuel outcome.
  destruct outcome as [identified|e|] eqn:E.
  - left. by exists identified.
  - right. by apply identify_ptms_Raise in E as ->.
  - exfalso. revert E. apply identify_ptms_no_fuel; [|done].
    by apply candidates_progress.
Qed.

Lemma KNOWN_PTMS_flagged : Forall has_PTM_atom KNOWN_PTMS.
Proof.
  repeat constructor.
  - by exists 2, (ptm_node "HN2" "H" true None).
  - by exists 2, (ptm_node "OC2" "O" true None).
Qed.

Lemma identify_ptms_library_terminates_witness :
  identify_ptms nx_subgraph_isomorphisms 3 (subgraph mol_branch group_chain)
    [({[1; 2; 3]}, {[0]})]
    (candidates nx_subgraph_isomorphisms mol_branch group_chain
       [({[1; 2; 3]}, {[0]})] KNOWN_PTMS) = Raise could_not_identify.
Proof.
  destruct (identify_ptms_library_terminates nx_subgraph_isomorphisms 3
              mol_branch group_chain [({[1; 2; 3]}, {[0]})] KNOWN_PTMS
              nx_matcher_contract KNOWN_PTMS_flagged ltac:(by_compute))
    as [[identified Hrun]|Hrun]; [|exact Hrun].
  vm_compute in Hrun. discriminate Hrun.
Defined.

(** ** What the renaming and the labelling leave alone *)

Lemma same_skeleton_refl g : same_skeleton g g.
Proof. by split_and!. Qed.

Lemma same_skeleton_trans g1 g2 g3 :
  same_skeleton g1 g2 → same_skeleton g2 g3 → same_skeleton g1 g3.
Proof.
  intros (Hn1 & He1 & Ha1) (Hn2 & He2 & Ha2). split_and!; [congruence..|].
  intros n. by rewrite Ha2, Ha1.
Qed.

Lemma same_skeleton_dom g g' :
  same_skeleton g g' → dom (g_nodes g') = dom (g_nodes g).
Proof.
  intros (_ & _ & Ha). apply set_eq. intros n. rewrite !elem_of_dom.
  specialize (Ha n). rewrite <- !(fmap_is_Some kept_attrs). by rewrite Ha.
Qed.

Lemma same_skeleton_flagged g g' :
  same_skeleton g g' → flagged_nodes g' = flagged_nodes g.
Proof.
  intros (_ & _ & Ha). apply set_eq. intros n. unfold flagged_nodes.
  rewrite !elem_of_dom. specialize (Ha n).
  split; intros [a [Hl Hf]%map_lookup_filter_Some]; simpl in *; rewrite Hl in Ha; simpl in Ha.
  - symmetry in Ha. apply fmap_Some in Ha as (b & Hb & Hk).
    exists b. apply map_lookup_filter_Some. split; [done|]. simpl.
    unfold flagged in *. injection Hk as _ _ Hk _. congruence.
  - apply fmap_Some in Ha as (b & Hb & Hk).
    exists b. apply map_lookup_filter_Some. split; [done|]. simpl.
    unfold flagged in *. injection Hk as _ _ Hk _. congruence.
Qed.

Lemma set_node_skeleton g n a b :
  g_nodes g !! n = Some a → kept_attrs b = kept_attrs a →
  same_skeleton g (set_node g n b).
Proof.
  intros Hn Hk. split_and!; [done..|]. intros k. rewrite set_node_lookup.
  case_decide; [subst k|done]. rewrite Hn. simpl. by rewrite Hk.
Qed.

Lemma rename_atom_skeleton molecule ptm i j m1 :
  rename_atom molecule ptm i j = Ok m1 → same_skeleton molecule m1.
Proof.
  intros (mol_node & ptm_node & is_ptm & Hi & _ & _ & Hcase)%rename_atom_Ok.
  destruct (to_rename ptm_node is_ptm); [|subst; apply same_skeleton_refl].
  destruct Hcase as (ptm_name & _ & ->). by eapply set_node_skeleton.
Qed.

Lemma rename_atoms_skeleton molecule ptm items molecule' :
  rename_atoms molecule ptm items = Ok molecule' → same_skeleton molecule molecule'.
Proof.
  revert molecule. induction items as [|[i j] items IH]; intros molecule; simpl.
  - intros [= <-]. apply same_skeleton_refl.
  - destruct (rename_atom molecule ptm i j) as [m1| |] eqn:Hone; simpl; try done.
    intros Hrest. eapply same_skeleton_trans; [by eapply rename_atom_skeleton|by apply IH].
Qed.

Lemma append_modification_Ok st ptm n st' :
  append_modification st ptm n = Ok st' →
  ∃ node l, g_nodes (mol st) !! n = Some node ∧
    mol st' = set_node (mol st) n (with_modifications node l).
Proof.
  unfold append_modification.
  destruct (g_nodes (mol st) !! n) as [node|]; simpl; [|done].
  destruct (modifications node) as [l|]; intros [= <-]; eauto.
Qed.

Lemma append_modification_skeleton st ptm n st' :
  append_modification st ptm n = Ok st' → same_skeleton (mol st) (mol st').
Proof.
  intros (node & l & Hn & ->)%append_modification_Ok. by eapply set_node_skeleton.
Qed.

Lemma append_modifications_skeleton st ptm n_idxs st' :
  append_modifications st ptm n_idxs = Ok st' → same_skeleton (mol st) (mol st').
Proof.
  revert st. induction n_idxs as [|n ns IH]; intros st; simpl.
  - intros [= <-]. apply same_skeleton_refl.
  - destruct (append_modification st ptm n) as [st1| |] eqn:Hone; simpl; try done.
    intros Hrest.
    eapply same_skeleton_trans; [by eapply append_modification_skeleton|by apply IH].
Qed.

Lemma apply_match_skeleton st n_idxs ptm match_ st' :
  apply_match st n_idxs ptm match_ = Ok st' → same_skeleton (mol st) (mol st').
Proof.
  unfold apply_match.
  destruct (rename_atoms (mol st) ptm (map_to_list match_)) as [molecule'| |] eqn:Hren;
    simpl; try done.
  intros Happ. eapply same_skeleton_trans; [by eapply rename_atoms_skeleton|].
  by apply append_modifications_skeleton in Happ.
Qed.

Lemma apply_identified_skeleton st n_idxs identified st' :
  apply_identified st n_idxs identified = Ok st' → same_skeleton (mol st) (mol st').
Proof.
  revert st. induction identified as [|[ptm match_] identified IH]; intros st; simpl.
  - intros [= <-]. apply same_skeleton_refl.
  - destruct (apply_match st n_idxs ptm match_) as [st1| |] eqn:Hone; simpl; try done.
    intros Hrest.
    eapply same_skeleton_trans; [by eapply apply_match_skeleton|by apply IH].
Qed.

(** X7: applying the identified matches of a residue group changes
    nothing but [atomname], [graph] and [modifications].  The name of the
    molecule, its edges and its set of nodes stay as they were, and every
    node keeps its [resid], [element], [PTM_atom] and [rename]; so the
    nodes flagged [PTM_atom] before are exactly those flagged after. *)
Theorem apply_identified_frame (st : MolState) (n_idxs : gset nat)
    (identified : list (Graph * Match)) (st' : MolState) :
  apply_identified st n_idxs identified = Ok st' →
  g_name (mol st') = g_name (mol st) ∧
  g_edges (mol st') = g_edges (mol st) ∧
  dom (g_nodes (mol st')) = dom (g_nodes (mol st)) ∧
  (∀ n, kept_attrs <$> g_nodes (mol st') !! n = kept_attrs <$> g_nodes (mol st) !! n) ∧
  flagged_nodes (mol st') = flagged_nodes (mol st).
Proof.
  intros Hskel%apply_identified_skeleton.
  pose proof (same_skeleton_dom _ _ Hskel).
  pose proof (same_skeleton_flagged _ _ Hskel).
  destruct Hskel as (? & ? & ?). done.
Qed.

Lemma apply_identified_frame_witness :
  ∃ st', apply_identified state_nterm group_nterm identified_nterm = Ok st' ∧
    flagged_nodes (mol st') = flagged_nodes mol_nterm.
Proof.
  eexists. split; [vm_compute; reflexivity|].
  apply (apply_identified_frame state_nterm group_nterm identified_nterm).
  vm_compute. reflexivity.
Defined.

Lemma rename_atoms_elsewhere molecule ptm items molecule' n :
  rename_atoms molecule ptm items = Ok molecule' → n ∉ items.*1 →
  g_nodes molecule' !! n = g_nodes molecule !! n.
Proof.
  revert molecule. induction items as [|[i j] items IH]; intros molecule; simpl.
  - by intros [= <-].
  - destruct (rename_atom molecule ptm i j) as [m1| |] eqn:Hone; simpl; try done.
    intros Hrest Hn. rewrite (IH _ Hrest) by set_solver.
    apply rename_atom_frame in Hone as (_ & _ & Hout & _). apply Hout. set_solver.
Qed.

Lemma append_modifications_elsewhere st ptm n_idxs st' n :
  append_modifications st ptm n_idxs = Ok st' → n ∉ n_idxs →
  g_nodes (mol st') !! n = g_nodes (mol st) !! n.
Proof.
  revert st. induction n_idxs as [|k ks IH]; intros st; simpl.
  - by intros [= <-].
  - destruct (append_modification st ptm k) as [st1| |] eqn:Hone; simpl; try done.
    intros Hrest Hn. rewrite (IH _ Hrest) by set_solver.
    apply append_modification_Ok in Hone as (node & l & _ & ->).
    rewrite set_node_lookup. rewrite decide_False; [done|set_solver].
Qed.

Lemma apply_match_untouched st n_idxs ptm (match_ : Match) st' n :
  apply_match st n_idxs ptm match_ = Ok st' →
  n ∉ n_idxs → match_ !! n = None →
  g_nodes (mol st') !! n = g_nodes (mol st) !! n.
Proof.
  unfold apply_match.
  destruct (rename_atoms (mol st) ptm (map_to_list match_)) as [molecule'| |] eqn:Hren;
    simpl; try done.
  intros Happ Hn Hnone.
  rewrite (append_modifications_elsewhere _ _ _ _ n Happ) by set_solver. simpl.
  apply (rename_atoms_elsewhere _ _ _ _ n Hren).
  intros ((i & j) & -> & Hin%elem_of_map_to_list)%list_elem_of_fmap.
  simpl in Hnone. congruence.
Qed.

(** X8: a node that is outside the residue group and that no identified
    match maps is left exactly as it was, with all its attributes. *)
Theorem apply_identified_elsewhere (st : MolState) (n_idxs : gset nat)
    (identified : list (Graph * Match)) (st' : MolState) (n : nat) :
  apply_identified st n_idxs identified = Ok st' →
  n ∉ n_idxs → Forall (λ pm : Graph * Match, pm.2 !! n = None) identified →
  g_nodes (mol st') !! n = g_nodes (mol st) !! n.
Proof.
  intros Hrun Hn. revert st Hrun.
  induction identified as [|[ptm match_] identified IH]; intros st; simpl.
  - by intros [= <-].
  - destruct (apply_match st n_idxs ptm match_) as [st1| |] eqn:Hone; simpl; try done.
    intros Hrest [Hnone Hall]%Forall_cons. simpl in Hnone.
    rewrite (IH _ Hrest Hall). by eapply apply_match_untouched.
Qed.

Lemma apply_identified_elsewhere_witness :
  ∃ st', apply_identified (MkState mol_long_chain ∅) {[0; 1]}
           [(methyl, <[1 := 0]> (<[0 := 1]> ∅))] = Ok st' ∧
    g_nodes (mol st') !! 4 = g_nodes mol_long_chain !! 4.
Proof.
  eexists. split; [vm_compute; reflexivity|].
  apply (apply_identified_elsewhere (MkState mol_long_chain ∅) {[0; 1]}
           [(methyl, <[1 := 0]> (<[0 := 1]> ∅))]).
  - vm_compute. reflexivity.
  - by_compute.
  - repeat constructor.
Defined.

(** ** When the renaming and the labelling go through *)

Lemma rename_atom_succeeds molecule ptm i j :
  (∃ m1, rename_atom molecule ptm i j = Ok m1) ↔ can_rename molecule ptm i j.
Proof.
  unfold rename_atom, can_rename. split.
  - intros [m1 Hrun].
    destruct (g_nodes ptm !! j) as [ptm_node|]; simpl in *; [|done].
    destruct (g_nodes molecule !! i) as [mol_node|]; simpl in *; [|done].
    destruct (PTM_atom ptm_node) as [is_ptm|] eqn:Hflag; simpl in *; [|done].
    exists mol_node, ptm_node, is_ptm. split_and!; try done.
    intros Hren%to_rename_true. rewrite Hren in Hrun.
    destruct (atomname ptm_node); simpl in *; [|done].
    destruct (atomname mol_node); simpl in *; [|done]. eauto.
  - intros (mol_node & ptm_node & is_ptm & -> & -> & Hflag & Hren). simpl.
    rewrite Hflag. simpl. destruct (to_rename ptm_node is_ptm) eqn:Hcond; [|eauto].
    apply to_rename_true in Hcond.
    destruct (Hren Hcond) as [[ptm_name ->] [old_name ->]]. simpl. eauto.
Qed.

Lemma can_rename_ext m1 m2 ptm i j :
  g_nodes m1 !! i = g_nodes m2 !! i → can_rename m1 ptm i j → can_rename m2 ptm i j.
Proof.
  intros Hi (mol_node & ptm_node & is_ptm & ? & ?). exists mol_node, ptm_node, is_ptm.
  by rewrite <- Hi.
Qed.

Lemma rename_atoms_succeeds molecule ptm items :
  NoDup items.*1 →
  (∃ molecule', rename_atoms molecule ptm items = Ok molecule') ↔
  ∀ i j, (i, j) ∈ items → can_rename molecule ptm i j.
Proof.
  revert molecule. induction items as [|[i j] items IH]; intros molecule Hnd; simpl.
  - split; [by intros _ i j ?%elem_of_nil|eauto].
  - apply NoDup_cons in Hnd as [Hi Hnd]. split.
    + intros [molecule' Hrun].
      destruct (rename_atom molecule ptm i j) as [m1| |] eqn:Hone; simpl in *; try done.
      pose proof (rename_atom_frame _ _ _ _ _ Hone) as (_ & _ & Hout & _).
      intros i' j' [[= -> ->]|Hin]%elem_of_cons.
      * apply rename_atom_succeeds. eauto.
      * apply (can_rename_ext m1).
        -- apply Hout. intros ->. apply Hi. apply list_elem_of_fmap. by exists (i, j').
        -- apply (proj1 (IH m1 Hnd)); eauto.
    + intros Hall.
      destruct (proj2 (rename_atom_succeeds molecule ptm i j)) as [m1 Hone];
        [apply Hall; by left|].
      rewrite Hone. simpl. apply IH; [done|].
      pose proof (rename_atom_frame _ _ _ _ _ Hone) as (_ & _ & Hout & _).
      intros i' j' Hin. apply (can_rename_ext molecule).
      * symmetry. apply Hout. intros ->. apply Hi. apply list_elem_of_fmap.
        by exists (i, j').
      * apply Hall. by right.
Qed.

Lemma append_modification_succeeds st ptm n :
  (∃ st', append_modification st ptm n = Ok st') ↔ n ∈ dom (g_nodes (mol st)).
Proof.
  rewrite elem_of_dom. unfold append_modification. split.
  - intros [st' Hrun]. by destruct (g_nodes (mol st) !! n).
  - intros [node ->]. simpl. destruct (modifications node); eauto.
Qed.

Lemma append_modifications_succeeds st ptm n_idxs :
  (∃ st', append_modifications st ptm n_idxs = Ok st') ↔
  ∀ n, n ∈ n_idxs → n ∈ dom (g_nodes (mol st)).
Proof.
  revert st. induction n_idxs as [|n ns IH]; intros st; simpl.
  - split; [by intros _ n ?%elem_of_nil|eauto].
  - split.
    + intros [st' Hrun].
      destruct (append_modification st ptm n) as [st1| |] eqn:Hone; simpl in *; try done.
      pose proof (same_skeleton_dom _ _ (append_modification_skeleton _ _ _ _ Hone)) as Hdom.
      intros k [->|Hk]%elem_of_cons.
      * apply (proj1 (append_modification_succeeds st ptm n)). eauto.
      * rewrite <- Hdom. apply (proj1 (IH st1)); eauto.
    + intros Hall.
      destruct (proj2 (append_modification_succeeds st ptm n)) as [st1 Hone];
        [apply Hall; by left|].
      rewrite Hone. simpl. apply IH. intros k Hk.
      rewrite (same_skeleton_dom _ _ (append_modification_skeleton _ _ _ _ Hone)).
      apply Hall. by right.
Qed.

(** X9: when applying one match goes through, and which [KeyError]s stop
    it otherwise.  [apply_match] returns exactly when every node of the
    residue group is a node of the molecule and, for every pair of the
    match, the molecule node and the pattern node exist, the pattern node
    has a [PTM_atom], and, if the pair is to be renamed (the [PTM_atom]
    of the pattern node is true or the pattern node carries a [rename]),
    the pattern node has an [atomname] (even when it also has a [rename])
    and the molecule node has one too. *)
Theorem apply_match_succeeds (st : MolState) (n_idxs : gset nat) (ptm : Graph)
    (match_ : Match) :
  (∃ st', apply_match st n_idxs ptm match_ = Ok st') ↔
  (∀ mol_idx ptm_idx, match_ !! mol_idx = Some ptm_idx →
     can_rename (mol st) ptm mol_idx ptm_idx) ∧
  n_idxs ⊆ dom (g_nodes (mol st)).
Proof.
  unfold apply_match. split.
  - intros [st' Hrun].
    destruct (rename_atoms (mol st) ptm (map_to_list match_)) as [molecule'| |] eqn:Hren;
      simpl in *; try done.
    split.
    + intros mol_idx ptm_idx Hm%elem_of_map_to_list.
      apply (proj1 (rename_atoms_succeeds (mol st) ptm (map_to_list match_)
               (NoDup_fst_map_to_list _))); eauto.
    + apply elem_of_subseteq. intros n Hn.
      rewrite <- (same_skeleton_dom _ _ (rename_atoms_skeleton _ _ _ _ Hren)).
      apply (proj1 (append_modifications_succeeds (MkState molecule' (store st)) ptm
                      (elements n_idxs))); [eauto|set_solver].
  - intros [Hall Hsub].
    destruct (proj2 (rename_atoms_succeeds (mol st) ptm (map_to_list match_)
                (NoDup_fst_map_to_list _))) as [molecule' Hren].
    { intros i j Hin%elem_of_map_to_list. by apply Hall. }
    rewrite Hren. simpl. apply append_modifications_succeeds. simpl.
    intros n Hn. rewrite (same_skeleton_dom _ _ (rename_atoms_skeleton _ _ _ _ Hren)).
    set_solver.
Qed.

(** ** One residue group *)

Lemma mapM_result_Ok {A B} (f : A → result B) l ys :
  mapM f l = Ok ys → Forall (λ x, ∃ y, f x = Ok y) l.
Proof.
  revert ys. induction l as [|x l IH]; intros ys; simpl; [constructor|].
  destruct (f x) as [y| |] eqn:Hx; simpl; try done.
  destruct (mapM f l) as [k| |] eqn:Hl; simpl; try done.
  intros _. constructor; [eauto|]. by eapply IH.
Qed.

Lemma candidates_elem iso molecule n_idxs res_ptms known_PTMs ptm matcher :
  (ptm, matcher) ∈ candidates iso molecule n_idxs res_ptms known_PTMs →
  ptm ∈ known_PTMs ∧ matcher = MkMatcher (subgraph molecule n_idxs) ptm.
Proof.
  unfold candidates. rewrite sorted_by_perm. intros Hin. split.
  - assert (ptm ∈ (allowed_ptms iso (subgraph molecule n_idxs) res_ptms known_PTMs).*1)
      as Hfst by (apply list_elem_of_fmap; by exists (ptm, matcher)).
    rewrite allowed_ptms_patterns in Hfst. by apply list_elem_of_filter in Hfst as [_ ?].
  - pose proof (allowed_ptms_matchers iso (subgraph molecule n_idxs) res_ptms known_PTMs)
      as Hmatchers.
    rewrite Forall_forall in Hmatchers. by specialize (Hmatchers _ Hin).
Qed.

Lemma apply_match_trail st (N n_idxs : gset nat) ptm match_ st' :
  n_idxs ⊆ N → own_lists st N →
  apply_match st n_idxs ptm match_ = Ok st' →
  own_lists st' N ∧
  ∀ k, k ∈ N → current_modifications st' k
               = current_modifications st k ++ (if decide (k ∈ n_idxs) then [ptm] else []).
Proof.
  intros Hsub Hown. unfold apply_match.
  destruct (rename_atoms (mol st) ptm (map_to_list match_)) as [molecule'| |] eqn:Hren;
    simpl; try done.
  intros Happ.
  apply rename_atoms_items in Hren as (_ & _ & _ & Hmods & _);
    [|apply NoDup_fst_map_to_list].
  assert (Href : ∀ n, modifications_ref (MkState molecule' (store st)) n
                      = modifications_ref st n).
  { intros n. destruct st as [g s]. by apply modifications_ref_ext. }
  assert (Hown1 : own_lists (MkState molecule' (store st)) N).
  { destruct Hown as [Hlive Halias]. split.
    - intros n l. rewrite Href. apply Hlive.
    - intros n1 n2 l. rewrite !Href. apply Halias. }
  apply (append_modifications_own ptm N) in Happ
    as (Hown' & _ & _ & Hcur & _); [|apply NoDup_elements|set_solver|done].
  split; [done|]. intros k Hk. rewrite Hcur by done.
  unfold current_modifications. rewrite Href.
  do 2 case_decide; set_solver.
Qed.

Lemma apply_identified_trail st (N n_idxs : gset nat) identified st' :
  n_idxs ⊆ N → own_lists st N →
  apply_identified st n_idxs identified = Ok st' →
  own_lists st' N ∧
  ∀ k, k ∈ N → current_modifications st' k
               = current_modifications st k
                 ++ (if decide (k ∈ n_idxs) then identified.*1 else []).
Proof.
  intros Hsub. revert st.
  induction identified as [|[ptm match_] identified IH]; intros st Hown; simpl.
  - intros [= <-]. split; [done|]. intros k _. case_decide; by rewrite app_nil_r.
  - destruct (apply_match st n_idxs ptm match_) as [st1| |] eqn:Hone; simpl; try done.
    intros Hrest.
    apply (apply_match_trail st N) in Hone as [Hown1 Hcur1]; [|done..].
    destruct (IH st1 Hown1 Hrest) as [Hown' Hcur'].
    split; [done|]. intros k Hk. rewrite Hcur', Hcur1 by done.
    rewrite <- app_assoc. by case_decide.
Qed.

(** X10: what one residue group adds to the audit trail.  When the group
    is processed without error, the patterns it applied are all patterns
    of the library that carry a name, and, the [modifications] lists
    being separate objects, every node of the group has that same list of
    patterns appended to its own list while every other node keeps its
    list as it was. *)
Theorem fix_ptm_group_trail (iso : PTMGraphMatcher → list Match) (fuel : nat)
    (resid_to_idxs : gmap Z (gset nat)) (st : MolState) (resids : list Z)
    (res_ptms : list Island) (known_PTMs : list Graph) (st' : MolState) :
  fix_ptm_group iso fuel resid_to_idxs st resids res_ptms known_PTMs = Ok st' →
  ∃ n_idxs applied,
    nodes_of_residues resid_to_idxs resids = Ok n_idxs ∧
    Forall (λ ptm, ptm ∈ known_PTMs ∧ is_Some (g_name ptm)) applied ∧
    ∀ N : gset nat, n_idxs ⊆ N → own_lists st N →
      own_lists st' N ∧
      ∀ k, k ∈ N → current_modifications st' k
                   = current_modifications st k
                     ++ (if decide (k ∈ n_idxs) then applied else []).
Proof.
  unfold fix_ptm_group.
  destruct (nodes_of_residues resid_to_idxs resids) as [n_idxs| |]; simpl; try done.
  destruct (identify_ptms _ _ _ _ _) as [identified| |] eqn:Hid; simpl; try done.
  destruct (mapM _ identified) as [names| |] eqn:Hnames; simpl; try done.
  intros Happ. exists n_idxs, identified.*1. split_and!; [done| |].
  - apply Forall_fmap, Forall_forall. intros [ptm m] Hin. simpl. split.
    + apply identify_ptms_resolved, resolved_from_options in Hid.
      unfold from_options in Hid. rewrite Forall_forall in Hid.
      destruct (Hid _ Hin) as (matcher & Hopt & _). simpl in Hopt.
      by apply candidates_elem in Hopt as [? _].
    + apply mapM_result_Ok in Hnames. rewrite Forall_forall in Hnames.
      destruct (Hnames _ Hin) as [name Hname]. simpl in Hname.
      by destruct (g_name ptm).
  - intros N Hsub Hown. by eapply apply_identified_trail.
Qed.

Lemma fix_ptm_group_trail_witness :
  ∃ st', fix_ptm_group nx_subgraph_isomorphisms 3 (<[1%Z := group_nterm]> ∅)
           state_nterm [1%Z] islands_nterm KNOWN_PTMS = Ok st' ∧
    own_lists st' group_nterm.
Proof.
  destruct (fix_ptm_group nx_subgraph_isomorphisms 3 (<[1%Z := group_nterm]> ∅)
              state_nterm [1%Z] islands_nterm KNOWN_PTMS) as [st'| |] eqn:Hrun;
    [|vm_compute in Hrun; discriminate Hrun..].
  exists st'. split; [reflexivity|].
  destruct (fix_ptm_group_trail _ _ _ _ _ _ _ _ Hrun)
    as (n_idxs & applied & Hnodes & _ & Htrail).
  injection Hnodes as <-.
  apply (Htrail group_nterm); [set_solver|exact own_lists_nterm].
Defined.

Lemma allowed_ptms_none iso residue res_ptms known_PTMs :
  (∀ ptm, ptm ∈ known_PTMs → iso (MkMatcher residue ptm) = []) →
  allowed_ptms iso residue res_ptms known_PTMs = [].
Proof.
  induction known_PTMs as [|ptm known IH]; intros Hnone; [done|].
  unfold allowed_ptms in *. simpl. unfold subgraph_is_isomorphic at 1.
  rewrite (Hnone ptm) by (by left). apply IH. intros ptm' Hin. apply Hnone. by right.
Qed.

(** X11: an unrecognised modification stops the run.  When the group has
    an unresolved atom and no pattern of the library has an embedding in
    the residue, the group raises the [KeyError] of [identify_ptms]
    (Scenario C). *)
Theorem fix_ptm_group_unrecognised (iso : PTMGraphMatcher → list Match)
    (fuel : nat) (resid_to_idxs : gmap Z (gset nat)) (st : MolState)
    (resids : list Z) (res_ptms : list Island) (known_PTMs : list Graph)
    (n_idxs : gset nat) :
  nodes_of_residues resid_to_idxs resids = Ok n_idxs →
  (∀ ptm, ptm ∈ known_PTMs → iso (MkMatcher (subgraph (mol st) n_idxs) ptm) = []) →
  remaining res_ptms ≠ ∅ →
  fix_ptm_group iso (S fuel) resid_to_idxs st resids res_ptms known_PTMs
  = Raise could_not_identify.
Proof.
  intros Hnodes Hnone Hleft. unfold fix_ptm_group. rewrite Hnodes. simpl.
  unfold candidates. rewrite allowed_ptms_none by done. simpl.
  destruct (nothing_left res_ptms) eqn:E; [|done].
  by apply nothing_left_true in E.
Qed.

Lemma fix_ptm_group_unrecognised_witness :
  fix_ptm_group nx_subgraph_isomorphisms 3 resid_to_idxs_branch state_branch
    [1%Z] [({[1; 2; 3]}, {[0]})] KNOWN_PTMS = Raise could_not_identify.
Proof.
  apply (fix_ptm_group_unrecognised nx_subgraph_isomorphisms 2 resid_to_idxs_branch
           state_branch [1%Z] [({[1; 2; 3]}, {[0]})] KNOWN_PTMS {[0; 1; 2; 3]}).
  - vm_compute. reflexivity.
  - intros ptm [->|[->|[]%elem_of_nil]%elem_of_cons]%elem_of_cons;
      vm_compute; reflexivity.
  - by_compute.
Defined.

(** ** The whole of [fix_ptm] *)

Lemma fix_ptm_group_skeleton iso fuel resid_to_idxs st resids res_ptms known_PTMs st' :
  fix_ptm_group iso fuel resid_to_idxs st resids res_ptms known_PTMs = Ok st' →
  same_skeleton (mol st) (mol st').
Proof.
  unfold fix_ptm_group.
  destruct (nodes_of_residues resid_to_idxs resids) as [n_idxs| |]; simpl; try done.
  destruct (identify_ptms _ _ _ _ _) as [identified| |]; simpl; try done.
  destruct (mapM _ identified) as [names| |]; simpl; try done.
  apply apply_identified_skeleton.
Qed.

Lemma fix_ptm_groups_skeleton iso fuel resid_to_idxs st groups known_PTMs st' :
  fix_ptm_groups iso fuel resid_to_idxs st groups known_PTMs = Ok st' →
  same_skeleton (mol st) (mol st').
Proof.
  revert st. induction groups as [|[resids res_ptms] groups IH]; intros st; simpl.
  - intros [= <-]. apply same_skeleton_refl.
  - destruct (fix_ptm_group _ _ _ st _ _ _) as [st1| |] eqn:Hone; simpl; try done.
    intros Hrest.
    eapply same_skeleton_trans; [by eapply fix_ptm_group_skeleton|by apply IH].
Qed.

Lemma group_by_resid_Ok items d :
  Forall (λ item : nat * NodeAttrs, is_Some (resid item.2)) items →
  ∃ d', group_by_resid items d = Ok d'.
Proof.
  revert d. induction items as [|[n a] items IH]; intros d Hall; simpl; [eauto|].
  apply Forall_cons in Hall as [[r Hr] Hall]. simpl in Hr. rewrite Hr. simpl.
  by apply IH.
Qed.

Lemma group_by_resid_Raise items d :
  ¬ Forall (λ item : nat * NodeAttrs, is_Some (resid item.2)) items →
  group_by_resid items d = Raise (KeyError "resid").
Proof.
  revert d. induction items as [|[n a] items IH]; intros d Hnot; simpl.
  - exfalso. apply Hnot. constructor.
  - destruct (resid a) as [r|] eqn:Hr; simpl; [|done].
    apply IH. intros Hall. apply Hnot. constructor; [simpl; rewrite Hr; eauto|done].
Qed.

Lemma find_PTM_atoms_none next_iter molecule :
  flagged_nodes molecule = ∅ → find_PTM_atoms next_iter molecule = Ok [].
Proof.
  intros Hnone. unfold find_PTM_atoms. rewrite Hnone.
  destruct (size (∅ : gset nat)); simpl; by rewrite decide_True.
Qed.

(** X12: a molecule without any atom flagged [PTM_atom].  The processor
    then finds no island, renames nothing and labels nothing:
    [run_molecule] returns the molecule as it was when every node has a
    [resid], and raises the [KeyError] of the missing [resid] otherwise,
    because [fix_ptm] collects the nodes of all residues before it looks
    at the first group. *)
Theorem run_molecule_no_PTM_atoms (iso : PTMGraphMatcher → list Match)
    (next_iter : gset nat → nat) (fuel : nat) (st : MolState) :
  flagged_nodes (mol st) = ∅ →
  run_molecule iso next_iter fuel st
  = if decide (map_Forall (λ _ a, is_Some (resid a)) (g_nodes (mol st)))
    then Ok st else Raise (KeyError "resid").
Proof.
  intros Hnone. unfold run_molecule, fix_ptm.
  rewrite find_PTM_atoms_none by done. simpl.
  unfold resid_to_idxs.
  case_decide as Hall.
  - destruct (group_by_resid_Ok (map_to_list (g_nodes (mol st))) ∅) as [d' ->]; [|done].
    apply map_Forall_to_list in Hall. eapply Forall_impl; [exact Hall|].
    by intros [n a].
  - rewrite group_by_resid_Raise; [done|].
    intros Hall'. apply Hall. apply map_Forall_to_list.
    eapply Forall_impl; [exact Hall'|]. by intros [n a].
Qed.

Lemma run_molecule_no_PTM_atoms_witness :
  run_molecule nx_subgraph_isomorphisms ascending_first 3 state_plain = Ok state_plain.
Proof.
  rewrite (run_molecule_no_PTM_atoms nx_subgraph_isomorphisms ascending_first 3
             state_plain) by (vm_compute; reflexivity).
  rewrite decide_True; [reflexivity|]. by_compute.
Defined.

Lemma neighbors_ext g g' n :
  g_edges g' = g_edges g → dom (g_nodes g') = dom (g_nodes g) →
  neighbors g' n = neighbors g n.
Proof. intros He Hd. unfold neighbors. by rewrite He, Hd. Qed.

Lemma bfs_loop_ext fuel g g' visited queue :
  (∀ n, neighbors g' n = neighbors g n) →
  bfs_loop fuel g' visited queue = bfs_loop fuel g visited queue.
Proof.
  intros Hn. revert visited queue.
  induction fuel as [|fuel IH]; intros visited [|parent queue]; simpl; try done.
  rewrite Hn. destruct (scan_children _ visited) as [new v']. by rewrite IH.
Qed.

Lemma island_from_ext g g' extra first :
  g_edges g' = g_edges g → dom (g_nodes g') = dom (g_nodes g) →
  island_from g' extra first = island_from g extra first.
Proof.
  intros He Hd. unfold island_from, bfs_successors, bfs_edges.
  rewrite <- !(size_dom (D := gset nat)), Hd.
  rewrite (bfs_loop_ext _ g g'); [done|]. intros n. by apply neighbors_ext.
Qed.

Lemma find_PTM_loop_ext next_iter fuel g g' extra PTMs :
  g_edges g' = g_edges g → dom (g_nodes g') = dom (g_nodes g) →
  find_PTM_loop next_iter fuel g' extra PTMs = find_PTM_loop next_iter fuel g extra PTMs.
Proof.
  intros He Hd. revert extra PTMs.
  induction fuel as [|fuel IH]; intros extra PTMs; simpl; [done|].
  case_decide; [done|]. rewrite (island_from_ext g g') by done.
  destruct (island_from g extra (next_iter extra)) as [[atoms anchors]| |]; simpl; try done.
Qed.

(** X13: [fix_ptm] does not clear the [PTM_atom] flags.  After a run
    without error the molecule has the nodes and the edges it had, every
    node has the [resid], [element], [PTM_atom] and [rename] it had, and
    so [find_PTM_atoms] finds on the canonicalised molecule the very
    islands it found before. *)
Theorem fix_ptm_keeps_islands (iso : PTMGraphMatcher → list Match)
    (next_iter : gset nat → nat) (fuel : nat) (st st' : MolState) :
  fix_ptm iso next_iter fuel st = Ok st' →
  same_skeleton (mol st) (mol st') ∧
  flagged_nodes (mol st') = flagged_nodes (mol st) ∧
  find_PTM_atoms next_iter (mol st') = find_PTM_atoms next_iter (mol st).
Proof.
  unfold fix_ptm.
  destruct (find_PTM_atoms next_iter (mol st)) as [PTM_atoms| |] eqn:Hfind;
    simpl; try done.
  destruct (with_keys (mol st) PTM_atoms) as [keyed| |]; simpl; try done.
  destruct (resid_to_idxs (mol st)) as [d| |]; simpl; try done.
  intros Hskel%fix_ptm_groups_skeleton.
  pose proof (same_skeleton_flagged _ _ Hskel) as Hflag.
  pose proof (same_skeleton_dom _ _ Hskel) as Hdom.
  split_and!; [done..|].
  rewrite <- Hfind. unfold find_PTM_atoms. rewrite Hflag.
  destruct Hskel as (_ & Hedges & _). by apply find_PTM_loop_ext.
Qed.

Lemma fix_ptm_keeps_islands_witness :
  ∃ st', fix_ptm nx_subgraph_isomorphisms ascending_first 3 state_nterm = Ok st' ∧
    find_PTM_atoms ascending_first (mol st') = Ok islands_nterm.
Proof.
  eexists. split; [vm_compute; reflexivity|].
  destruct (fix_ptm_keeps_islands nx_subgraph_isomorphisms ascending_first 3
              state_nterm _ ltac:(vm_compute; reflexivity)) as (_ & _ & ->).
  vm_compute. reflexivity.
Defined.

(** ** The residue groups: [sorted] and [groupby] on the anchor keys *)

Lemma list_lt_asym a b : list_lt a b = true → list_lt b a = false.
Proof.
  revert b. induction a as [|x a IH]; intros [|y b]; simpl; try done.
  destruct (Z.ltb_spec x y), (Z.ltb_spec y x), (Z.eqb_spec x y), (Z.eqb_spec y x);
    simpl; try lia; try done.
  apply IH.
Qed.

Lemma list_le_trans a b c :
  list_lt b a = false → list_lt c b = false → list_lt c a = false.
Proof.
  revert b c. induction a as [|x a IH]; intros [|y b] [|z c]; simpl; try done.
  destruct (Z.ltb_spec y x), (Z.ltb_spec z y), (Z.ltb_spec z x),
    (Z.eqb_spec y x), (Z.eqb_spec z y), (Z.eqb_spec z x); simpl; try lia; try done.
  apply IH.
Qed.

Lemma list_le_antisym a b : list_lt a b = false → list_lt b a = false → a = b.
Proof.
  revert b. induction a as [|x a IH]; intros [|y b]; simpl; try done.
  destruct (Z.ltb_spec x y), (Z.ltb_spec y x), (Z.eqb_spec x y), (Z.eqb_spec y x);
    simpl; try lia; try done.
  intros Hab Hba. subst y. f_equal. by apply IH.
Qed.

Section SortedWith.
Context {A K : Type} (lt : K → K → bool) (key : A → K).
Hypothesis lt_asym : ∀ a b, lt a b = true → lt b a = false.
Hypothesis le_trans : ∀ a b c, lt b a = false → lt c b = false → lt c a = false.

Lemma insert_with_perm x l : insert_with lt key x l ≡ₚ x :: l.
Proof.
  induction l as [|y l IH]; simpl; [done|].
  destruct (lt (key y) (key x)); [|done]. rewrite IH. apply Permutation_swap.
Qed.

Lemma sorted_with_perm l : sorted_with lt key l ≡ₚ l.
Proof.
  induction l as [|x l IH]; simpl; [done|].
  rewrite insert_with_perm. by f_equiv.
Qed.

Lemma insert_with_sorted x l :
  StronglySorted (λ a b, lt (key b) (key a) = false) l →
  StronglySorted (λ a b, lt (key b) (key a) = false) (insert_with lt key x l).
Proof.
  induction 1 as [|y l Hl IH Hy]; simpl.
  - repeat constructor.
  - destruct (lt (key y) (key x)) eqn:Hyx.
    + constructor; [done|]. rewrite insert_with_perm.
      constructor; [by apply lt_asym|done].
    + constructor; [by constructor|].
      constructor; [done|]. eapply Forall_impl; [exact Hy|]. simpl.
      intros z Hz. by eapply le_trans.
Qed.

Lemma sorted_with_sorted l :
  StronglySorted (λ a b, lt (key b) (key a) = false) (sorted_with lt key l).
Proof.
  induction l as [|x l IH]; simpl; [constructor|]. by apply insert_with_sorted.
Qed.
End SortedWith.

Lemma groupby_cons {K A} `{EqDecision K} (k : K) (x : A) l :
  (groupby ((k, x) :: l) = (k, [x]) :: groupby l ∧
   ∀ k' xs' groups', groupby l = (k', xs') :: groups' → k ≠ k') ∨
  (∃ xs groups, groupby l = (k, xs) :: groups ∧
                groupby ((k, x) :: l) = (k, x :: xs) :: groups).
Proof.
  simpl. destruct (groupby l) as [|[k' xs'] groups'] eqn:E.
  - left. split; [done|]. by intros ???.
  - case_decide as Hk.
    + subst k'. right. by exists xs', groups'.
    + left. split; [done|]. by intros ??? [= <- _ _].
Qed.

Lemma groupby_concat {K A} `{EqDecision K} (l : list (K * A)) :
  concat (groupby l).*2 = l.*2.
Proof.
  induction l as [|[k x] l IH]; [done|].
  destruct (groupby_cons k x l) as [[-> _]|(xs & groups & Hl & ->)].
  - rewrite !fmap_cons. simpl. f_equal. exact IH.
  - rewrite Hl in IH. rewrite !fmap_cons in *. simpl in *. f_equal. exact IH.
Qed.

Lemma groupby_elem {K A} `{EqDecision K} (l : list (K * A)) k xs :
  (k, xs) ∈ groupby l → xs ≠ [] ∧ ∀ x, x ∈ xs → (k, x) ∈ l.
Proof.
  revert k xs. induction l as [|[k0 x0] l IH]; intros k xs.
  - by intros ?%elem_of_nil.
  - destruct (groupby_cons k0 x0 l) as [[-> _]|(xs0 & groups & Hl & ->)].
    + intros [[= -> ->]|Hin]%elem_of_cons.
      * split; [done|]. intros x ->%list_elem_of_singleton. by left.
      * destruct (IH _ _ Hin) as [? Hall]. split; [done|].
        intros x Hx. right. by apply Hall.
    + rewrite Hl in IH. intros [[= -> ->]|Hin]%elem_of_cons.
      * split; [done|]. intros x [->|Hx]%elem_of_cons; [by left|].
        right. apply (IH k0 xs0); [by left|done].
      * destruct (IH k xs) as [? Hall]; [by right|]. split; [done|].
        intros x Hx. right. by apply Hall.
Qed.

Lemma groupby_keys_head {K A} `{EqDecision K} (l : list (K * A)) k xs groups :
  groupby l = (k, xs) :: groups → ∃ x l', l = (k, x) :: l'.
Proof.
  destruct l as [|[k0 x0] l]; [done|].
  destruct (groupby_cons k0 x0 l) as [[-> _]|(xs0 & groups0 & _ & ->)];
    intros [= -> _ _]; eauto.
Qed.

Lemma groupby_NoDup {K A} `{EqDecision K} (le : relation K) (l : list (K * A)) :
  (∀ a b, le a b → le b a → a = b) →
  StronglySorted (λ a b, le a.1 b.1) l → NoDup (groupby l).*1.
Proof.
  intros Hanti. induction 1 as [|[k x] l Hl IH Hk].
  - constructor.
  - assert (Hkeys : ∀ k' xs', (k', xs') ∈ groupby l → le k k').
    { intros k' xs' [Hne Hall]%groupby_elem.
      destruct xs' as [|x' xs']; [done|].
      rewrite Forall_forall in Hk. apply (Hk (k', x')). apply Hall. by left. }
    destruct (groupby_cons k x l) as [[-> Hother]|(xs & groups & Hgl & ->)].
    + rewrite fmap_cons. constructor; [|done]. simpl.
      intros ([k2 xs2] & Hk2 & Hin)%list_elem_of_fmap. simpl in Hk2. subst k2.
      destruct (groupby l) as [|[k' xs'] groups'] eqn:E; [by apply elem_of_nil in Hin|].
      apply (Hother k' xs' groups' eq_refl).
      destruct (groupby_keys_head l k' xs' groups' E) as (x' & l' & ->).
      apply StronglySorted_inv in Hl as [_ Hle'].
      apply Hanti.
      * apply (Hkeys k' xs'). by left.
      * rewrite <- E in Hin. destruct (groupby_elem _ _ _ Hin) as [Hne Hall].
        destruct xs2 as [|x2 xs2]; [done|].
        assert ((k, x2) ∈ (k', x') :: l') as [[= -> ->]|Hin2]%elem_of_cons
          by (apply Hall; by left).
        -- apply (Hkeys k' xs'). by left.
        -- rewrite Forall_forall in Hle'. apply (Hle' (k, x2) Hin2).
    + rewrite Hgl in IH. rewrite fmap_cons in *. done.
Qed.

Lemma with_keys_Ok molecule PTM_atoms keyed :
  with_keys molecule PTM_atoms = Ok keyed →
  keyed.*2 = PTM_atoms ∧
  Forall (λ ki : list Z * Island, key_func molecule ki.2 = Ok ki.1) keyed.
Proof.
  unfold with_keys. revert keyed.
  induction PTM_atoms as [|island islands IH]; intros keyed; simpl.
  - by intros [= <-].
  - destruct (key_func molecule island) as [k| |] eqn:Hk; simpl; try done.
    destruct (mapM _ islands) as [rest| |] eqn:Hrest; simpl; try done.
    intros [= <-]. destruct (IH rest eq_refl) as [<- Hall]. by split; [|constructor].
Qed.

(** X14: how [fix_ptm] splits the islands over the residue groups.  After
    the islands are sorted by the sorted [resid]s of their anchors and
    grouped on that key, every island is in one group and only one, no
    two groups have the same key, no group is empty, and the islands of a
    group all have the key of the group. *)
Theorem residue_groups_partition (molecule : Graph) (PTM_atoms : list Island)
    (keyed : list (list Z * Island)) :
  with_keys molecule PTM_atoms = Ok keyed →
  let groups := groupby (sorted_with list_lt fst keyed) in
  concat groups.*2 ≡ₚ PTM_atoms ∧
  NoDup groups.*1 ∧
  Forall (λ group : list Z * list Island,
            group.2 ≠ [] ∧
            Forall (λ island, key_func molecule island = Ok group.1) group.2)
         groups.
Proof.
  intros [Hsnd Hkeys]%with_keys_Ok groups. subst groups. split_and!.
  - rewrite groupby_concat, <- Hsnd. by rewrite sorted_with_perm.
  - apply (groupby_NoDup (λ a b, list_lt b a = false)).
    + intros a b Hab Hba. by apply list_le_antisym.
    + apply (sorted_with_sorted list_lt fst list_lt_asym list_le_trans).
  - apply Forall_forall. intros [k xs] [Hne Hall]%groupby_elem. split; [done|].
    apply Forall_forall. intros island Hin. simpl.
    specialize (Hall _ Hin). rewrite sorted_with_perm in Hall.
    rewrite Forall_forall in Hkeys. by apply (Hkeys (k, island)).
Qed.

Lemma residue_groups_partition_witness :
  ∃ keyed, with_keys mol_nterm islands_nterm = Ok keyed ∧
    NoDup (groupby (sorted_with list_lt fst keyed)).*1.
Proof.
  eexists. split; [vm_compute; reflexivity|].
  apply (residue_groups_partition mol_nterm islands_nterm).
  vm_compute. reflexivity.
Defined.

(** ** Islands without an anchor *)

Lemma matcher_contract_empty iso molecule ptm :
  matcher_contract iso → has_PTM_atom ptm →
  iso (MkMatcher (subgraph molecule ∅) ptm) = [].
Proof.
  intros Hiso (p & a & Hp & _).
  destruct (iso (MkMatcher (subgraph molecule ∅) ptm)) as [|m ms] eqn:E; [done|].
  destruct (Hiso (MkMatcher (subgraph molecule ∅) ptm) m) as [Honto Hsem];
    [rewrite E; by left|]. simpl in *.
  destruct (Honto p) as [h Hh]; [by apply elem_of_dom|].
  specialize (Hsem h p Hh). unfold semantic_feasibility in Hsem. simpl in Hsem.
  destruct (filter _ (g_nodes molecule) !! h) as [b|] eqn:Hb; [|done].
  apply map_lookup_filter_Some in Hb as [_ Hb]. simpl in Hb. set_solver.
Qed.

Lemma groupby_elem_inv {K A} `{EqDecision K} (l : list (K * A)) k x :
  (k, x) ∈ l → ∃ xs, (k, xs) ∈ groupby l ∧ x ∈ xs.
Proof.
  induction l as [|[k0 x0] l IH]; [by intros ?%elem_of_nil|].
  intros Hin.
  destruct (groupby_cons k0 x0 l) as [[-> _]|(xs0 & groups & Hl & ->)];
    apply elem_of_cons in Hin as [[= -> ->]|Hin].
  - exists [x0]. split; by left.
  - destruct (IH Hin) as (xs & Hxs & Hx). exists xs. split; [by right|done].
  - exists (x0 :: xs0). split; by left.
  - destruct (IH Hin) as (xs & Hxs & Hx).
    rewrite Hl in Hxs. apply elem_of_cons in Hxs as [[= -> ->]|Hxs].
    + exists (x0 :: xs0). split; [by left|by right].
    + exists xs. split; [by right|done].
Qed.

Lemma fix_ptm_groups_Ok iso fuel resid_to_idxs st groups known_PTMs st' :
  fix_ptm_groups iso fuel resid_to_idxs st groups known_PTMs = Ok st' →
  Forall (λ group : list Z * list Island,
            ∃ st1 st2, fix_ptm_group iso fuel resid_to_idxs st1 group.1 group.2
                         known_PTMs = Ok st2) groups.
Proof.
  revert st. induction groups as [|[resids res_ptms] groups IH]; intros st; simpl.
  - constructor.
  - destruct (fix_ptm_group _ _ _ st _ _ _) as [st1| |] eqn:Hone; simpl; try done.
    intros Hrest. constructor; [by exists st, st1|by eapply IH].
Qed.

Lemma fix_ptm_group_no_anchor iso fuel resid_to_idxs st res_ptms known_PTMs st' :
  matcher_contract iso → Forall has_PTM_atom known_PTMs →
  remaining res_ptms ≠ ∅ →
  fix_ptm_group iso fuel resid_to_idxs st [] res_ptms known_PTMs ≠ Ok st'.
Proof.
  intros Hiso Hknown Hleft. unfold fix_ptm_group. simpl.
  unfold candidates. rewrite allowed_ptms_none.
  - simpl. assert (nothing_left res_ptms = false) as Hnl.
    { destruct (nothing_left res_ptms) eqn:E; [|done]. by apply nothing_left_true in E. }
    destruct fuel; simpl; by rewrite Hnl.
  - rewrite Forall_forall in Hknown. intros ptm Hptm.
    apply matcher_contract_empty; [done|]. by apply Hknown.
Qed.

Lemma key_func_no_anchor molecule (island : Island) key :
  island.2 = ∅ → key_func molecule island = Ok key → key = [].
Proof.
  intros Hnone. unfold key_func. rewrite Hnone, elements_empty. simpl.
  by intros [= <-].
Qed.

(** X15: [fix_ptm] cannot deal with an island that has no anchor.  With a
    matcher that returns only mappings onto all the nodes of the pattern
    whose pairs pass [semantic_feasibility], a run of [fix_ptm] that ends
    without error has found an anchor for every island: an island
    without one falls in the group of the empty key, whose residue is
    empty, and there no pattern of [KNOWN_PTMS] has an embedding. *)
Theorem fix_ptm_needs_anchors (iso : PTMGraphMatcher → list Match)
    (next_iter : gset nat → nat) (fuel : nat) (st st' : MolState)
    (islands : list Island) :
  matcher_contract iso →
  (∀ s : gset nat, s ≠ ∅ → next_iter s ∈ s) →
  fix_ptm iso next_iter fuel st = Ok st' →
  find_PTM_atoms next_iter (mol st) = Ok islands →
  Forall (λ island : Island, island.2 ≠ ∅) islands.
Proof.
  intros Hiso Hpick Hrun Hfind.
  pose proof (find_PTM_atoms_nonempty _ _ _ Hpick Hfind) as Hne.
  unfold fix_ptm in Hrun. rewrite Hfind in Hrun. simpl in Hrun.
  destruct (with_keys (mol st) islands) as [keyed| |] eqn:Hkeyed; simpl in Hrun; try done.
  destruct (resid_to_idxs (mol st)) as [d| |]; simpl in Hrun; try done.
  apply fix_ptm_groups_Ok in Hrun.
  apply with_keys_Ok in Hkeyed as [Hsnd Hkeys].
  apply Forall_forall. intros island Hin Hnone.
  rewrite <- Hsnd in Hin. apply list_elem_of_fmap in Hin as ([key island'] & -> & Hin).
  simpl in *.
  rewrite Forall_forall in Hkeys. pose proof (Hkeys _ Hin) as Hkey. simpl in Hkey.
  apply key_func_no_anchor in Hkey as ->; [|done].
  assert (Hin' : ([], island') ∈ sorted_with list_lt fst keyed)
    by (by rewrite sorted_with_perm).
  apply groupby_elem_inv in Hin' as (xs & Hgroup & Hx).
  rewrite Forall_forall in Hrun. destruct (Hrun _ Hgroup) as (st1 & st2 & Hone).
  simpl in Hone. revert Hone.
  apply fix_ptm_group_no_anchor; [done|apply KNOWN_PTMS_flagged|].
  rewrite Forall_forall in Hne. specialize (Hne (island') ).
  assert (island' ∈ islands) as Hisl
    by (rewrite <- Hsnd; apply list_elem_of_fmap; by exists ([], island')).
  specialize (Hne Hisl).
  intros Hempty. apply Hne. apply set_eq. intros a. split; [|set_solver].
  intros Ha. rewrite <- Hempty. apply elem_of_union_list.
  exists island'.1. split; [|done]. apply list_elem_of_fmap. by exists island'.
Qed.

Lemma fix_ptm_needs_anchors_witness :
  Forall (λ island : Island, island.2 ≠ ∅) islands_nterm.
Proof.
  destruct (fix_ptm nx_subgraph_isomorphisms ascending_first 3 state_nterm)
    as [st'| |] eqn:Hrun; [|vm_compute in Hrun; discriminate Hrun..].
  apply (fix_ptm_needs_anchors nx_subgraph_isomorphisms ascending_first 3
           state_nterm st' islands_nterm nx_matcher_contract ascending_first_elem Hrun).
  vm_compute. reflexivity.
Defined.

(** ** When the matcher's test is defined *)

(** X16: which keys [semantic_feasibility] needs.  It returns an answer
    exactly when both nodes exist, the pattern node has a [PTM_atom],
    and, only when the two flags agree, the attribute that is then
    compared ([element] for flagged atoms, [atomname] otherwise) is
    present on both nodes; nothing else is read, in particular a host
    node needs no [PTM_atom]. *)
Theorem semantic_feasibility_defined (self : PTMGraphMatcher) (n1 n2 : nat) :
  (∃ b, semantic_feasibility self n1 n2 = Ok b) ↔
  ∃ host pat f2,
    g_nodes (G1 self) !! n1 = Some host ∧
    g_nodes (G2 self) !! n2 = Some pat ∧
    PTM_atom pat = Some f2 ∧
    (flagged host = f2 →
     if f2 then is_Some (element host) ∧ is_Some (element pat)
     else is_Some (atomname host) ∧ is_Some (atomname pat)).
Proof.
  unfold semantic_feasibility. split.
  - intros [b Hrun].
    destruct (g_nodes (G1 self) !! n1) as [host|]; simpl in *; [|done].
    destruct (g_nodes (G2 self) !! n2) as [pat|]; simpl in *; [|done].
    destruct (PTM_atom pat) as [f2|] eqn:Hflag; simpl in *; [|done].
    exists host, pat, f2. split_and!; try done.
    intros Heq. rewrite bool_decide_eq_true_2 in Hrun by done.
    destruct f2.
    + destruct (element host); simpl in *; [|done].
      destruct (element pat); simpl in *; [|done]. eauto.
    + destruct (atomname host); simpl in *; [|done].
      destruct (atomname pat); simpl in *; [|done]. eauto.
  - intros (host & pat & f2 & -> & -> & Hflag & Hattrs). simpl.
    rewrite Hflag. simpl. case_bool_decide as Heq; [|eauto].
    destruct f2; destruct (Hattrs Heq) as [[x ->] [y ->]]; simpl; eauto.
Qed.

(** ** The nodes of a residue group *)

Lemma group_by_resid_lookup items d d' :
  group_by_resid items d = Ok d' →
  (∀ r n, n ∈ default ∅ (d' !! r) ↔
          n ∈ default ∅ (d !! r) ∨ ∃ a, (n, a) ∈ items ∧ resid a = Some r) ∧
  (∀ r, is_Some (d' !! r) ↔
        is_Some (d !! r) ∨ ∃ n a, (n, a) ∈ items ∧ resid a = Some r).
Proof.
  revert d. induction items as [|[n0 a0] items IH]; intros d; simpl.
  - intros [= <-]. split.
    + intros r n. split; [by left|]. by intros [?|(a & ?%elem_of_nil & _)].
    + intros r. split; [by left|]. by intros [?|(n & a & ?%elem_of_nil & _)].
  - destruct (resid a0) as [r0|] eqn:Hr0; simpl; [|done].
    intros [Hin Hkey]%IH. split.
    + intros r n. rewrite Hin. destruct (decide (r = r0)) as [->|Hr].
      * rewrite lookup_insert_eq. simpl. rewrite elem_of_union, elem_of_singleton.
        split.
        -- intros [[?| ->]|(a & ? & ?)]; [by left| |].
           ++ right. exists a0. split; [by left|done].
           ++ right. exists a. split; [by right|done].
        -- intros [?|(a & [[= -> ->]|?]%elem_of_cons & ?)].
           ++ by left; left.
           ++ by left; right.
           ++ right. by exists a.
      * rewrite lookup_insert_ne by done. split.
        -- intros [?|(a & ? & ?)]; [by left|]. right. exists a. split; [by right|done].
        -- intros [?|(a & [[= -> ->]|?]%elem_of_cons & ?)]; [by left|congruence|].
           right. by exists a.
    + intros r. rewrite Hkey. destruct (decide (r = r0)) as [->|Hr].
      * rewrite lookup_insert_eq. split; [|eauto].
        intros _. right. exists n0, a0. split; [by left|done].
      * rewrite lookup_insert_ne by done. split.
        -- intros [?|(n & a & ? & ?)]; [by left|]. right. exists n, a.
           split; [by right|done].
        -- intros [?|(n & a & [[= -> ->]|?]%elem_of_cons & ?)]; [by left|congruence|].
           right. by exists n, a.
Qed.

Lemma nodes_of_residues_Ok d resids n_idxs :
  nodes_of_residues d resids = Ok n_idxs →
  ∀ n, n ∈ n_idxs ↔ ∃ r, r ∈ resids ∧ n ∈ default ∅ (d !! r).
Proof.
  revert n_idxs. induction resids as [|r0 resids IH]; intros n_idxs; simpl.
  - intros [= <-] n. split; [set_solver|]. by intros (r & ?%elem_of_nil & _).
  - destruct (d !! r0) as [idxs|] eqn:Hr0; simpl; [|done].
    destruct (nodes_of_residues d resids) as [rest| |]; simpl; try done.
    intros [= <-] n. rewrite elem_of_union, (IH rest eq_refl). split.
    + intros [?|(r & ? & ?)].
      * exists r0. split; [by left|]. by rewrite Hr0.
      * exists r. split; [by right|done].
    + intros (r & [->|?]%elem_of_cons & Hn).
      * left. by rewrite Hr0 in Hn.
      * right. by exists r.
Qed.

Lemma nodes_of_residues_succeeds d resids :
  (∃ n_idxs, nodes_of_residues d resids = Ok n_idxs) ↔
  Forall (λ r, is_Some (d !! r)) resids.
Proof.
  induction resids as [|r0 resids IH]; simpl.
  - split; [constructor|eauto].
  - split.
    + intros [n_idxs Hrun].
      destruct (d !! r0) as [idxs|] eqn:Hr0; simpl in *; [|done].
      destruct (nodes_of_residues d resids) as [rest| |]; simpl in *; try done.
      constructor; [by rewrite Hr0|]. apply IH. eauto.
    + intros [[idxs Hr0] [rest Hrest]%IH]%Forall_cons.
      rewrite Hr0, Hrest. simpl. eauto.
Qed.

(** X17: the residue of a group.  When [resid_to_idxs] has been built,
    the nodes collected for a list of [resid]s are found exactly when
    every [resid] of the list is the [resid] of some node of the
    molecule, and they are then exactly the nodes of the molecule whose
    [resid] is in the list. *)
Theorem nodes_of_residues_spec (molecule : Graph) (d : gmap Z (gset nat))
    (resids : list Z) :
  resid_to_idxs molecule = Ok d →
  ((∃ n_idxs, nodes_of_residues d resids = Ok n_idxs) ↔
   Forall (λ r, ∃ n a, g_nodes molecule !! n = Some a ∧ resid a = Some r) resids) ∧
  ∀ n_idxs, nodes_of_residues d resids = Ok n_idxs →
    ∀ n, n ∈ n_idxs ↔
         ∃ a r, g_nodes molecule !! n = Some a ∧ resid a = Some r ∧ r ∈ resids.
Proof.
  unfold resid_to_idxs. intros [Hin Hkey]%group_by_resid_lookup. split.
  - rewrite nodes_of_residues_succeeds. apply Forall_iff. intros r.
    rewrite Hkey, lookup_empty. split.
    + intros [[? [=]]|(n & a & ?%elem_of_map_to_list & ?)]. by exists n, a.
    + intros (n & a & ? & ?). right. exists n, a. by rewrite elem_of_map_to_list.
  - intros n_idxs Hrun n. rewrite (nodes_of_residues_Ok _ _ _ Hrun). split.
    + intros (r & Hr & [Hn|(a & Ha%elem_of_map_to_list & ?)]%Hin).
      * rewrite lookup_empty in Hn. set_solver.
      * by exists a, r.
    + intros (a & r & Ha & ? & ?). exists r. split; [done|].
      apply Hin. right. exists a. by rewrite elem_of_map_to_list.
Qed.

Lemma nodes_of_residues_spec_witness :
  ∃ d, resid_to_idxs mol_nterm = Ok d ∧
    ∃ n_idxs, nodes_of_residues d [1%Z] = Ok n_idxs.
Proof.
  destruct (resid_to_idxs mol_nterm) as [d| |] eqn:Hd;
    [|vm_compute in Hd; discriminate Hd..].
  exists d. split; [reflexivity|].
  apply (proj1 (nodes_of_residues_spec mol_nterm d [1%Z] Hd)).
  repeat constructor. by exists 0, (atom 1 "N" "N" None).
Defined.

(** ** A residue group is processed inside its residue *)

Lemma matcher_contract_keys iso molecule (n_idxs : gset nat) ptm m h :
  matcher_contract iso →
  m ∈ iso (MkMatcher (subgraph molecule n_idxs) ptm) →
  is_Some (m !! h) → h ∈ n_idxs ∧ h ∈ dom (g_nodes molecule).
Proof.
  intros Hiso Hm [p Hp].
  destruct (Hiso _ _ Hm) as [_ Hsem]. specialize (Hsem h p Hp).
  unfold semantic_feasibility in Hsem. simpl in Hsem.
  destruct (filter _ (g_nodes molecule) !! h) as [b|] eqn:Hb; [|done].
  apply map_lookup_filter_Some in Hb as [Hb Hin]. simpl in Hin.
  split; [done|]. by apply elem_of_dom.
Qed.

Lemma apply_identified_inside st (n_idxs : gset nat) identified st' n :
  apply_identified st n_idxs identified = Ok st' →
  Forall (λ pm : Graph * Match, dom pm.2 ⊆ n_idxs) identified →
  n ∉ n_idxs →
  g_nodes (mol st') !! n = g_nodes (mol st) !! n.
Proof.
  intros Hrun Hall Hn. revert st Hrun.
  induction Hall as [|[ptm match_] identified Hsub Hall IH]; intros st; simpl.
  - by intros [= <-].
  - destruct (apply_match st n_idxs ptm match_) as [st1| |] eqn:Hone; simpl; try done.
    intros Hrest. rewrite (IH _ Hrest).
    eapply apply_match_untouched; [done..|].
    apply not_elem_of_dom. simpl in Hsub. set_solver.
Qed.

(** X18: a residue group is processed inside its residue.  With a
    matcher whose mapped pairs all pass [semantic_feasibility], a group
    that is processed without error leaves every node outside the
    residues of the group exactly as it was, with all its attributes. *)
Theorem fix_ptm_group_local (iso : PTMGraphMatcher → list Match) (fuel : nat)
    (resid_to_idxs : gmap Z (gset nat)) (st : MolState) (resids : list Z)
    (res_ptms : list Island) (known_PTMs : list Graph) (st' : MolState)
    (n_idxs : gset nat) (n : nat) :
  matcher_contract iso →
  nodes_of_residues resid_to_idxs resids = Ok n_idxs →
  fix_ptm_group iso fuel resid_to_idxs st resids res_ptms known_PTMs = Ok st' →
  n ∉ n_idxs →
  g_nodes (mol st') !! n = g_nodes (mol st) !! n.
Proof.
  intros Hiso Hnodes. unfold fix_ptm_group. rewrite Hnodes. simpl.
  destruct (identify_ptms _ _ _ _ _) as [identified| |] eqn:Hid; simpl; try done.
  destruct (mapM _ identified) as [names| |]; simpl; try done.
  intros Happ Hn. apply (apply_identified_inside _ _ _ _ _ Happ); [|done].
  apply identify_ptms_resolved, resolved_from_options in Hid.
  eapply Forall_impl; [exact Hid|]. simpl.
  intros [ptm m] (matcher & Hopt & Hm). simpl in *.
  apply candidates_elem in Hopt as [_ ->].
  apply elem_of_subseteq. intros h Hh%elem_of_dom.
  by destruct (matcher_contract_keys iso (mol st) n_idxs ptm m h Hiso Hm Hh).
Qed.

Lemma fix_ptm_group_local_witness :
  ∃ st', fix_ptm_group nx_subgraph_isomorphisms 3 (<[1%Z := {[0; 1]}]> ∅)
           (MkState mol_long_chain ∅) [1%Z] [({[0]}, {[1]})] [methyl] = Ok st' ∧
    g_nodes (mol st') !! 4 = g_nodes mol_long_chain !! 4.
Proof.
  destruct (fix_ptm_group nx_subgraph_isomorphisms 3 (<[1%Z := {[0; 1]}]> ∅)
              (MkState mol_long_chain ∅) [1%Z] [({[0]}, {[1]})] [methyl])
    as [st'| |] eqn:Hrun; [|vm_compute in Hrun; discriminate Hrun..].
  exists st'. split; [reflexivity|].
  refine (fix_ptm_group_local nx_subgraph_isomorphisms 3 (<[1%Z := {[0; 1]}]> ∅)
            (MkState mol_long_chain ∅) [1%Z] [({[0]}, {[1]})] [methyl] st'
            ({[0; 1]} : gset nat) 4 nx_matcher_contract _ Hrun _).
  - vm_compute. reflexivity.
  - by_compute.
Defined.

(** ** The key of an island *)

Lemma mapM_result_Forall2 {A B} (f : A → result B) l ys :
  mapM f l = Ok ys → Forall2 (λ x y, f x = Ok y) l ys.
Proof.
  revert ys. induction l as [|x l IH]; intros ys; simpl.
  - intros [= <-]. constructor.
  - destruct (f x) as [y| |] eqn:Hx; simpl; try done.
    destruct (mapM f l) as [k| |] eqn:Hl; simpl; try done.
    intros [= <-]. constructor; [done|]. by apply IH.
Qed.

Lemma StronglySorted_weaken {A} (R R' : relation A) l :
  (∀ a b, R a b → R' a b) → StronglySorted R l → StronglySorted R' l.
Proof.
  intros Himpl. induction 1 as [|x l Hl IH Hx]; constructor; [done|].
  eapply Forall_impl; [exact Hx|]. apply Himpl.
Qed.

(** X19: the key on which the islands are grouped.  When [key_func]
    returns, its key holds the [resid] of every anchor of the island,
    once per anchor, in ascending order: the key does not depend on the
    order in which the set of anchors is iterated, and two anchors in
    the same residue give that [resid] twice. *)
Theorem key_func_sorted (molecule : Graph) (ptm_atoms : Island) (key : list Z) :
  key_func molecule ptm_atoms = Ok key →
  StronglySorted Z.le key ∧
  ∃ resids,
    Forall2 (λ idx r, resid <$> g_nodes molecule !! idx = Some (Some r))
            (elements ptm_atoms.2) resids ∧
    key ≡ₚ resids.
Proof.
  unfold key_func.
  destruct (mapM _ (elements ptm_atoms.2)) as [resids| |] eqn:Hmap; simpl; try done.
  intros [= <-]. split.
  - eapply StronglySorted_weaken;
      [|apply (sorted_with_sorted Z.ltb id)]; simpl.
    + intros a b Hab. apply Z.ltb_ge in Hab. done.
    + intros a b Hab. apply Z.ltb_lt in Hab. apply Z.ltb_ge. lia.
    + intros a b c Hab Hbc. apply Z.ltb_ge in Hab, Hbc. apply Z.ltb_ge. lia.
  - exists resids. split; [|apply sorted_with_perm].
    apply mapM_result_Forall2 in Hmap.
    eapply Forall2_impl; [exact Hmap|]. simpl. intros idx r.
    destruct (g_nodes molecule !! idx) as [a|]; simpl; [|done].
    destruct (resid a); simpl; [|done]. by intros [= ->].
Qed.

Lemma key_func_sorted_witness :
  ∃ key, key_func mol_long_chain ({[0; 2]}, {[5; 1; 4]}) = Ok key ∧
    StronglySorted Z.le key.
Proof.
  eexists. split; [vm_compute; reflexivity|].
  apply (key_func_sorted mol_long_chain ({[0; 2]}, {[5; 1; 4]})).
  vm_compute. reflexivity.
Defined.

(** ** The one error of the traversal *)

Lemma traverse_Raise extra succs to_see atoms anchors e :
  traverse extra succs to_see atoms anchors = Raise e → e = KeyError "to_see".
Proof.
  revert to_see atoms anchors.
  induction succs as [|[orig succ] succs IH]; intros to_see atoms anchors; simpl;
    [done|].
  repeat case_decide; try done; try apply IH. by intros [= <-].
Qed.

(** X20: [find_PTM_atoms] fails in one way only.  The only exception it
    raises is the [KeyError] of [to_see.remove(orig)], when the traversal
    yields a node that was never put in [to_see]. *)
Theorem find_PTM_atoms_KeyError (next_iter : gset nat → nat) (molecule : Graph)
    (e : exn) :
  find_PTM_atoms next_iter molecule = Raise e → e = KeyError "to_see".
Proof.
  unfold find_PTM_atoms. generalize (size (flagged_nodes molecule)) as fuel.
  generalize (flagged_nodes molecule) as extra. generalize (@nil Island) as PTMs.
  intros PTMs extra fuel. revert extra PTMs.
  induction fuel as [|fuel IH]; intros extra PTMs; simpl.
  - by case_decide.
  - case_decide; [done|].
    destruct (island_from molecule extra (next_iter extra))
      as [[atoms anchors]| |] eqn:E; simpl; [apply IH| |done].
    intros [= <-]. unfold island_from in E.
    destruct (bfs_successors molecule (next_iter extra)); [|done].
    by apply traverse_Raise in E.
Qed.

Lemma find_PTM_atoms_KeyError_witness :
  find_PTM_atoms ascending_first mol_long_chain = Raise (KeyError "to_see").
Proof.
  destruct (find_PTM_atoms ascending_first mol_long_chain) as [islands|e|] eqn:Hrun;
    [vm_compute in Hrun; discriminate Hrun| |vm_compute in Hrun; discriminate Hrun].
  f_equal.
  apply (find_PTM_atoms_KeyError ascending_first mol_long_chain e Hrun).
Defined.

(** ** Candidates of equal size *)

Lemma insert_by_filter {A} (key : A → nat) (k : nat) x l :
  filter (λ y, key y = k) (insert_by key x l)
  = filter (λ y, key y = k) (x :: l).
Proof.
  induction l as [|y l IH]; simpl; [done|].
  case_decide as Hle; [done|].
  rewrite filter_cons, IH, !filter_cons.
  destruct (decide (key y = k)), (decide (key x = k)); try done. lia.
Qed.

Lemma sorted_by_filter {A} (key : A → nat) (k : nat) l :
  filter (λ y, key y = k) (sorted_by key l) = filter (λ y, key y = k) l.
Proof.
  induction l as [|x l IH]; simpl; [done|].
  rewrite insert_by_filter, !filter_cons, IH. done.
Qed.

(** X21: the sort of the candidates is stable.  Among the candidates of
    one size, the order in the sorted list is the order in which
    [allowed_ptms] yields them, and their patterns are, in the order of
    the library, the patterns of that size that embed. *)
Theorem candidates_stable (iso : PTMGraphMatcher → list Match) (molecule : Graph)
    (n_idxs : gset nat) (res_ptms : list Island) (known_PTMs : list Graph)
    (k : nat) :
  filter (λ opt : Graph * PTMGraphMatcher, graph_len opt.1 = k)
         (candidates iso molecule n_idxs res_ptms known_PTMs)
  = filter (λ opt : Graph * PTMGraphMatcher, graph_len opt.1 = k)
           (allowed_ptms iso (subgraph molecule n_idxs) res_ptms known_PTMs) ∧
  (filter (λ opt : Graph * PTMGraphMatcher, graph_len opt.1 = k)
          (candidates iso molecule n_idxs res_ptms known_PTMs)).*1
  = filter (λ ptm, graph_len ptm = k)
      (filter (λ ptm, subgraph_is_isomorphic iso
                        (MkMatcher (subgraph molecule n_idxs) ptm) = true)
              known_PTMs).
Proof.
  unfold candidates.
  rewrite (sorted_by_filter (λ opt : Graph * PTMGraphMatcher, graph_len opt.1) k).
  split; [done|].
  rewrite <- (allowed_ptms_patterns iso (subgraph molecule n_idxs) res_ptms known_PTMs).
  generalize (allowed_ptms iso (subgraph molecule n_idxs) res_ptms known_PTMs).
  intros l. induction l as [|opt l IH]; [done|].
  rewrite fmap_cons, !filter_cons. simpl.
  destruct (decide (graph_len opt.1 = k)); [rewrite fmap_cons; f_equal|]; exact IH.
Qed.

(** ** A [modifications] list shared by several nodes *)

Lemma append_modification_shared st ptm n l st' :
  modifications_ref st n = Some l →
  append_modification st ptm n = Ok st' →
  store st' !! l = Some (default [] (store st !! l) ++ [ptm]) ∧
  ∀ k, modifications_ref st k = Some l → modifications_ref st' k = Some l.
Proof.
  intros Hl (l' & Hl' & Hother & Hold & Hstore & _)%append_modification_step.
  assert (l' = l) as ->.
  { destruct Hold as [Hsame|[Hnone _]]; congruence. }
  split.
  - rewrite Hstore. unfold current_modifications. by rewrite Hl.
  - intros k Hk. destruct (decide (k = n)) as [->|Hne]; [done|].
    by rewrite Hother.
Qed.

(** X22: the [modifications] list is an object, and [append] acts on the
    object.  When the nodes of a group all refer to one and the same
    list, labelling the group appends the pattern to that list once for
    every node of the group, so that each of these nodes then shows the
    pattern as many times as there are nodes. *)
Theorem append_modifications_shared (st : MolState) (ptm : Graph)
    (n_idxs : list nat) (l : loc) (st' : MolState) :
  (∀ n, n ∈ n_idxs → modifications_ref st n = Some l) →
  append_modifications st ptm n_idxs = Ok st' →
  ∀ n, n ∈ n_idxs →
    current_modifications st' n
    = current_modifications st n ++ replicate (length n_idxs) ptm.
Proof.
  intros Hshared Hrun.
  assert (Hstore : store st' !! l
                   = (if n_idxs is [] then store st !! l
                      else Some (default [] (store st !! l)
                                 ++ replicate (length n_idxs) ptm)) ∧
                   ∀ k, modifications_ref st k = Some l →
                        modifications_ref st' k = Some l).
  { revert st Hshared Hrun. induction n_idxs as [|n ns IH]; intros st Hshared; simpl.
    - by intros [= <-].
    - destruct (append_modification st ptm n) as [st1| |] eqn:Hone; simpl; try done.
      intros Hrest.
      apply (append_modification_shared st ptm n l) in Hone as [Hst1 Hrefs1];
        [|apply Hshared; by left].
      destruct (IH st1) as [Hst' Hrefs']; [|done|].
      { intros k Hk. apply Hrefs1, Hshared. by right. }
      split; [|by intros k Hk; apply Hrefs', Hrefs1].
      rewrite Hst'. destruct ns as [|n' ns']; [done|].
      rewrite Hst1. simpl. by rewrite <- app_assoc. }
  destruct Hstore as [Hst' Hrefs]. intros n Hn.
  unfold current_modifications. rewrite (Hrefs n), (Hshared n), Hst' by auto.
  destruct n_idxs; [by apply elem_of_nil in Hn|done].
Qed.

Lemma append_modifications_shared_witness :
  ∃ st', append_modifications state_shared n_term [0; 1] = Ok st' ∧
    current_modifications st' 0 = [n_term; n_term].
Proof.
  destruct (append_modifications state_shared n_term [0; 1]) as [st'| |] eqn:Hrun;
    [|vm_compute in Hrun; discriminate Hrun..].
  exists st'. split; [reflexivity|].
  rewrite (append_modifications_shared state_shared n_term [0; 1] 0 st').
  - reflexivity.
  - intros n [->|[->|[]%elem_of_nil]%elem_of_cons]%elem_of_cons; reflexivity.
  - exact Hrun.
  - by left.
Defined.

(** ** The images of the matches of Scenario A *)

(** The images themselves do not partition the unresolved atoms: the
    N-terminus match of Scenario A maps the anchor [N] and the renamed
    [HN] as well, in whatever order the matcher enumerates its
    embeddings. *)
Lemma identify_ptms_images_counterexample :
  identify_ptms nx_subgraph_isomorphisms 3 residue_nterm islands_nterm
    options_nterm = Ok identified_nterm ∧
  ¬ images_partition (remaining islands_nterm) identified_nterm ∧
  ∀ iso : PTMGraphMatcher → list Match,
    (∀ matcher, iso matcher ≡ₚ nx_subgraph_isomorphisms matcher) →
    ∀ fuel identified,
      identify_ptms iso fuel residue_nterm islands_nterm
        (candidates iso mol_nterm group_nterm islands_nterm KNOWN_PTMS)
      = Ok identified →
      ¬ images_partition (remaining islands_nterm) identified.
Proof.
  split; [vm_compute; reflexivity|]. split.
  { intros [_ Heq].
    apply (f_equal (λ X : gset nat, bool_decide (0 ∈ X))) in Heq.
    vm_compute in Heq. discriminate. }
  intros iso Hiso fuel identified Hrun [_ Hunion].
  apply identify_ptms_resolved in Hrun.
  destruct identified as [|[ptm m] rest].
  { apply (f_equal (λ X : gset nat, bool_decide (2 ∈ X))) in Hunion.
    vm_compute in Hunion. discriminate. }
  inversion Hrun as [|options U idx ptm' matcher m' rest' Hidx Hm Hsub Hrest]; subst.
  apply list_elem_of_lookup_2, candidates_elem in Hidx as [Hptm ->].
  rewrite Hiso in Hm.
  assert (0 ∈ dom m) as H0.
  { apply elem_of_cons in Hptm as [->|Hptm];
      [|apply elem_of_cons in Hptm as [->|Hptm]; [|by apply elem_of_nil in Hptm]].
    - revert Hm.
      replace (nx_subgraph_isomorphisms (MkMatcher (subgraph mol_nterm group_nterm) n_term))
        with [<[0 := 0]> (<[1 := 1]> (<[2 := 2]> (<[3 := 3]> (∅ : gmap nat nat))));
              <[0 := 0]> (<[1 := 1]> (<[2 := 3]> (<[3 := 2]> (∅ : gmap nat nat))))]
        by (vm_compute; reflexivity).
      intros [->|[->|[]%elem_of_nil]%elem_of_cons]%elem_of_cons; by_compute.
    - revert Hm.
      replace (nx_subgraph_isomorphisms (MkMatcher (subgraph mol_nterm group_nterm) c_term))
        with (@nil (gmap nat nat)) by (vm_compute; reflexivity).
      by intros ?%elem_of_nil. }
  assert (0 ∈ remaining islands_nterm) as Hbad.
  { rewrite <- Hunion, fmap_cons, union_list_cons. unfold image. simpl. set_solver. }
  revert Hbad. by_compute.
Qed.
